(** * The remote-TLS session client of witness-sdk

    A shallow embedding of [makeAPITLSClient] and [generateProviderReceipt]:
    the closure variables of the client become one record that is threaded
    through every operation, a thrown JavaScript error becomes the [Thrown]
    completion, and the two external collaborators (the TLS engine and the
    witness relay) are an explicit capability interface. *)

From Stdlib Require Import ZArith Lia Bool.
From Stdlib Require Import Strings.Byte.
From stdpp Require Import base tactics option list sorting strings pretty.

Set Default Proof Using "Type".
Open Scope Z_scope.

(** ** Byte arrays *)

Abbreviation bytes := (list byte).

(** [Uint8Array.prototype.slice]: a negative bound counts from the end,
    every bound is clamped to the array. *)
Definition relIndex (len i : Z) : Z :=
  if i <? 0 then Z.max (len + i) 0 else Z.min i len.

Definition slice (data : bytes) (start finish : Z) : bytes :=
  let len := Z.of_nat (length data) in
  let k := relIndex len start in
  let final := relIndex len finish in
  take (Z.to_nat (final - k)) (drop (Z.to_nat k) data).

(** [data.slice(start)] *)
Definition sliceFrom (data : bytes) (start : Z) : bytes :=
  slice data start (Z.of_nat (length data)).

(** [if(block.length)] *)
Definition nonEmpty (block : bytes) : bool :=
  match block with [] => false | _ :: _ => true end.

(** [String.prototype.includes] *)
Fixpoint includes (s sub : string) : bool :=
  if String.prefix sub s then true
  else match s with
       | EmptyString => false
       | String _ rest => includes rest sub
       end.

(** [strToUint8Array] on the ASCII strings used below. *)
Definition strToUint8Array (s : string) : bytes := String.list_byte_of_string s.

(** ** Errors and effects *)

(** gRPC status codes, as in nice-grpc-common. *)
Inductive Status :=
  | OK | CANCELLED | UNKNOWN | INVALID_ARGUMENT | DEADLINE_EXCEEDED
  | NOT_FOUND | ALREADY_EXISTS | PERMISSION_DENIED | RESOURCE_EXHAUSTED
  | FAILED_PRECONDITION | ABORTED | OUT_OF_RANGE | UNIMPLEMENTED
  | INTERNAL | UNAVAILABLE | DATA_LOSS | UNAUTHENTICATED.

Definition Status_eqb (a b : Status) : bool :=
  match a, b with
  | OK, OK | CANCELLED, CANCELLED | UNKNOWN, UNKNOWN
  | INVALID_ARGUMENT, INVALID_ARGUMENT | DEADLINE_EXCEEDED, DEADLINE_EXCEEDED
  | NOT_FOUND, NOT_FOUND | ALREADY_EXISTS, ALREADY_EXISTS
  | PERMISSION_DENIED, PERMISSION_DENIED
  | RESOURCE_EXHAUSTED, RESOURCE_EXHAUSTED
  | FAILED_PRECONDITION, FAILED_PRECONDITION | ABORTED, ABORTED
  | OUT_OF_RANGE, OUT_OF_RANGE | UNIMPLEMENTED, UNIMPLEMENTED
  | INTERNAL, INTERNAL | UNAVAILABLE, UNAVAILABLE | DATA_LOSS, DATA_LOSS
  | UNAUTHENTICATED, UNAUTHENTICATED => true
  | _, _ => false
  end.

(** What [instanceof] can tell about a thrown value. *)
Inductive ErrorClass :=
  | PlainError                       (* new Error(message) *)
  | TypeError                        (* raised by the runtime *)
  | ClientError (code : Status).     (* nice-grpc ClientError *)

Record JsError := mkError { errClass : ErrorClass; message : string }.

Definition Error (msg : string) : JsError := mkError PlainError msg.

(** How a call completes. *)
Inductive Completion (A : Type) :=
  | Returned (a : A)
  | Thrown (e : JsError).
Arguments Returned {A} a.
Arguments Thrown {A} e.

(** An effectful computation over the mutable state [S]: the state that a
    call leaves behind is kept also when it throws. *)
Definition Eff (S A : Type) : Type := S -> Completion A * S.

Definition ret {S A} (a : A) : Eff S A := fun s => (Returned a, s).
Definition throw {S A} (e : JsError) : Eff S A := fun s => (Thrown e, s).
Definition bind {S A B} (m : Eff S A) (k : A -> Eff S B) : Eff S B :=
  fun s => match m s with
           | (Returned a, s') => k a s'
           | (Thrown e, s') => (Thrown e, s')
           end.
Definition tryCatch {S A} (m : Eff S A) (handler : JsError -> Eff S A) : Eff S A :=
  fun s => match m s with
           | (Returned a, s') => (Returned a, s')
           | (Thrown e, s') => handler e s'
           end.
Definition gets {S A} (f : S -> A) : Eff S A := fun s => (Returned (f s), s).
Definition modify {S} (f : S -> S) : Eff S unit := fun s => (Returned tt, f s).

Notation "x <- m ;; k" := (bind m (fun x => k))
  (at level 100, m at next level, right associativity).
Notation "m ;; k" := (bind m (fun _ => k))
  (at level 100, right associativity).

(** [for(const x of xs) { body(x) }] *)
Fixpoint forEach {S A} (xs : list A) (body : A -> Eff S unit) : Eff S unit :=
  match xs with
  | [] => ret tt
  | x :: rest => body x ;; forEach rest body
  end.

(** ** Records of the transcript *)

Inductive TranscriptMessageSenderType :=
  | TRANSCRIPT_MESSAGE_SENDER_TYPE_CLIENT
  | TRANSCRIPT_MESSAGE_SENDER_TYPE_SERVER.

Definition sender_eqb (a b : TranscriptMessageSenderType) : bool :=
  match a, b with
  | TRANSCRIPT_MESSAGE_SENDER_TYPE_CLIENT, TRANSCRIPT_MESSAGE_SENDER_TYPE_CLIENT
  | TRANSCRIPT_MESSAGE_SENDER_TYPE_SERVER, TRANSCRIPT_MESSAGE_SENDER_TYPE_SERVER => true
  | _, _ => false
  end.

Inductive TLSVersion := TLS1_2 | TLS1_3.

Inductive ContentType :=
  | CHANGE_CIPHER_SPEC | ALERT | HANDSHAKE | APPLICATION_DATA.

(** [PACKET_TYPE.WRAPPED_RECORD], the record type 23 of RFC 8446. *)
Definition WRAPPED_RECORD : byte := x17.

(** [{ header, content }] *)
Record TLSPacket := mkPacket { header : bytes; content : bytes }.

(** [TLSPacketContext]: a record that went over the wire in the clear, or
    an encrypted one together with what it decrypts to. *)
Inductive TLSPacketContext :=
  | CtxPlaintext
  | CtxCiphertext (plaintext : bytes) (contentType : option ContentType).

(** [{ type: 'complete' } | { type: 'zk', redactedPlaintext }] *)
Inductive Reveal :=
  | Complete
  | ZK (redactedPlaintext : bytes).

(** [CompleteTLSPacket]; the optional [reveal] property is an [option]. *)
Record CompleteTLSPacket := mkCompletePacket {
  packet : TLSPacket;
  ctx : TLSPacketContext;
  sender : TranscriptMessageSenderType;
  index : Z;
  reveal : option Reveal;
}.

Definition setReveal (r : option Reveal) (p : CompleteTLSPacket) : CompleteTLSPacket :=
  mkCompletePacket (packet p) (ctx p) (sender p) (index p) r.

Definition setIndex (i : Z) (p : CompleteTLSPacket) : CompleteTLSPacket :=
  mkCompletePacket (packet p) (ctx p) (sender p) i (reveal p).

(** [ArraySlice] *)
Record ArraySlice := mkSlice { fromIndex : Z; toIndex : Z }.

Inductive WriteRedactionMode := KeyUpdate | Zk.

(** [ServerAppDataPacket]: [index] is a position in [allPackets]. *)
Record ServerAppDataPacket := mkServerBlock { blockPlaintext : bytes; blockIndex : nat }.

(** One element of the list [getBlocksToReveal] returns. *)
Record SliceWithReveal := mkSliceWithReveal {
  block : ServerAppDataPacket;
  redactedPlaintext : bytes;
}.

(** [ReturnType<typeof getBlocksToReveal>]: ['all'] or a list. *)
Inductive BlocksToReveal :=
  | RevealAll
  | RevealBlocks (blocks : list SliceWithReveal).

(** [{ message: { recordHeader, content }, index }] from the pull stream. *)
Record PullFromSessionResponse := mkPull {
  pullMessage : option TLSPacket;      (* message *)
  pullIndex : Z;                       (* index *)
}.

(** How the pull stream stops: it is closed, or iterating it throws. *)
Inductive StreamEnd :=
  | StreamClosed
  | StreamFailed (e : JsError).

(** ** The TLS engine and the relay, as capabilities

    Modelled from the spec: the engine (package @reclaimprotocol/tls) and
    the witness behind [client] are not among the sources.  Section 6 of the
    specification lists the calls that the client makes, and what the client
    relies on is collected here; everything cryptographic stays a
    parameter.

    Of the engine: [write(bytes)] refuses with "Handshake not done" until
    the handshake is done; then it cuts the bytes into pieces of at most
    [MAX_ENC_PACKET_SIZE] bytes (16380 in the package; a TLS record cannot
    carry more than 2^14), encrypts one record for each piece and hands each
    to the [write] callback, so an empty buffer gives no record at all.
    [updateTrafficKeys()] writes the one handshake record that announces
    the rotation, under the keys in use, and then rotates.
    [handleReceivedPacket] either rejects a record or reports it once
    through [onRead] and then reacts; [end(error?)] ends the session and
    writes nothing.

    Of the relay: each call is answered in turn, with a value or with an
    error; the answers are a parameter, so they can be any. *)

(** State of the engine that the client can observe. *)
Record TLSState := mkTLS {
  tlsVersion : option TLSVersion;        (* getMetadata().version *)
  handshakeDone : bool;                  (* isHandshakeDone() *)
  trafficKeyUpdates : nat;               (* rotations done by updateTrafficKeys() *)
  recordsSealed : nat;                   (* records encrypted so far *)
  endCalls : list (option JsError);      (* every end(error?) so far, oldest first *)
}.

(** What the engine does with one record received from the server. *)
Record Received := mkReceived {
  rxThrows : option JsError;             (* handleReceivedPacket rejects the record *)
  rxCtx : TLSPacketContext;              (* context handed to onRead *)
  rxVersion : option TLSVersion;         (* version known after this record *)
  rxWrites : list (TLSPacket * TLSPacketContext);  (* records written in reaction *)
  rxHandshake : bool;                    (* the handshake completes: onHandshake() *)
}.

Class Capabilities := {
  (** the record layer: header and ciphertext of a record *)
  seal : TLSState -> ContentType -> bytes -> TLSPacket;
  (** the most bytes that write(bytes) puts in one record *)
  MAX_ENC_PACKET_SIZE : positive;
  (** the handshake message by which updateTrafficKeys() announces a rotation *)
  keyUpdateMessage : bytes;
  (** records written by startHandshake() *)
  clientHello : list (TLSPacket * TLSPacketContext);
  (** reaction of the engine to a record of the given type *)
  receive : TLSState -> byte -> TLSPacket -> Received;
  (** answer of the relay to initialiseSession: the session id *)
  initialiseReply : JsError + string;
  (** answer of the relay to the n-th pushToSession of the session *)
  pushReply : nat -> JsError + Z;
  (** answer of the relay to the n-th cancelSession of the session *)
  cancelReply : nat -> option JsError;
  (** reveal material and the attestation; both opaque *)
  RevealBlock : Type;
  Attestation : Type;
  preparePacketsForReveal : list CompleteTLSPacket -> Completion (list RevealBlock);
  finaliseReply : list RevealBlock -> JsError + Attestation;
  (** the filler byte of a redaction *)
  REDACTION_CHAR_CODE : byte;
  (** the blanked view of a matched block: the slices, the offset of the
      block in the concatenated plaintext, the plaintext of the block *)
  redactedView : list ArraySlice -> Z -> bytes -> bytes;
}.

(** ** makeAPITLSClient: the closure *)

(** [ReturnType<typeof tls.getMetadata>], of which the client reads the
    version. *)
Record Metadata := mkMetadata { version : option TLSVersion }.

(** The variables captured by the functions of [makeAPITLSClient].  The
    variable [metadata] is declared without a value and assigned by
    [onHandshake]: [metadataAssigned] tells whether it still is undefined,
    and [metadata] is what it holds once it is not.  The engine state, the
    number of relay calls made so far and whether the pull loop is waiting
    for the stream are carried along with them. *)
Record APITLSClient := mkClient {
  sessionId : option string;
  pullFromSessionAbort : option bool;    (* the AbortController: was abort() called *)
  metadata : Metadata;
  metadataAssigned : bool;
  defaultWriteRedactionMode : WriteRedactionMode;
  redactResponse : option (bytes -> list ArraySlice);
  allPackets : list CompleteTLSPacket;
  tls : TLSState;
  pushCalls : nat;
  cancelCalls : nat;
  listening : bool;                      (* the for-await of listenToDataFromServer is waiting *)
}.

Definition withSessionId (v : option string) (s : APITLSClient) : APITLSClient :=
  mkClient v (pullFromSessionAbort s) (metadata s) (metadataAssigned s)
    (defaultWriteRedactionMode s) (redactResponse s) (allPackets s) (tls s)
    (pushCalls s) (cancelCalls s) (listening s).
Definition withAbort (v : option bool) (s : APITLSClient) : APITLSClient :=
  mkClient (sessionId s) v (metadata s) (metadataAssigned s)
    (defaultWriteRedactionMode s) (redactResponse s) (allPackets s) (tls s)
    (pushCalls s) (cancelCalls s) (listening s).
Definition withMetadata (v : Metadata) (s : APITLSClient) : APITLSClient :=
  mkClient (sessionId s) (pullFromSessionAbort s) v (metadataAssigned s)
    (defaultWriteRedactionMode s) (redactResponse s) (allPackets s) (tls s)
    (pushCalls s) (cancelCalls s) (listening s).
Definition withMetadataAssigned (v : bool) (s : APITLSClient) : APITLSClient :=
  mkClient (sessionId s) (pullFromSessionAbort s) (metadata s) v
    (defaultWriteRedactionMode s) (redactResponse s) (allPackets s) (tls s)
    (pushCalls s) (cancelCalls s) (listening s).
Definition withMode (v : WriteRedactionMode) (s : APITLSClient) : APITLSClient :=
  mkClient (sessionId s) (pullFromSessionAbort s) (metadata s) (metadataAssigned s)
    v (redactResponse s) (allPackets s) (tls s)
    (pushCalls s) (cancelCalls s) (listening s).
Definition withPackets (v : list CompleteTLSPacket) (s : APITLSClient) : APITLSClient :=
  mkClient (sessionId s) (pullFromSessionAbort s) (metadata s) (metadataAssigned s)
    (defaultWriteRedactionMode s) (redactResponse s) v (tls s)
    (pushCalls s) (cancelCalls s) (listening s).
Definition withTls (v : TLSState) (s : APITLSClient) : APITLSClient :=
  mkClient (sessionId s) (pullFromSessionAbort s) (metadata s) (metadataAssigned s)
    (defaultWriteRedactionMode s) (redactResponse s) (allPackets s) v
    (pushCalls s) (cancelCalls s) (listening s).
Definition withPushCalls (v : nat) (s : APITLSClient) : APITLSClient :=
  mkClient (sessionId s) (pullFromSessionAbort s) (metadata s) (metadataAssigned s)
    (defaultWriteRedactionMode s) (redactResponse s) (allPackets s) (tls s)
    v (cancelCalls s) (listening s).
Definition withCancelCalls (v : nat) (s : APITLSClient) : APITLSClient :=
  mkClient (sessionId s) (pullFromSessionAbort s) (metadata s) (metadataAssigned s)
    (defaultWriteRedactionMode s) (redactResponse s) (allPackets s) (tls s)
    (pushCalls s) v (listening s).
Definition withListening (v : bool) (s : APITLSClient) : APITLSClient :=
  mkClient (sessionId s) (pullFromSessionAbort s) (metadata s) (metadataAssigned s)
    (defaultWriteRedactionMode s) (redactResponse s) (allPackets s) (tls s)
    (pushCalls s) (cancelCalls s) v.

(** The closure right after [makeAPITLSClient(opts)]: nothing initialised,
    an empty transcript. *)
Definition makeAPITLSClient (mode : WriteRedactionMode)
    (redact : option (bytes -> list ArraySlice)) : APITLSClient :=
  mkClient None None (mkMetadata None) false mode redact []
    (mkTLS None false 0 0 []) 0 0 false.

Abbreviation Client := (Eff APITLSClient).

(** [!sessionId]: undefined and the empty string are both falsy. *)
Definition noSession (sid : option string) : bool :=
  match sid with
  | None => true
  | Some EmptyString => true
  | Some (String _ _) => false
  end.

(** [getLastBlock(sender)]: the position of the record found by the
    backward scan, if there is one. *)
Fixpoint getLastBlock (who : TranscriptMessageSenderType)
    (ps : list CompleteTLSPacket) : option nat :=
  match ps with
  | [] => None
  | p :: rest =>
      match getLastBlock who rest with
      | Some i => Some (S i)
      | None => if sender_eqb (sender p) who then Some 0%nat else None
      end
  end.

(** [getLastBlock(sender)!.field = ...]: assigning through [undefined]
    is a TypeError. *)
Definition updateLastBlock (who : TranscriptMessageSenderType)
    (f : CompleteTLSPacket -> CompleteTLSPacket) : Client unit :=
  fun s => match getLastBlock who (allPackets s) with
           | Some i => (Returned tt, withPackets (alter f i (allPackets s)) s)
           | None => (Thrown (mkError TypeError "Cannot set properties of undefined"), s)
           end.

(** [isApplicationData(packet)] *)
Definition isApplicationData (md : Metadata) (p : CompleteTLSPacket) : bool :=
  match ctx p with
  | CtxPlaintext => false
  | CtxCiphertext _ ct =>
      match ct with
      | Some APPLICATION_DATA => true
      | _ =>
          match header (packet p) with
          | b :: _ => Byte.eqb b WRAPPED_RECORD
          | [] => false
          end
          && match version md with Some TLS1_2 => true | _ => false end
      end
  end.

Section Client.
Context `{Capabilities}.

(** *** The callbacks given to [makeTLSClient] *)

(** [client.pushToSession(req)] *)
Definition pushToSession : Client Z :=
  fun s => let s' := withPushCalls (S (pushCalls s)) s in
           match pushReply (pushCalls s) with
           | inl e => (Thrown e, s')
           | inr i => (Returned i, s')
           end.

(** [write(packet, ctx)] *)
Definition onWrite (pkt : TLSPacket) (c : TLSPacketContext) : Client unit :=
  sid <- gets sessionId ;;
  if noSession sid then throw (Error "Too early to write")
  else
    res <- pushToSession ;;
    modify (fun s => withPackets
      (allPackets s ++ [mkCompletePacket pkt c TRANSCRIPT_MESSAGE_SENDER_TYPE_CLIENT res None]) s).

(** [onRead(packet, ctx)] *)
Definition onRead (pkt : TLSPacket) (c : TLSPacketContext) : Client unit :=
  modify (fun s => withPackets
    (allPackets s ++ [mkCompletePacket pkt c TRANSCRIPT_MESSAGE_SENDER_TYPE_SERVER (-1) None]) s).

(** [onHandshake()] *)
Definition onHandshake : Client unit :=
  modify (fun s => withMetadataAssigned true
                     (withMetadata (mkMetadata (tlsVersion (tls s))) s)) ;;
  md <- gets metadata ;;
  match version md with
  | Some TLS1_2 => modify (withMode Zk)
  | _ => ret tt
  end.

(** *** The engine

    The calls of the client into the engine, as the interface above has
    them. *)

Definition contentTypeByte (ct : ContentType) : byte :=
  match ct with
  | CHANGE_CIPHER_SPEC => x14
  | ALERT => x15
  | HANDSHAKE => x16
  | APPLICATION_DATA => x17
  end.

(** What is encrypted: in TLS1.3 the content type trails the data. *)
Definition wirePlaintext (v : option TLSVersion) (ct : ContentType) (data : bytes) : bytes :=
  match v with
  | Some TLS1_3 => data ++ [contentTypeByte ct]
  | _ => data
  end.

(** The engine encrypts one record, with the keys it has, and hands it to
    the [write] callback. *)
Definition writeRecord (ct : ContentType) (data : bytes) : Client unit :=
  t <- gets tls ;;
  modify (fun s => withTls (mkTLS (tlsVersion t) (handshakeDone t)
            (trafficKeyUpdates t) (S (recordsSealed t)) (endCalls t)) s) ;;
  onWrite (seal t ct data)
          (CtxCiphertext (wirePlaintext (tlsVersion t) ct data) (Some ct)).

(** The pieces into which the engine cuts what it is given to write: each
    has [chunkSize] bytes, the last one what is left; [fuel] bounds their
    number. *)
Fixpoint chunksOf (fuel chunkSize : nat) (arr : bytes) : list bytes :=
  match fuel, arr with
  | S fuel', _ :: _ => take chunkSize arr :: chunksOf fuel' chunkSize (drop chunkSize arr)
  | _, _ => []
  end.

Definition recordChunks (data : bytes) : list bytes :=
  chunksOf (length data) (Pos.to_nat MAX_ENC_PACKET_SIZE) data.

(** [tls.write(data)] *)
Definition tlsWrite (data : bytes) : Client unit :=
  t <- gets tls ;;
  if handshakeDone t
  then forEach (recordChunks data) (writeRecord APPLICATION_DATA)
  else throw (Error "Handshake not done").

(** [tls.updateTrafficKeys()] *)
Definition tlsUpdateTrafficKeys : Client unit :=
  writeRecord HANDSHAKE keyUpdateMessage ;;
  modify (fun s => let t := tls s in
            withTls (mkTLS (tlsVersion t) (handshakeDone t)
              (S (trafficKeyUpdates t)) (recordsSealed t) (endCalls t)) s).

(** [tls.end(error?)] *)
Definition tlsEnd (error : option JsError) : Client unit :=
  modify (fun s => let t := tls s in
            withTls (mkTLS (tlsVersion t) false
              (trafficKeyUpdates t) (recordsSealed t) (endCalls t ++ [error])) s).

(** [tls.startHandshake({ psk })] *)
Definition tlsStartHandshake : Client unit :=
  forEach clientHello (fun r => onWrite r.1 r.2).

(** What the engine does once it has reported the record it received:
    it learns the version, writes its answers, completes the handshake. *)
Definition tlsReact (r : Received) : Client unit :=
  modify (fun s => let t := tls s in
            withTls (mkTLS (rxVersion r) (handshakeDone t)
              (trafficKeyUpdates t) (recordsSealed t) (endCalls t)) s) ;;
  forEach (rxWrites r) (fun w => onWrite w.1 w.2) ;;
  if rxHandshake r then
    modify (fun s => let t := tls s in
              withTls (mkTLS (tlsVersion t) true
                (trafficKeyUpdates t) (recordsSealed t) (endCalls t)) s) ;;
    onHandshake
  else ret tt.

(** [tls.handleReceivedPacket(type, { header, content })] *)
Definition tlsHandleReceivedPacket (type : byte) (pkt : TLSPacket) : Client unit :=
  t <- gets tls ;;
  let r := receive t type pkt in
  match rxThrows r with
  | Some e => throw e
  | None => onRead pkt (rxCtx r) ;; tlsReact r
  end.

(** One iteration of the [for await] loop of [listenToDataFromServer]. *)
Definition pullStep (onReady : Client unit) (r : PullFromSessionResponse) : Client unit :=
  match pullMessage r with
  | None => onReady
  | Some m =>
      match header m with
      | [] => onReady
      | type :: _ =>
          tlsHandleReceivedPacket type m ;;
          updateLastBlock TRANSCRIPT_MESSAGE_SENDER_TYPE_SERVER (setIndex (pullIndex r))
      end
  end.

(** [listenToDataFromServer(result, onReady)]: the stream delivers
    [result] and then stops as [fin] says; with that the loop is no longer
    waiting for the stream. *)
Definition listenToDataFromServer (result : list PullFromSessionResponse)
    (fin : StreamEnd) (onReady : Client unit) : Client unit :=
  tryCatch
    (forEach result (pullStep onReady) ;;
     match fin with
     | StreamClosed => ret tt
     | StreamFailed e => throw e
     end ;;
     modify (withListening false))
    (fun error =>
       modify (withListening false) ;;
       if negb (includes (message error) "aborted")
       then tlsEnd (Some error) ;; throw error
       else ret tt) ;;
  tlsEnd None.

(** The error with which a stream that is aborted stops. *)
Definition abortError : JsError := Error "The operation has been aborted".

(** [pullFromSessionAbort?.abort()]: the signal of the controller was
    given to [pullFromSession], so a pull loop that is waiting for the
    stream gets the error of the abort from it, there and then. *)
Definition abortPull : Client unit :=
  s <- gets id ;;
  match pullFromSessionAbort s with
  | None => ret tt
  | Some aborted =>
      modify (withAbort (Some true)) ;;
      if listening s && negb aborted
      then tryCatch (listenToDataFromServer [] (StreamFailed abortError) (ret tt))
             (fun _ => ret tt)
      else ret tt
  end.

(** *** Helpers imported from ../utils *)

Definition inSlice (i : Z) (sl : ArraySlice) : bool :=
  (fromIndex sl <=? i) && (i <? toIndex sl).

(** Modelled from the spec: [redactSlices] is imported from ../utils, which
    is not among the sources.  Section 4.3 has "[redacted] blanks every
    RedactedSlice" and scenario B has the range "replaced by same-length
    filler": every byte at a position inside a slice becomes the filler,
    the others and the length stay. *)
Definition redactSlices (total : bytes) (slices : list ArraySlice) : bytes :=
  imap (fun i b => if existsb (inSlice (Z.of_nat i)) slices
                   then REDACTION_CHAR_CODE else b) total.

(** Modelled from the spec: a block is matched (section 4.3, "only matched
    blocks") when a slice covers at least one byte of it; the block starts
    at [offset] in the concatenated plaintext. *)
Definition blockMatched (slices : list ArraySlice) (offset len : Z) : bool :=
  existsb (fun sl => Z.max (fromIndex sl) offset <? Z.min (toIndex sl) (offset + len)) slices.

(** Modelled from the spec: the matched blocks, each with its blanked
    view. *)
Fixpoint matchedBlocks (slices : list ArraySlice) (offset : Z)
    (blocks : list ServerAppDataPacket) : list SliceWithReveal :=
  match blocks with
  | [] => []
  | b :: rest =>
      let len := Z.of_nat (length (blockPlaintext b)) in
      (if blockMatched slices offset len
       then [mkSliceWithReveal b (redactedView slices offset (blockPlaintext b))]
       else [])
      ++ matchedBlocks slices (offset + len) rest
  end.

(** Modelled from the spec: [getBlocksToReveal] is imported from ../utils,
    which is not among the sources.  Section 4.3: the response-redaction
    function "maps captured application-data plaintext to ... slices.
    Function supplied -> only matched blocks receive ZK(redacted);
    unmatched blocks receive no decision".  The function is applied once,
    to the plaintext of all blocks in order; the blocks that a returned
    slice reaches are returned, each with its blanked view. *)
Definition getBlocksToReveal (blocks : list ServerAppDataPacket)
    (redact : bytes -> list ArraySlice) : BlocksToReveal :=
  RevealBlocks (matchedBlocks (redact (concat (map blockPlaintext blocks))) 0 blocks).

(** *** The returned API *)

(** [res = await client.initialiseSession(...); sessionId = res.sessionId;
    pullFromSessionAbort = new AbortController()] and the start of the pull
    loop, [evPromise = listenToDataFromServer(pullResult, ...)]: [connect()]
    up to where it waits for the handshake. *)
Definition initialise : Client unit :=
  match initialiseReply with
  | inl e => throw e
  | inr sid =>
      modify (fun s => withListening true (withAbort (Some false) (withSessionId (Some sid) s)))
  end.

(** [client.cancelSession({ sessionId })] *)
Definition cancelSession : Client unit :=
  fun s => let s' := withCancelCalls (S (cancelCalls s)) s in
           match cancelReply (cancelCalls s) with
           | Some e => (Thrown e, s')
           | None => (Returned tt, s')
           end.

Definition cancel : Client unit :=
  sid <- gets sessionId ;;
  if noSession sid then throw (Error "Nothing to cancel")
  else
    abortPull ;;
    cancelSession ;;
    tlsEnd None.

(** The loop of [finish] that collects [serverBlocks]; [i] is the position
    of the head of [ps] in [allPackets]. *)
Fixpoint serverBlocksFrom (md : Metadata) (i : nat)
    (ps : list CompleteTLSPacket) : list ServerAppDataPacket :=
  match ps with
  | [] => []
  | b :: rest =>
      match sender b, ctx b with
      | TRANSCRIPT_MESSAGE_SENDER_TYPE_SERVER, CtxCiphertext pt _ =>
          if isApplicationData md b
          then [mkServerBlock (match version md with
                               | Some TLS1_3 => slice pt 0 (-1)
                               | _ => pt
                               end) i]
          else []
      | _, _ => []
      end ++ serverBlocksFrom md (S i) rest
  end.

(** "reveal all server side blocks" *)
Definition revealAllServer (ps : list CompleteTLSPacket) : list CompleteTLSPacket :=
  map (fun p => match sender p with
                | TRANSCRIPT_MESSAGE_SENDER_TYPE_SERVER => setReveal (Some Complete) p
                | TRANSCRIPT_MESSAGE_SENDER_TYPE_CLIENT => p
                end) ps.

(** [allPackets[i].reveal = r]; past the end [allPackets[i]] is undefined. *)
Definition setRevealAt (i : nat) (r : Reveal) : Client unit :=
  fun s => if decide (i < length (allPackets s))%nat
           then (Returned tt, withPackets (alter (setReveal (Some r)) i (allPackets s)) s)
           else (Thrown (mkError TypeError "Cannot set properties of undefined"), s).

(** "reveal all client side handshake blocks": the loop over [allPackets]
    with its two [continue]s and its [break]. *)
Fixpoint revealClientHandshake (mode : WriteRedactionMode) (md : Metadata)
    (ps : list CompleteTLSPacket) : list CompleteTLSPacket :=
  match ps with
  | [] => []
  | p :: rest =>
      match sender p, ctx p with
      | TRANSCRIPT_MESSAGE_SENDER_TYPE_SERVER, _ => p :: revealClientHandshake mode md rest
      | _, CtxPlaintext => p :: revealClientHandshake mode md rest
      | _, CtxCiphertext pt _ =>
          if isApplicationData md p then p :: rest
          else setReveal (Some (match mode with
                                | Zk => ZK pt
                                | KeyUpdate => Complete
                                end)) p
               :: revealClientHandshake mode md rest
      end
  end.

(** [client.finaliseSession({ sessionId, revealBlocks })] *)
Definition finaliseSession (revealBlocks : list RevealBlock) : Client Attestation :=
  match finaliseReply revealBlocks with
  | inl e => throw e
  | inr a => ret a
  end.

Definition finish : Client Attestation :=
  sid <- gets sessionId ;;
  if noSession sid then throw (Error "Nothing to cancel")
  else
    s <- gets id ;;
    let serverPacketsToReveal :=
      match redactResponse s with
      | Some redact => getBlocksToReveal (serverBlocksFrom (metadata s) 0 (allPackets s)) redact
      | None => RevealAll
      end in
    match serverPacketsToReveal with
    | RevealAll => modify (fun s => withPackets (revealAllServer (allPackets s)) s)
    | RevealBlocks l =>
        forEach l (fun x => setRevealAt (blockIndex (block x)) (ZK (redactedPlaintext x)))
    end ;;
    modify (fun s => withPackets
      (revealClientHandshake (defaultWriteRedactionMode s) (metadata s) (allPackets s)) s) ;;
    ps <- gets allPackets ;;
    assigned <- gets metadataAssigned ;;
    (if assigned then ret tt
     else throw (mkError TypeError
                   "Cannot read properties of undefined (reading 'cipherSuite')")) ;;
    revealBlocks <- (fun s => (preparePacketsForReveal ps, s)) ;;
    result <- finaliseSession revealBlocks ;;
    tlsEnd None ;;
    abortPull ;;
    ret result.

Definition writeWithReveal (data : bytes) (toReveal : bool) : Client unit :=
  (if toReveal then ret tt else tlsUpdateTrafficKeys) ;;
  tlsWrite data ;;
  updateLastBlock TRANSCRIPT_MESSAGE_SENDER_TYPE_CLIENT
    (setReveal (if toReveal then Some Complete else None)) ;;
  (if toReveal then ret tt else tlsUpdateTrafficKeys).

(** The [for] loop of [writeRedactedWithKeyUpdate], from [currentIndex]. *)
Fixpoint writeSections (data : bytes) (redactedSections : list ArraySlice)
    (currentIndex : Z) : Client unit :=
  match redactedSections with
  | [] => ret tt
  | section :: rest =>
      let block := slice data currentIndex (fromIndex section) in
      (if nonEmpty block then writeWithReveal block true else ret tt) ;;
      let redacted := slice data (fromIndex section) (toIndex section) in
      writeWithReveal redacted false ;;
      writeSections data rest (toIndex section)
  end.

(** [redactedSections?.[redactedSections.length - 1]?.toIndex || 0] *)
Definition lastBlockStart (redactedSections : list ArraySlice) : Z :=
  match last redactedSections with
  | Some section => toIndex section
  | None => 0
  end.

Definition writeRedactedWithKeyUpdate (data : bytes)
    (redactedSections : list ArraySlice) : Client unit :=
  writeSections data redactedSections 0 ;;
  let block := sliceFrom data (lastBlockStart redactedSections) in
  if nonEmpty block then writeWithReveal block true else ret tt.

Definition writeRedactedZk (data : bytes)
    (redactedSections : list ArraySlice) : Client unit :=
  tlsWrite data ;;
  updateLastBlock TRANSCRIPT_MESSAGE_SENDER_TYPE_CLIENT
    (setReveal (Some (ZK (redactSlices data redactedSections)))).

Definition write (data : bytes) (redactedSections : list ArraySlice) : Client unit :=
  mode <- gets defaultWriteRedactionMode ;;
  match mode with
  | KeyUpdate => writeRedactedWithKeyUpdate data redactedSections
  | Zk => writeRedactedZk data redactedSections
  end.

End Client.

(** ** A session as a sequence of events

    Under the cooperative scheduling of the client, the transcript is
    touched by whole iterations of the pull loop and by whole calls of
    [write], one after the other. *)
Inductive SessionEvent :=
  | Pulled (r : PullFromSessionResponse)
  | Wrote (data : bytes) (redactedSections : list ArraySlice).

Section Session.
Context `{Capabilities}.

Definition sessionStep (e : SessionEvent) : Client unit :=
  match e with
  | Pulled r => pullStep tlsStartHandshake r
  | Wrote data redactedSections => write data redactedSections
  end.

Definition session (events : list SessionEvent) : Client unit :=
  forEach events sessionStep.

End Session.



(** ** generateProviderReceipt *)

Inductive ProofGenerationStep :=
  | StepConnecting
  | StepSendingRequestData
  | StepWaitingForResponse
  | StepGeneratingZkProofs (proofsDone proofsTotal : nat)
  | StepWaitingForVerification.

(** What [generateProviderReceipt] calls, over whatever state [W] these
    collaborators keep: the API client, the promise [waitForAllData] that
    [endedHttpRequest] settles, and the progress callback. *)
Record ProviderSession (W Blocks Receipt : Type) := mkProviderSession {
  apiConnect : Eff W unit;
  apiWrite : Eff W unit;                 (* apiClient.write(reqData, request.redactions) *)
  waitForAllData : Eff W unit;
  apiEndTlsSession : Eff W unit;
  apiGetBlocksToReveal : Eff W Blocks;
  apiFinish : Blocks -> Eff W Receipt;
  onStep : ProofGenerationStep -> W -> W;
}.
Arguments apiConnect {W Blocks Receipt}.
Arguments apiWrite {W Blocks Receipt}.
Arguments waitForAllData {W Blocks Receipt}.
Arguments apiEndTlsSession {W Blocks Receipt}.
Arguments apiGetBlocksToReveal {W Blocks Receipt}.
Arguments apiFinish {W Blocks Receipt}.
Arguments onStep {W Blocks Receipt}.

(** The test of the [catch] around [apiClient.write]. *)
Definition sessionClosedDuringWrite (err : JsError) : bool :=
  match errClass err with
  | ClientError code =>
      Status_eqb code FAILED_PRECONDITION && includes (message err) "session is closed"
  | _ => false
  end.

Definition generateProviderReceipt {W Blocks Receipt}
    (p : ProviderSession W Blocks Receipt) : Eff W Receipt :=
  modify (onStep p StepConnecting) ;;
  apiConnect p ;;
  modify (onStep p StepSendingRequestData) ;;
  tryCatch (apiWrite p)
    (fun err => if sessionClosedDuringWrite err then ret tt else throw err) ;;
  modify (onStep p StepWaitingForResponse) ;;
  waitForAllData p ;;
  apiEndTlsSession p ;;
  blocksToReveal <- apiGetBlocksToReveal p ;;
  modify (onStep p StepWaitingForVerification) ;;
  res <- apiFinish p blocksToReveal ;;
  ret res.

(** ** Vocabulary of the statements *)

Definition isClient (p : CompleteTLSPacket) : bool :=
  sender_eqb (sender p) TRANSCRIPT_MESSAGE_SENDER_TYPE_CLIENT.


Definition clientRecords (ps : list CompleteTLSPacket) : list CompleteTLSPacket :=
  List.filter isClient ps.


(** A record produced by [tls.write]: encrypted application data. *)
Definition carriesData (p : CompleteTLSPacket) : bool :=
  match ctx p with
  | CtxCiphertext _ (Some APPLICATION_DATA) => true
  | _ => false
  end.

(** What stays of a record once it is in the transcript: [index] and
    [reveal] are assigned later, the rest never changes. *)
Definition skeleton (p : CompleteTLSPacket)
    : TLSPacket * TLSPacketContext * TranscriptMessageSenderType :=
  (packet p, ctx p, sender p).

(** RedactedSlices that are ranges, ascending and disjoint, from [lo] on. *)
Fixpoint ascendingFrom (lo : Z) (slices : list ArraySlice) : Prop :=
  match slices with
  | [] => True
  | sl :: rest =>
      lo <= fromIndex sl /\ fromIndex sl <= toIndex sl /\ ascendingFrom (toIndex sl) rest
  end.

Definition disjointAscending (slices : list ArraySlice) : Prop :=
  ascendingFrom 0 slices.

(** The spans of section 4.3, in the words of the specification: the buffer
    is split at the slices into alternating spans, a disclosed span before
    each slice where there are bytes for one, the slice itself, and what
    remains after the last slice. *)
Record Span := mkSpan { spanFrom : Z; spanTo : Z; disclosed : bool }.

Definition disclosedSpan (len a b : Z) : list Span :=
  if Z.min a len <? Z.min b len then [mkSpan a b true] else [].

Fixpoint alternatingSpans (len cursor : Z) (slices : list ArraySlice) : list Span :=
  match slices with
  | [] => disclosedSpan len cursor len
  | sl :: rest =>
      disclosedSpan len cursor (fromIndex sl)
      ++ mkSpan (fromIndex sl) (toIndex sl) false
      :: alternatingSpans len (toIndex sl) rest
  end.

(** The bytes of the buffer in a span. *)
Definition spanBytes (data : bytes) (sp : Span) : bytes :=
  slice data (spanFrom sp) (spanTo sp).

(** What is expected of a record that the client has written: the content
    type and the bytes that the engine was given for it, the number of key
    rotations done before it was encrypted, and its reveal decision. *)
Record RecordShape := mkShape {
  shapeType : ContentType;
  shapeData : bytes;
  shapeKeys : nat;
  shapeReveal : option Reveal;
}.

(** The records of one [tls.write] that is given bytes which the engine
    cuts into [chunks], once the last record written has been given the
    decision [mark]: only the last record has it. *)
Fixpoint blockShapes (keys : nat) (mark : option Reveal) (chunks : list bytes)
    : list RecordShape :=
  match chunks with
  | [] => []
  | [chunk] => [mkShape APPLICATION_DATA chunk keys mark]
  | chunk :: rest =>
      mkShape APPLICATION_DATA chunk keys None :: blockShapes keys mark rest
  end.

(** Two transcripts that differ at most in the reveal decision of records
    sent by [who]. *)
Definition revealOnly (who : TranscriptMessageSenderType)
    (ps qs : list CompleteTLSPacket) : Prop :=
  Forall2 (fun p q => q = p \/ (sender p = who /\ exists r, q = setReveal r p)) ps qs.

Section Marks.
Context `{Capabilities}.

(** The transcript after the [else] branch of [finish] has gone through the
    list that [getBlocksToReveal] returned for the slices [slices]:
    [offset] is where the next server application-data block starts in the
    concatenated plaintext. *)
Fixpoint redactServer (md : Metadata) (slices : list ArraySlice) (offset : Z)
    (ps : list CompleteTLSPacket) : list CompleteTLSPacket :=
  match ps with
  | [] => []
  | b :: rest =>
      match serverBlocksFrom md 0 [b] with
      | blk :: _ =>
          let len := Z.of_nat (length (blockPlaintext blk)) in
          (if blockMatched slices offset len
           then setReveal (Some (ZK (redactedView slices offset (blockPlaintext blk)))) b
           else b)
          :: redactServer md slices (offset + len) rest
      | [] => b :: redactServer md slices offset rest
      end
  end.

(** The decisions of [finish], as a function of the transcript. *)
Definition finishMarks (s : APITLSClient) : list CompleteTLSPacket :=
  revealClientHandshake (defaultWriteRedactionMode s) (metadata s)
    match redactResponse s with
    | Some redact =>
        redactServer (metadata s)
          (redact (concat (map blockPlaintext
                     (serverBlocksFrom (metadata s) 0 (allPackets s)))))
          0 (allPackets s)
    | None => revealAllServer (allPackets s)
    end.

End Marks.

Section Shapes.
Context `{Capabilities}.

(** The record [r] of the transcript is what [sh] expects, in a session of
    the version [v]: a record of the client, encrypted by the engine from
    these bytes after so many rotations, with this decision. *)
Definition hasShape (v : option TLSVersion) (sh : RecordShape) (r : CompleteTLSPacket)
    : Prop :=
  sender r = TRANSCRIPT_MESSAGE_SENDER_TYPE_CLIENT
  /\ ctx r = CtxCiphertext (wirePlaintext v (shapeType sh) (shapeData sh))
               (Some (shapeType sh))
  /\ reveal r = shapeReveal sh
  /\ exists t, packet r = seal t (shapeType sh) (shapeData sh)
               /\ tlsVersion t = v /\ trafficKeyUpdates t = shapeKeys sh.

(** The record that announces a rotation. *)
Definition keyUpdateShape (keys : nat) : RecordShape :=
  mkShape HANDSHAKE keyUpdateMessage keys None.

(** The records of a span, in the words of section 4.3, when [keys]
    rotations have been done: a disclosed span is written and marked
    Complete; before a secret span the keys are rotated, the span is
    written with no decision, and the keys are rotated again.  The engine
    cuts a span into its records. *)
Definition spanShapes (data : bytes) (keys : nat) (sp : Span) : list RecordShape :=
  let chunks := recordChunks (spanBytes data sp) in
  if disclosed sp then blockShapes keys (Some Complete) chunks
  else keyUpdateShape keys :: blockShapes (S keys) None chunks ++ [keyUpdateShape (S keys)].

Fixpoint spansShapes (data : bytes) (keys : nat) (spans : list Span) : list RecordShape :=
  match spans with
  | [] => []
  | sp :: rest =>
      spanShapes data keys sp
      ++ spansShapes data (if disclosed sp then keys else S (S keys)) rest
  end.

(** A session in which [write] can send: it is initialised and the
    handshake is done. *)
Definition ready (s : APITLSClient) : Prop :=
  noSession (sessionId s) = false /\ handshakeDone (tls s) = true.

(** A relay that accepts every push. *)
Definition relayAccepts : Prop := forall n, exists i, pushReply n = inr i.

(** From [s] to the outcome [o] the transcript has grown by records of
    these shapes: by all that are [expected], with [rotations] rotations
    done, when [o] is a return, and by the first few of them when it is a
    throw; and [o] is a return when the session is ready and the relay
    accepts every push. *)
Definition wrote (s : APITLSClient) (o : Completion unit * APITLSClient)
    (expected : list RecordShape) (rotations : nat) : Prop :=
  tlsVersion (tls o.2) = tlsVersion (tls s)
  /\ (exists written recs,
       allPackets o.2 = allPackets s ++ recs
       /\ Forall2 (hasShape (tlsVersion (tls s))) written recs
       /\ match o.1 with
          | Returned _ =>
              written = expected
              /\ trafficKeyUpdates (tls o.2) = (trafficKeyUpdates (tls s) + rotations)%nat
          | Thrown _ => written `prefix_of` expected
          end)
  /\ (relayAccepts -> ready s -> o.1 = Returned tt /\ ready o.2).

(** [m] writes the records that [expected] gives for the number of
    rotations done so far. *)
Definition writesShapes (m : Client unit) (expected : nat -> list RecordShape)
    (rotations : nat) : Prop :=
  forall s, wrote s (m s) (expected (trafficKeyUpdates (tls s))) rotations.

(** The plaintext of a record of the server as the response redaction sees
    it, if it sees it: that of an encrypted record of application data,
    without its last byte under TLS1.3. *)
Definition responseBlock (md : Metadata) (p : CompleteTLSPacket) : option bytes :=
  match sender p, ctx p with
  | TRANSCRIPT_MESSAGE_SENDER_TYPE_SERVER, CtxCiphertext pt _ =>
      if isApplicationData md p
      then Some match version md with
                | Some TLS1_3 => take (length pt - 1) pt
                | _ => pt
                end
      else None
  | _, _ => None
  end.

(** The response that the redaction function is given. *)
Definition responsePlaintext (md : Metadata) (ps : list CompleteTLSPacket) : bytes :=
  concat (omap (responseBlock md) ps).

End Shapes.

(** The request of scenario B, and where its secret lies. *)
Definition crlf : string :=
  String (Ascii.ascii_of_nat 13) (String (Ascii.ascii_of_nat 10) EmptyString).

Definition scenarioRequest : string :=
  String.append "GET /x HTTP/1.1"
    (String.append crlf (String.append "Authorization: secret123" (String.append crlf crlf))).

Definition scenarioSecret : ArraySlice := mkSlice 32 41.

(** No server record carries a reveal decision. *)
Definition serverUndecided (s : APITLSClient) : Prop :=
  Forall (fun p => sender p = TRANSCRIPT_MESSAGE_SENDER_TYPE_SERVER -> reveal p = None)
    (allPackets s).

(** ** Reasoning about effects *)

(** [m], started where [P] holds, stops where [Q] holds; [Q] also sees how
    [m] completed. *)
Definition triple {S A} (P : S -> Prop) (m : Eff S A)
    (Q : Completion A -> S -> Prop) : Prop :=
  forall s, P s -> Q (m s).1 (m s).2.

(** [P] holds after [m], however [m] completes. *)
Definition preserves {S A} (P : S -> Prop) (m : Eff S A) : Prop :=
  triple P m (fun _ => P).

(** [Q] holds after [m] when [m] returns. *)
Definition onReturn {S A} (Q : S -> Prop) : Completion A -> S -> Prop :=
  fun o s => match o with Returned _ => Q s | Thrown _ => True end.

(** ** Invariants of the transcript

    Every invariant below speaks about the transcript and the number of
    pushes only.  It is enough to check such a property on the four places
    where the client touches the transcript; the engine and the API then
    keep it. *)

Definition lift (Q : list CompleteTLSPacket -> nat -> Prop) : APITLSClient -> Prop :=
  fun s => Q (allPackets s) (pushCalls s).



Section Stability.
Context `{Capabilities}.
Implicit Types Q : list CompleteTLSPacket -> nat -> Prop.

(** [Q] survives a push, accepted or not. *)
Definition pushStable Q : Prop :=
  forall ps n pkt c, Q ps n ->
    match pushReply n with
    | inl _ => Q ps (S n)
    | inr i => Q (ps ++ [mkCompletePacket pkt c TRANSCRIPT_MESSAGE_SENDER_TYPE_CLIENT i None]) (S n)
    end.

(** [Q] survives the decision taken for the last client record. *)
Definition revealStable Q : Prop :=
  forall ps n i r, Q ps n -> getLastBlock TRANSCRIPT_MESSAGE_SENDER_TYPE_CLIENT ps = Some i ->
    Q (alter (setReveal r) i ps) n.

(** [onRead] takes [Q] to [Q']. *)
Definition readTakes Q Q' : Prop :=
  forall ps n pkt c, Q ps n ->
    Q' (ps ++ [mkCompletePacket pkt c TRANSCRIPT_MESSAGE_SENDER_TYPE_SERVER (-1) None]) n.

(** The index given to the last server record takes [Q] to [Q']. *)
Definition indexTakes (j : Z) Q Q' : Prop :=
  forall ps n i, Q ps n -> getLastBlock TRANSCRIPT_MESSAGE_SENDER_TYPE_SERVER ps = Some i ->
    Q' (alter (setIndex j) i ps) n.


End Stability.




(** [new Error('Nothing to cancel')]: what [cancel] and [finish] throw when
    there is no session, the InvalidState of the specification. *)
Definition InvalidState : JsError := Error "Nothing to cancel".

(** What follows [await waitForAllData] in [generateProviderReceipt]. *)
Definition afterAllData {W Blocks Receipt}
    (p : ProviderSession W Blocks Receipt) : Eff W Receipt :=
  apiEndTlsSession p ;;
  blocksToReveal <- apiGetBlocksToReveal p ;;
  modify (onStep p StepWaitingForVerification) ;;
  res <- apiFinish p blocksToReveal ;;
  ret res.

(** ** A session to run

    An engine without cryptography, in the framing of TLS1.3: the
    ciphertext of a record is its plaintext, whose last byte is the content
    type; one handshake record of the server completes the handshake and is
    answered by one of the client.  The relay numbers the pushes 0, 2, 4,
    and so on; how it answers [cancelSession] is left open. *)

Definition demoContentType (pt : bytes) : option ContentType :=
  match last pt with
  | Some x14 => Some CHANGE_CIPHER_SPEC
  | Some x15 => Some ALERT
  | Some x16 => Some HANDSHAKE
  | Some x17 => Some APPLICATION_DATA
  | _ => None
  end.

Definition demoFinished : TLSPacket * TLSPacketContext :=
  (mkPacket [x17; x03; x03] [x14; x16], CtxCiphertext [x14; x16] (Some HANDSHAKE)).

Definition demoReceive (t : TLSState) (type : byte) (pkt : TLSPacket) : Received :=
  if Byte.eqb type WRAPPED_RECORD then
    match demoContentType (content pkt) with
    | Some HANDSHAKE =>
        mkReceived None (CtxCiphertext (content pkt) (Some HANDSHAKE)) (Some TLS1_3)
          [demoFinished] true
    | ct => mkReceived None (CtxCiphertext (content pkt) ct) (Some TLS1_3) [] false
    end
  else mkReceived None CtxPlaintext (Some TLS1_3) [] false.

Definition demoCapabilities (cancelAnswers : nat -> option JsError) : Capabilities := {|
  seal := fun t ct data => mkPacket [x17; x03; x03] (wirePlaintext (tlsVersion t) ct data);
  MAX_ENC_PACKET_SIZE := 16380;
  keyUpdateMessage := [x18; x00; x00; x01; x00];
  clientHello := [(mkPacket [x16; x03; x01] [x01], CtxPlaintext)];
  receive := demoReceive;
  initialiseReply := inr "session-1"%string;
  pushReply := fun n => inr (2 * Z.of_nat n);
  cancelReply := cancelAnswers;
  RevealBlock := CompleteTLSPacket;
  Attestation := nat;
  preparePacketsForReveal := fun ps =>
    Returned (List.filter (fun p => match reveal p with Some _ => true | None => false end) ps);
  finaliseReply := fun blocks => inr (length blocks);
  REDACTION_CHAR_CODE := "*"%byte;
  redactedView := fun slices offset pt =>
    imap (fun i b => if existsb (inSlice (offset + Z.of_nat i)) slices then "*"%byte else b) pt;
|}.

(** A relay that acknowledges every cancelSession. *)
Definition lenientRelay : Capabilities := demoCapabilities (fun _ => None).

(** A relay that forgets a session once it is cancelled. *)
Definition forgetfulRelay : Capabilities :=
  demoCapabilities (fun n => match n with
                             | O => None
                             | S _ => Some (mkError (ClientError NOT_FOUND) "session not found")
                             end).

(** The response redaction of the session: the first eight bytes. *)
Definition demoRedact (total : bytes) : list ArraySlice := [mkSlice 0 8].

(** The closure once [initialise] has returned. *)
Definition demoStart (mode : WriteRedactionMode)
    (redact : option (bytes -> list ArraySlice)) : APITLSClient :=
  (initialise (H := lenientRelay) (makeAPITLSClient mode redact)).2.

(** The readiness marker, the hello of the server, its encrypted handshake
    record. *)
Definition demoHandshake : list SessionEvent :=
  [ Pulled (mkPull (Some (mkPacket [] [])) 0);
    Pulled (mkPull (Some (mkPacket [x16; x03; x03] [x02])) 1);
    Pulled (mkPull (Some (mkPacket [x17; x03; x03] [x14; x16])) 3) ].

(** The handshake, the request of scenario B, a response in two records. *)
Definition demoEvents : list SessionEvent :=
  demoHandshake
  ++ [ Wrote (strToUint8Array scenarioRequest) [scenarioSecret];
       Pulled (mkPull (Some (mkPacket [x17; x03; x03]
                 (strToUint8Array "HTTP/1.1 200 OK" ++ [x17]))) 15);
       Pulled (mkPull (Some (mkPacket [x17; x03; x03]
                 (strToUint8Array "token=abc" ++ [x17]))) 16) ].

(** The closure once the handshake is done. *)
Definition demoReady (mode : WriteRedactionMode)
    (redact : option (bytes -> list ArraySlice)) : APITLSClient :=
  (session (H := lenientRelay) demoHandshake (demoStart mode redact)).2.

(** The closure after this session. *)
Definition demoDone (mode : WriteRedactionMode)
    (redact : option (bytes -> list ArraySlice)) : APITLSClient :=
  (session (H := lenientRelay) demoEvents (demoStart mode redact)).2.

(** A stream error that no abort of the caller has caused. *)
Definition demoStreamError : JsError :=
  mkError (ClientError UNAVAILABLE) "upstream connection aborted by peer".

(** The collaborators of [generateProviderReceipt] in a run where the relay
    has closed the session: the state is the list of the progress steps
    reported so far, latest first. *)
Definition demoProvider (writeError streamError : JsError)
    : ProviderSession (list ProofGenerationStep) unit nat :=
  mkProviderSession (list ProofGenerationStep) unit nat
    (ret tt) (throw writeError) (throw streamError) (ret tt) (ret tt)
    (fun _ => ret 0%nat) (fun step log => step :: log).

(** ** More vocabulary for the client *)

(** The session id, the transcript and the number of pushes are what they
    were. *)
Definition untouched (s s' : APITLSClient) : Prop :=
  sessionId s' = sessionId s /\ allPackets s' = allPackets s /\ pushCalls s' = pushCalls s.

(** An [abort()] of the pull stops the pull loop: there is a controller
    that has not been used, and the loop is waiting for the stream. *)
Definition pullLoopStops (s : APITLSClient) : bool :=
  match pullFromSessionAbort s with
  | Some aborted => listening s && negb aborted
  | None => false
  end.

(** The write mode is zk and the traffic keys have been rotated [n]
    times. *)
Definition zkWithRotations (n : nat) (s : APITLSClient) : Prop :=
  defaultWriteRedactionMode s = Zk /\ trafficKeyUpdates (tls s) = n.

(** The bytes that a record brings to the server: its plaintext without
    the content type that TLS1.3 appends, as [finish] strips it from the
    server blocks. *)
Definition payload (v : option TLSVersion) (p : CompleteTLSPacket) : bytes :=
  match ctx p with
  | CtxCiphertext pt _ =>
      match v with
      | Some TLS1_3 => slice pt 0 (-1)
      | _ => pt
      end
  | CtxPlaintext => []
  end.

(** A relay like the one above that acknowledges every cancelSession and
    rejects finaliseSession. *)
Definition rejectingRelay : Capabilities := {|
  seal := seal (Capabilities := lenientRelay);
  MAX_ENC_PACKET_SIZE := MAX_ENC_PACKET_SIZE (Capabilities := lenientRelay);
  keyUpdateMessage := keyUpdateMessage (Capabilities := lenientRelay);
  clientHello := clientHello (Capabilities := lenientRelay);
  receive := receive (Capabilities := lenientRelay);
  initialiseReply := initialiseReply (Capabilities := lenientRelay);
  pushReply := pushReply (Capabilities := lenientRelay);
  cancelReply := cancelReply (Capabilities := lenientRelay);
  RevealBlock := CompleteTLSPacket;
  Attestation := nat;
  preparePacketsForReveal := preparePacketsForReveal (Capabilities := lenientRelay);
  finaliseReply := fun _ => inl (mkError (ClientError INVALID_ARGUMENT) "proof rejected");
  REDACTION_CHAR_CODE := REDACTION_CHAR_CODE (Capabilities := lenientRelay);
  redactedView := redactedView (Capabilities := lenientRelay);
|}.


(** The closure after the handshake of a TLS1.2 session, before
    [onHandshake] has run. *)
Definition demoTls12 : APITLSClient :=
  withTls (mkTLS (Some TLS1_2) true 0 0 []) (demoStart KeyUpdate None).

(** ** The HTTP provider: positions in a chunked body

    Positions and indices are JavaScript numbers that hold integers: they
    are doubles, with 53 bits of precision.  The model has them as integers
    and rounds every sum and difference to the nearest integer that a double
    can hold, as JavaScript does; comparisons are exact.  A sum or a
    difference of safe integers, of a magnitude below 2^53, that is a safe
    integer itself is not rounded. *)

(** The double nearest to the integer [n], ties to the even significand:
    the result of an addition or subtraction whose exact result is [n].
    (Numbers past the largest double, near 2^1024, are not met here.) *)
Definition toDouble (n : Z) : Z :=
  let m := Z.abs n in
  let e := Z.log2 m - 52 in
  if e <=? 0 then n
  else
    let q := Z.shiftr m e in
    let r := m - Z.shiftl q e in
    let half := Z.shiftl 1 (e - 1) in
    let q' := if (half <? r) || ((r =? half) && Z.odd q) then q + 1 else q in
    Z.sgn n * Z.shiftl q' e.

(** The loop of [convertResponsePosToAbsolutePos] from some chunk on, with
    [chunkBodyStart] the number of body bytes in the chunks before it. *)
Fixpoint findInChunks (pos chunkBodyStart : Z) (chunks : list ArraySlice) : Completion Z :=
  match chunks with
  | [] => Thrown (Error "position out of range")
  | chunk :: rest =>
      let chunkSize := toDouble (toIndex chunk - fromIndex chunk) in
      if (chunkBodyStart <=? pos) && (pos <? toDouble (chunkBodyStart + chunkSize))
      then Returned (toDouble (toDouble (pos - chunkBodyStart) + fromIndex chunk))
      else findInChunks pos (toDouble (chunkBodyStart + chunkSize)) rest
  end.

(** [convertResponsePosToAbsolutePos(pos, bodyStartIdx, chunks?)];
    [chunks?.length] is falsy for a missing list and for an empty one. *)
Definition convertResponsePosToAbsolutePos (pos bodyStartIdx : Z)
    (chunks : option (list ArraySlice)) : Completion Z :=
  match chunks with
  | Some (chunk :: rest) => findInChunks pos 0 (chunk :: rest)
  | _ => Returned (toDouble (bodyStartIdx + pos))
  end.

(** The number of body bytes in a list of chunks. *)
Definition chunkSizes (chunks : list ArraySlice) : Z :=
  foldr (fun chunk total => toIndex chunk - fromIndex chunk + total) 0 chunks.

(** [Number.isSafeInteger] of a number that holds an integer. *)
Definition safeInteger (n : Z) : Prop := - 2 ^ 53 < n < 2 ^ 53.

(** Chunks that are ranges of positions in the transcript, with bounds
    that are safe integers; [start] body bytes come before them, and with
    their sizes this adds up to a safe integer: the loop of
    [convertResponsePosToAbsolutePos] then computes exactly. *)
Definition safeChunksFrom (start : Z) (chunks : list ArraySlice) : Prop :=
  0 <= start
  /\ Forall (fun chunk => 0 <= fromIndex chunk <= toIndex chunk /\ safeInteger (toIndex chunk))
       chunks
  /\ safeInteger (start + chunkSizes chunks).

Definition safeChunks (chunks : list ArraySlice) : Prop := safeChunksFrom 0 chunks.

(** ** The HTTP provider: where a JSON value lies in the text *)

(** [JSONIndex] *)
Record JSONIndex := mkJSONIndex { jsonStart : Z; jsonEnd : Z }.

(** The key of a property: a literal with its value, as string
    concatenation renders it, or a node of another type. *)
Inductive PropertyKey :=
  | KeyLiteral (value : string)
  | KeyOther.

(** What [traverse] looks at in the tree that esprima returns: objects with
    their properties, arrays with their elements, and for each property
    and element the [range] that the parser attached to it, if any. *)
Inductive Expression :=
  | ObjectExpression (properties : list ObjectMember)
  | ArrayExpression (elements : list ArrayElement)
  | OtherExpression
with ObjectMember :=
  | Property (range : option (Z * Z)) (key : PropertyKey) (value : Expression)
  | OtherMember                       (* not an instance of Property *)
with ArrayElement :=
  | Hole                              (* null *)
  | Element (range : option (Z * Z)) (element : Expression).

(** [{ start: range[0], end: range[1] }] *)
Definition rangeIndex (r : Z * Z) : JSONIndex := mkJSONIndex r.1 r.2.

(** [localPath] of a property and of the element [i]. *)
Definition propertyPath (path : string) (key : PropertyKey) : string :=
  match key with
  | KeyLiteral value => String.append path (String.append "/" value)
  | KeyOther => path
  end.

Definition elementPath (path : string) (i : nat) : string :=
  String.append path (String.append "/" (pretty i)).

(** [localPath === pointer && 'range' in p && Array.isArray(p.range)] *)
Definition rangeAt (localPath pointer : string) (range : option (Z * Z)) : option (Z * Z) :=
  if String.eqb localPath pointer then range else None.

(** The two loops of [traverse]: over the properties of an object, and
    over the elements of an array from the element [i] on; [descend] is the
    recursive call. *)
Section TraverseLoops.
Variable descend : Expression -> string -> string -> option JSONIndex.
Variables path pointer : string.

Fixpoint propertiesFrom (ps : list ObjectMember) : option JSONIndex :=
  match ps with
  | [] => None
  | OtherMember :: rest => propertiesFrom rest
  | Property range key value :: rest =>
      let localPath := propertyPath path key in
      match rangeAt localPath pointer range with
      | Some r => Some (rangeIndex r)
      | None =>
          match
            match value with
            | ObjectExpression _ | ArrayExpression _ => descend value localPath pointer
            | OtherExpression => None
            end
          with
          | Some res => Some res
          | None => propertiesFrom rest
          end
      end
  end.

Fixpoint elementsFrom (i : nat) (es : list ArrayElement) : option JSONIndex :=
  match es with
  | [] => None
  | Hole :: rest => elementsFrom (S i) rest
  | Element range element :: rest =>
      let localPath := elementPath path i in
      match rangeAt localPath pointer range with
      | Some r => Some (rangeIndex r)
      | None =>
          match
            match element with
            | ObjectExpression _ | ArrayExpression _ => descend element localPath pointer
            | OtherExpression => None
            end
          with
          | Some res => Some res
          | None => elementsFrom (S i) rest
          end
      end
  end.

End TraverseLoops.

Fixpoint traverse (o : Expression) (path pointer : string) {struct o} : option JSONIndex :=
  match o with
  | ObjectExpression properties => propertiesFrom traverse path pointer properties
  | ArrayExpression elements => elementsFrom traverse path pointer 0 elements
  | OtherExpression => None
  end.

(** [tree.body]: the statements of the parsed script. *)
Inductive Statement :=
  | ExpressionStatement (expression : Expression)
  | OtherStatement.

Record Program := mkProgram { body : list Statement }.

(** The two libraries that [extractJSONValueIndex] calls:
    [JSONPath({ path, json: JSON.parse(json), wrap: false, resultType:
    'pointer' })], which throws when the text is not JSON and otherwise
    answers with the pointer of the match, if there is one; and
    [parseScript(text, { range: true })]. *)
Class JSONLibraries := {
  JSONPath : string -> string -> Completion (option string);
  parseScript : string -> Completion Program;
}.

Definition extractJSONValueIndex `{JSONLibraries} (json jsonPath : string)
    : Completion JSONIndex :=
  match JSONPath jsonPath json with
  | Thrown e => Thrown e
  | Returned None | Returned (Some EmptyString) => Thrown (Error "jsonPath not found")
  | Returned (Some pointers) =>
      match parseScript (String.append "(" (String.append json ")")) with
      | Thrown e => Thrown e
      | Returned tree =>
          match body tree with
          | ExpressionStatement (ObjectExpression properties) :: _ =>
              match traverse (ObjectExpression properties) EmptyString pointers with
              | Some index => Returned (mkJSONIndex (jsonStart index - 1) (jsonEnd index - 1))
              | None => Thrown (Error "jsonPath not found")
              end
          | _ => Thrown (Error "jsonPath not found")
          end
      end
  end.

(** A property or an element of [o] whose path, built from [path] on, is
    [pointer], and the range it has. *)
Inductive located (pointer : string) : Expression -> string -> JSONIndex -> Prop :=
  | located_property properties r key value path :
      Property (Some r) key value ∈ properties ->
      propertyPath path key = pointer ->
      located pointer (ObjectExpression properties) path (rangeIndex r)
  | located_in_property properties range key value path index :
      Property range key value ∈ properties ->
      located pointer value (propertyPath path key) index ->
      located pointer (ObjectExpression properties) path index
  | located_element elements (i : nat) r element path :
      elements !! i = Some (Element (Some r) element) ->
      elementPath path i = pointer ->
      located pointer (ArrayExpression elements) path (rangeIndex r)
  | located_in_element elements (i : nat) range element path index :
      elements !! i = Some (Element range element) ->
      located pointer element (elementPath path i) index ->
      located pointer (ArrayExpression elements) path index.

(** A text to search: [{"user":{"orders":[10,20]}}]. *)
Definition quoted (s : string) : string :=
  String (Ascii.ascii_of_nat 34) (String.append s (String (Ascii.ascii_of_nat 34) EmptyString)).

Definition demoJson : string :=
  String.append "{" (String.append (quoted "user") (String.append ":{"
    (String.append (quoted "orders") ":[10,20]}}"))).

(** This text in parentheses, as esprima parses it with ranges, and
    libraries that know this text only. *)
Definition demoTree : Program :=
  mkProgram
    [ExpressionStatement (ObjectExpression
       [Property (Some (2, 27)) (KeyLiteral "user")
          (ObjectExpression
             [Property (Some (10, 26)) (KeyLiteral "orders")
                (ArrayExpression [Element (Some (20, 22)) OtherExpression;
                                  Element (Some (23, 25)) OtherExpression])])])].

Definition demoLibraries : JSONLibraries := {|
  JSONPath := fun path json =>
    if String.eqb json demoJson && String.eqb path "$.user.orders[1]"
    then Returned (Some "/user/orders/1"%string)
    else Returned None;
  parseScript := fun text =>
    if String.eqb text (String.append "(" (String.append demoJson ")"))
    then Returned demoTree
    else Thrown (mkError PlainError "Unexpected token");
|}.

(** ** The HTTP provider: parameters *)

(** A string used as a condition: undefined and the empty string are
    falsy. *)
Definition truthy (s : option string) : bool :=
  match s with
  | Some (String _ _) => true
  | _ => false
  end.

(** One entry of [responseSelections], of the parameters of version 1. *)
Record ResponseSelection := mkSelection {
  selXPath : option string;            (* xPath *)
  selJsonPath : option string;         (* jsonPath *)
  selResponseMatch : option string;    (* responseMatch *)
}.

(** One entry of [responseRedactions]. *)
Record ResponseRedaction := mkRedaction {
  xPath : option string;
  jsonPath : option string;
  regex : option string;
}.

Inductive MatchType := MatchRegex | MatchContains.

(** One entry of [responseMatches]: [{ type, value }]. *)
Record ResponseMatch := mkMatch { matchType : MatchType; matchValue : option string }.

(** [HTTPProviderParams], as an object: the properties that
    [normaliseParamsToV2] reads or writes, each of the two new ones
    present or not, and the others, which it copies. *)
Record HTTPProviderParams (Other : Type) := mkParams {
  responseSelections : list ResponseSelection;
  useZK : bool;
  responseMatches : option (list ResponseMatch);
  responseRedactions : option (list ResponseRedaction);
  otherParams : Other;
}.
Arguments mkParams {Other}.
Arguments responseSelections {Other}.
Arguments useZK {Other}.
Arguments responseMatches {Other}.
Arguments responseRedactions {Other}.
Arguments otherParams {Other}.

(** The body of the loop of [normaliseParamsToV2]: what one selection adds
    to [matches] and to [redactions]. *)
Definition normaliseSelection (zk : bool) (rs : ResponseSelection)
    (acc : list ResponseMatch * list ResponseRedaction)
    : list ResponseMatch * list ResponseRedaction :=
  let (matches, redactions) := acc in
  let redactions :=
    if zk then
      if truthy (selXPath rs) || truthy (selJsonPath rs)
      then redactions ++ [mkRedaction (selXPath rs) (selJsonPath rs) None]
      else if truthy (selResponseMatch rs)
           then redactions ++ [mkRedaction None None (selResponseMatch rs)]
           else redactions
    else redactions in
  let matches :=
    if truthy (selResponseMatch rs)
    then matches ++ [mkMatch MatchRegex (selResponseMatch rs)]
    else matches in
  (matches, redactions).

Definition normaliseParamsToV2 {Other} (params : HTTPProviderParams Other)
    : HTTPProviderParams Other :=
  match responseMatches params with
  | Some _ => params
  | None =>
      let (matches, redactions) :=
        foldl (fun acc rs => normaliseSelection (useZK params) rs acc) ([], [])
          (responseSelections params) in
      mkParams (responseSelections params) (useZK params)
        (Some matches) (Some redactions) (otherParams params)
  end.

(** What a selection contributes, stated apart from the loop. *)
Definition selectionMatch (rs : ResponseSelection) : option ResponseMatch :=
  if truthy (selResponseMatch rs) then Some (mkMatch MatchRegex (selResponseMatch rs)) else None.

Definition selectionRedaction (rs : ResponseSelection) : option ResponseRedaction :=
  if truthy (selXPath rs) || truthy (selJsonPath rs)
  then Some (mkRedaction (selXPath rs) (selJsonPath rs) None)
  else if truthy (selResponseMatch rs)
       then Some (mkRedaction None None (selResponseMatch rs))
       else None.

(** ** The zomato provider

    A string is the sequence of its code units; [indexOf], [length] and
    the indices of a redaction count them. *)

(** [String.prototype.indexOf]: where [sub] first occurs in [s], or -1. *)
Definition indexOf (s sub : string) : Z :=
  match String.index 0 sub s with
  | Some i => Z.of_nat i
  | None => -1
  end.

Definition HOST : string := "www.zomato.com".
Definition PATH : string := "/webroutes/user/orders?page=1".

(** [{ data, redactions }] *)
Record ProviderRequest := mkRequest {
  requestData : string;                 (* data *)
  redactions : list ArraySlice;
}.

(** [createRequest({ cookieStr })] *)
Definition createRequest (cookieStr : string) : ProviderRequest :=
  let data :=
    String.concat crlf
      [ String.append "GET " (String.append PATH " HTTP/1.1");
        String.append "Host: " HOST;
        "accept: application/json, text/plain, */*"%string;
        String.append "cookie: " cookieStr;
        "user-agent: Mozilla/5.0 (Macintosh; Intel Mac OS X 10_15_7) AppleWebKit/537.36 (KHTML, like Gecko) Chrome/116.0.0.0 Safari/537.36"%string;
        crlf ] in
  let cookieStartIndex := indexOf data cookieStr in
  mkRequest data
    [mkSlice cookieStartIndex (cookieStartIndex + Z.of_nat (String.length cookieStr))].

(** The request up to the value of the cookie header, and after it. *)
Definition requestHead : string :=
  String.append "GET /webroutes/user/orders?page=1 HTTP/1.1"
    (String.append crlf (String.append "Host: www.zomato.com"
      (String.append crlf (String.append "accept: application/json, text/plain, */*"
        (String.append crlf "cookie: "))))).

Definition requestTail : string :=
  String.append crlf
    (String.append "user-agent: Mozilla/5.0 (Macintosh; Intel Mac OS X 10_15_7) AppleWebKit/537.36 (KHTML, like Gecko) Chrome/116.0.0.0 Safari/537.36"
      (String.append crlf crlf)).

(** [sub] occurs in [s] at the position [i]. *)
Definition occursAt (s sub : string) (i : nat) : Prop :=
  String.substring i (String.length sub) s = sub.

(** What [assertValidProviderReceipt] reads of the request and of the
    response that the parsers of ../../utils/http-parser return. *)
Record HttpRequestHeaders := mkHttpRequest { method : string; url : string }.
Record HttpResponse := mkHttpResponse {
  statusCode : Z;
  bodyText : string;                    (* res.body.toString() *)
}.

(** What [assertValidProviderReceipt] is given and calls: the receipt with
    its [hostPort]; [DEFAULT_PORT] of ../../config as the template renders
    it; the two parsers; and [JSON.stringify(JSON.parse(text))]. *)
Class ReceiptReader := {
  Receipt : Type;
  receiptHostPort : Receipt -> string;
  DEFAULT_PORT : string;
  getHttpRequestHeadersFromTranscript : Receipt -> Completion HttpRequestHeaders;
  getCompleteHttpResponseFromReceipt : Receipt -> Completion HttpResponse;
  reserialise : string -> Completion string;
}.

Section AssertValidProviderReceipt.
Context `{ReceiptReader}.

Definition HOSTPORT : string := String.append HOST (String.append ":" DEFAULT_PORT).

(** The [try] block that compares the body with [userData]. *)
Definition compareBody (res : HttpResponse) (userData : string) : Completion unit :=
  match reserialise (bodyText res) with
  | Thrown e => Thrown e
  | Returned parsedRes =>
      match reserialise userData with
      | Thrown e => Thrown e
      | Returned parsedClient =>
          if negb (String.eqb parsedRes parsedClient)
          then Thrown (Error "Invalid data")
          else Returned tt
      end
  end.

Definition assertValidProviderReceipt (receipt : Receipt) (userData : string)
    : Completion unit :=
  if negb (String.eqb (receiptHostPort receipt) HOSTPORT)
  then Thrown (Error (String.append "Invalid hostPort: " (receiptHostPort receipt)))
  else
    match getHttpRequestHeadersFromTranscript receipt with
    | Thrown e => Thrown e
    | Returned req =>
        if negb (String.eqb (method req) "get")
        then Thrown (Error (String.append "Invalid method: " (method req)))
        else if negb (String.prefix PATH (url req))
        then Thrown (Error (String.append "Invalid path: " (url req)))
        else
          match getCompleteHttpResponseFromReceipt receipt with
          | Thrown e => Thrown e
          | Returned res =>
              if negb (statusCode res =? 200)
              then Thrown (Error (String.append "Invalid Login: "
                             (String.append (pretty (statusCode res)) " received.")))
              else
                match compareBody res userData with
                | Thrown error =>
                    Thrown (Error (String.append "Invalid response body: " (message error)))
                | Returned _ => Returned tt
                end
          end
    end.

End AssertValidProviderReceipt.

(** ** The window RPC *)

(** [{ available, content }] *)
Record MemoryUsage := mkMemoryUsage { available : bool; usageContent : string }.

(** How [performance.measureUserAgentSpecificMemory()] settles: with a
    number of bytes, or with an error, of which the handler asks whether it
    is a DOMException named SecurityError. *)
Inductive Measurement :=
  | Measured (bytes : Z)
  | MeasureRejected (securityError : bool) (error : JsError).

(** What [getCurrentMemoryUsage] reads of the page. *)
Record MemoryEnv := mkMemoryEnv {
  crossOriginIsolated : bool;
  measureUserAgentSpecificMemory : option Measurement;
}.

(** [Math.round(bytes / 1024 / 1024)]: the nearest integer, a half going
    up; on an integer below 2^53 the two divisions are exact. *)
Definition totalmb (bytes : Z) : Z := (bytes + 524288) / 1048576.

Definition getCurrentMemoryUsage (env : MemoryEnv) : Completion MemoryUsage :=
  if negb (crossOriginIsolated env)
  then Returned (mkMemoryUsage false "N/A (page not cross-origin-isolated)")
  else
    match measureUserAgentSpecificMemory env with
    | None =>
        Returned (mkMemoryUsage false
          "N/A (performance.measureUserAgentSpecificMemory() is not available)")
    | Some (Measured bytes) =>
        Returned (mkMemoryUsage true (String.append (pretty (totalmb bytes)) "mb"))
    | Some (MeasureRejected securityError error) =>
        if securityError
        then Returned (mkMemoryUsage false
               (String.append "N/A (" (String.append (message error) ")")))
        else Thrown error
    end.

(** Where [respond] posts: [window[channel]] or [event.source]. *)
Inductive Destination :=
  | ToChannel (name : string)
  | ToSource.

(** Options, steps and result of [createClaim]. *)
Class ClaimTypes := {
  ClaimOptions : Type;
  CreateStep : Type;
  Claim : Type;
}.

Section WindowRpcMessages.
Context `{ClaimTypes}.

(** [type] and [request] of a message; a request of a known type has the
    fields of its type. *)
Inductive RequestBody :=
  | CreateClaimRequest (request : ClaimOptions)
  | ExtractHtmlElementRequest (html xpathExpression : string) (contentsOnly : bool)
  | ExtractJSONValueIndexRequest (json jsonPath : string)
  | GetCurrentMemoryUsageRequest
  | UnknownRequest.

(** What [handleMessage] reads of a message.  A value that has none of
    these properties, such as a number, is a message without a module. *)
Record WindowRPCRequest := mkWindowRequest {
  requestModule : option string;         (* module *)
  requestIsResponse : bool;              (* 'isResponse' in req && req.isResponse *)
  requestId : option string;             (* id *)
  requestChannel : option string;        (* channel *)
  requestBody : RequestBody;
}.

(** [event.data]: a falsy value, a string, or a message. *)
Inductive EventData :=
  | NoData
  | TextData (text : string)
  | MessageData (req : WindowRPCRequest).

(** [WindowRPCData]; of an error, the message. *)
Inductive WindowRPCData :=
  | CreateClaimDone (response : Claim)
  | CreateClaimStep (step : CreateStep)
  | ExtractHtmlElementDone (response : string)
  | ExtractJSONValueIndexDone (response : JSONIndex)
  | GetCurrentMemoryUsageDone (response : MemoryUsage)
  | ErrorResponse (errorMessage : string).

(** [WindowRPCResponse]: the data with [id], [module] and [isResponse]. *)
Record WindowRPCResponse := mkWindowResponse {
  responseData : WindowRPCData;
  responseId : string;
  responseModule : string;
  responseIsResponse : bool;
}.

(** What [window[channel]] is: undefined or null, an object whose
    [postMessage] can be called, or any other value, one whose
    [postMessage] is not a function. *)
Inductive WindowProperty :=
  | PropertyMissing
  | PropertyPort
  | PropertyOther.

(** The variables [id] and [channel] of one call of [handleMessage], and
    the messages posted so far. *)
Record Handling := mkHandling {
  currentId : string;                    (* id *)
  currentChannel : string;               (* channel *)
  posted : list (Destination * WindowRPCResponse);
}.

End WindowRpcMessages.

(** What [handleMessage] calls: [JSON.parse], which throws or gives a
    message or [null]; [createClaim], which reports steps and then settles;
    [extractHTMLElement]; the page; what [window[channel]] is; and
    [JSON.stringify] of a request. *)
Class WindowHost `{ClaimTypes} := {
  parseJSON : string -> Completion (option WindowRPCRequest);
  createClaim : ClaimOptions -> list CreateStep * Completion Claim;
  extractHTMLElement : string -> string -> bool -> Completion string;
  page : MemoryEnv;
  windowProperty : string -> WindowProperty;
  stringify : WindowRPCRequest -> string;
}.

Section WindowRpc.
Context `{WindowHost} `{JSONLibraries}.

(** [respond(data)], in the handling of an event whose [source] is an
    object, or is null: calling [postMessage] on null, or on a value that
    has no such function, is a TypeError. *)
Definition respond (source : bool) (data : WindowRPCData) : Eff Handling unit :=
  fun h =>
    let res := mkWindowResponse data (currentId h) "witness-sdk" true in
    match currentChannel h with
    | String _ _ =>
        match windowProperty (currentChannel h) with
        | PropertyMissing => (Returned tt, h)
        | PropertyPort =>
            (Returned tt,
             mkHandling (currentId h) (currentChannel h)
               (posted h ++ [(ToChannel (currentChannel h), res)]))
        | PropertyOther =>
            (Thrown (mkError TypeError "window[channel]?.postMessage is not a function"), h)
        end
    | EmptyString =>
        if source
        then (Returned tt,
              mkHandling (currentId h) (currentChannel h) (posted h ++ [(ToSource, res)]))
        else (Thrown (mkError TypeError
                        "Cannot read properties of null (reading 'postMessage')"), h)
    end.

(** A call that returns or throws, inside the handler. *)
Definition settle {A} (c : Completion A) : Eff Handling A :=
  fun h => (c, h).

(** The [switch] of [handleMessage]. *)
Definition dispatch (source : bool) (req : WindowRPCRequest) : Eff Handling unit :=
  match requestBody req with
  | CreateClaimRequest request =>
      forEach (createClaim request).1 (fun step => respond source (CreateClaimStep step)) ;;
      response <- settle (createClaim request).2 ;;
      respond source (CreateClaimDone response)
  | ExtractHtmlElementRequest html xpathExpression contentsOnly =>
      response <- settle (extractHTMLElement html xpathExpression contentsOnly) ;;
      respond source (ExtractHtmlElementDone response)
  | ExtractJSONValueIndexRequest json jsonPath =>
      response <- settle (extractJSONValueIndex json jsonPath) ;;
      respond source (ExtractJSONValueIndexDone response)
  | GetCurrentMemoryUsageRequest =>
      response <- settle (getCurrentMemoryUsage page) ;;
      respond source (GetCurrentMemoryUsageDone response)
  | UnknownRequest =>
      throw (Error (String.append "Unknown request type: " (stringify req)))
  end.

(** The [try] block once [req] is known. *)
Definition handleRequest (source : bool) (req : WindowRPCRequest) : Eff Handling unit :=
  if negb (bool_decide (requestModule req = Some "witness-sdk"%string)) then ret tt
  else if requestIsResponse req then ret tt
  else
    match requestId req with
    | None | Some EmptyString => ret tt
    | Some id =>
        modify (fun h => mkHandling id (default EmptyString (requestChannel req)) (posted h)) ;;
        dispatch source req
    end.

(** [handleMessage(event)]: [source] tells whether [event.source] is an
    object, [data] is [event.data]. *)
Definition handleMessage (source : bool) (data : EventData) : Eff Handling unit :=
  tryCatch
    match data with
    | NoData | TextData EmptyString => ret tt
    | TextData text =>
        parsed <- settle (parseJSON text) ;;
        match parsed with
        | Some req => handleRequest source req
        | None => throw (mkError TypeError "Cannot read properties of null (reading 'module')")
        end
    | MessageData req => handleRequest source req
    end
    (fun err => respond source (ErrorResponse (message err))).

(** What becomes of an answer to a request: it is posted, it is dropped
    because the channel that the request names is not there, or posting it
    throws. *)
Inductive Posting := Delivered | Dropped | Refused.

Definition posting (source : bool) (req : WindowRPCRequest) : Posting :=
  match requestChannel req with
  | Some (String c rest) =>
      match windowProperty (String c rest) with
      | PropertyMissing => Dropped
      | PropertyPort => Delivered
      | PropertyOther => Refused
      end
  | _ => if source then Delivered else Refused
  end.

End WindowRpc.

(** A call of [handleMessage] starts with [id = ''] and [channel = ''] and
    has posted nothing. *)
Definition handlingStart `{ClaimTypes} : Handling := mkHandling EmptyString EmptyString [].

(** A message is a request for this handler. *)
Definition isRequest `{ClaimTypes} (req : WindowRPCRequest) : bool :=
  bool_decide (requestModule req = Some "witness-sdk"%string)
  && negb (requestIsResponse req)
  && match requestId req with Some (String _ _) => true | _ => false end.

(** Where the answers to a request go, and the answer that carries
    [data]. *)
Definition replyTo `{ClaimTypes} (req : WindowRPCRequest) : Destination :=
  match requestChannel req with
  | Some (String c rest) => ToChannel (String c rest)
  | _ => ToSource
  end.

Definition answerTo `{ClaimTypes} (req : WindowRPCRequest) (data : WindowRPCData)
    : Destination * WindowRPCResponse :=
  (replyTo req, mkWindowResponse data (default EmptyString (requestId req)) "witness-sdk" true).

(** The TypeError of a [respond] that cannot post. *)
Definition refusal `{ClaimTypes} (req : WindowRPCRequest) : JsError :=
  match requestChannel req with
  | Some (String c rest) =>
      mkError TypeError "window[channel]?.postMessage is not a function"
  | _ => mkError TypeError "Cannot read properties of null (reading 'postMessage')"
  end.

(** [data] ends the exchange about a request with this body: the matching
    [...Done], or an error. *)
Definition concludes `{ClaimTypes} (body : RequestBody) (data : WindowRPCData) : Prop :=
  match data, body with
  | ErrorResponse _, _
  | CreateClaimDone _, CreateClaimRequest _
  | ExtractHtmlElementDone _, ExtractHtmlElementRequest _ _ _
  | ExtractJSONValueIndexDone _, ExtractJSONValueIndexRequest _ _
  | GetCurrentMemoryUsageDone _, GetCurrentMemoryUsageRequest => True
  | _, _ => False
  end.

(** A page to run the handler in: claims are numbers, [createClaim]
    reports two steps and fails on the option 0, the channel
    "flutter_webview" is there, "name" is a property of the window that
    cannot post, and no text parses. *)
Definition demoClaimTypes : ClaimTypes := {|
  ClaimOptions := nat; CreateStep := string; Claim := nat;
|}.

Definition demoHost : @WindowHost demoClaimTypes :=
  @Build_WindowHost demoClaimTypes
    (fun text => Thrown (mkError PlainError "Unexpected token h in JSON at position 0"))
    (fun n : nat =>
       (["connecting"%string; "waiting-for-verification"%string],
        match n with
        | O => Thrown (Error "claim failed")
        | S _ => Returned n
        end))
    (fun html xpathExpression contentsOnly => Returned html)
    (mkMemoryEnv true (Some (Measured 7340032)))
    (fun name => if String.eqb name "flutter_webview" then PropertyPort
                 else if String.eqb name "name" then PropertyOther
                 else PropertyMissing)
    (fun req => "{}"%string).

Definition demoRequest : @WindowRPCRequest demoClaimTypes :=
  @mkWindowRequest demoClaimTypes (Some "witness-sdk"%string) false (Some "r1"%string) None
    (@CreateClaimRequest demoClaimTypes 3%nat).

(** A reader of receipts for the zomato provider: the receipt is its
    host and port, the request and the response are fixed. *)
Definition demoReader : ReceiptReader := {|
  Receipt := string;
  receiptHostPort := fun receipt => receipt;
  DEFAULT_PORT := "443";
  getHttpRequestHeadersFromTranscript := fun _ =>
    Returned (mkHttpRequest "get" "/webroutes/user/orders?page=1");
  getCompleteHttpResponseFromReceipt := fun _ => Returned (mkHttpResponse 200 "{ }");
  reserialise := fun text =>
    if String.eqb text "{ }" then Returned "{}"%string
    else if String.eqb text "{}" then Returned "{}"%string
    else Thrown (mkError PlainError "Unexpected end of JSON input");
|}.

(** * Properties *)

(** ** Byte arrays *)

Example slice_clamps :
  slice (strToUint8Array "abcde") 1 3 = strToUint8Array "bc"
  /\ slice (strToUint8Array "abcde") 3 9 = strToUint8Array "de"
  /\ slice (strToUint8Array "abcde") 4 2 = []
  /\ slice (strToUint8Array "abcde") 0 (-1) = strToUint8Array "abcd"
  /\ sliceFrom (strToUint8Array "abcde") 2 = strToUint8Array "cde".
Proof. repeat split; reflexivity. Qed.

Example includes_is_case_sensitive :
  includes "The operation has been aborted" "aborted" = true
  /\ includes "/reclaim.Witness/PushToSession FAILED_PRECONDITION: session is closed"
       "session is closed" = true
  /\ includes "ABORTED: try again" "aborted" = false
  /\ includes "" "aborted" = false.
Proof. repeat split; reflexivity. Qed.

Lemma relIndex_nonneg (len i : Z) : 0 <= i -> relIndex len i = Z.min i len.
Proof. intros Hi. unfold relIndex. destruct (Z.ltb_spec i 0); [lia | done]. Qed.

Lemma sliceFrom_0 (data : bytes) : sliceFrom data 0 = data.
Proof.
  unfold sliceFrom, slice.
  rewrite !relIndex_nonneg by lia.
  rewrite Z.min_id, Z.min_l by lia.
  replace (Z.to_nat 0) with 0%nat by lia.
  rewrite drop_0, Z.sub_0_r, Nat2Z.id.
  apply firstn_all.
Qed.

Lemma nonEmpty_length (block : bytes) : nonEmpty block = true <-> (0 < length block)%nat.
Proof. destruct block; simpl; split; intros; done || lia. Qed.

Lemma length_slice (data : bytes) (a b : Z) :
  0 <= a -> 0 <= b ->
  Z.of_nat (length (slice data a b))
  = Z.max 0 (Z.min b (Z.of_nat (length data)) - Z.min a (Z.of_nat (length data))).
Proof.
  intros Ha Hb. unfold slice.
  rewrite !relIndex_nonneg by lia.
  rewrite length_take, length_drop. lia.
Qed.

Lemma nonEmpty_slice (data : bytes) (a b : Z) :
  0 <= a -> 0 <= b ->
  nonEmpty (slice data a b)
  = (Z.min a (Z.of_nat (length data)) <? Z.min b (Z.of_nat (length data))).
Proof.
  intros Ha Hb.
  pose proof (length_slice data a b Ha Hb) as Hlen.
  destruct (Z.ltb_spec (Z.min a (Z.of_nat (length data))) (Z.min b (Z.of_nat (length data)))).
  - apply nonEmpty_length. lia.
  - destruct (slice data a b); [done | simpl in Hlen; lia].
Qed.

(** ** The transcript as an array *)

Lemma getLastBlock_snoc who (ps : list CompleteTLSPacket) p :
  sender p = who -> getLastBlock who (ps ++ [p]) = Some (length ps).
Proof.
  intros Hp. induction ps as [|q ps IH]; simpl.
  - rewrite Hp. by destruct who.
  - by rewrite IH.
Qed.


Lemma alter_snoc {A} (f : A -> A) (l : list A) (x : A) :
  alter f (length l) (l ++ [x]) = l ++ [f x].
Proof.
  replace (length l) with (length l + 0)%nat at 1 by lia.
  by rewrite alter_app_r.
Qed.

Section WritePath.
Context `{Capabilities}.

(** ** The write callback and the engine *)

Lemma onWrite_run pkt c (s : APITLSClient) :
  onWrite pkt c s =
  if noSession (sessionId s) then (Thrown (Error "Too early to write"), s)
  else match pushReply (pushCalls s) with
       | inl e => (Thrown e, withPushCalls (S (pushCalls s)) s)
       | inr i =>
           (Returned tt,
            withPackets (allPackets s ++
              [mkCompletePacket pkt c TRANSCRIPT_MESSAGE_SENDER_TYPE_CLIENT i None])
              (withPushCalls (S (pushCalls s)) s))
       end.
Proof.
  unfold onWrite, bind, gets, pushToSession, modify, throw.
  destruct (noSession (sessionId s)); [done|].
  by destruct (pushReply (pushCalls s)).
Qed.

Lemma writeRecord_run ct data (s : APITLSClient) :
  writeRecord ct data s =
  let t := tls s in
  onWrite (seal t ct data) (CtxCiphertext (wirePlaintext (tlsVersion t) ct data) (Some ct))
    (withTls (mkTLS (tlsVersion t) (handshakeDone t) (trafficKeyUpdates t)
                (S (recordsSealed t)) (endCalls t)) s).
Proof. reflexivity. Qed.

End WritePath.

(** ** The decisions of [finish] *)

Lemma withPackets_withPackets ps qs (s : APITLSClient) :
  withPackets ps (withPackets qs s) = withPackets ps s.
Proof. reflexivity. Qed.

Lemma withPackets_same (s : APITLSClient) : withPackets (allPackets s) s = s.
Proof. by destruct s. Qed.

Lemma revealOnly_refl who ps : revealOnly who ps ps.
Proof. apply Forall_Forall2_diag, Forall_forall. auto. Qed.

Lemma revealOnly_lookup who ps qs i p :
  revealOnly who ps qs -> ps !! i = Some p -> sender p <> who -> qs !! i = Some p.
Proof.
  intros Hr Hp Hs.
  destruct (Forall2_lookup_l _ _ _ _ _ Hr Hp) as (q & Hq & [->|[Hw _]]); done.
Qed.

Lemma revealAllServer_revealOnly ps :
  revealOnly TRANSCRIPT_MESSAGE_SENDER_TYPE_SERVER ps (revealAllServer ps).
Proof.
  induction ps as [|p ps IH]; [constructor|].
  constructor; [|done].
  destruct (sender p) eqn:Hp; [by left|]. right. eauto.
Qed.

Lemma revealClientHandshake_revealOnly mode md ps :
  revealOnly TRANSCRIPT_MESSAGE_SENDER_TYPE_CLIENT ps (revealClientHandshake mode md ps).
Proof.
  induction ps as [|p ps IH]; [constructor|]. simpl.
  destruct (sender p) eqn:Hs.
  - destruct (ctx p) eqn:Hc.
    + constructor; [by left | done].
    + destruct (isApplicationData md p).
      * apply revealOnly_refl.
      * constructor; [|done]. right. eauto.
  - constructor; [by left | done].
Qed.

(** The scan for the handshake looks only at the sender, the context and
    the header: decisions taken for server records do not change it. *)
Lemma revealClientHandshake_congr mode md ps qs :
  revealOnly TRANSCRIPT_MESSAGE_SENDER_TYPE_SERVER ps qs ->
  revealOnly TRANSCRIPT_MESSAGE_SENDER_TYPE_SERVER
    (revealClientHandshake mode md ps) (revealClientHandshake mode md qs).
Proof.
  induction 1 as [|p q ps qs Hpq Hrest IH]; [constructor|]. simpl.
  destruct Hpq as [->|[Hs [r ->]]].
  - destruct (sender p), (ctx p); try (constructor; [by left | done]).
    destruct (isApplicationData md p).
    + constructor; [by left | done].
    + constructor; [by left | done].
  - simpl. rewrite Hs. constructor; [|done]. right. eauto.
Qed.

Section Finish.
Context `{Capabilities}.

Lemma serverBlocksFrom_cons md i b rest :
  serverBlocksFrom md i (b :: rest)
  = serverBlocksFrom md i [b] ++ serverBlocksFrom md (S i) rest.
Proof. simpl. by rewrite app_nil_r. Qed.

Lemma serverBlocksFrom_plaintext md i j ps :
  map blockPlaintext (serverBlocksFrom md i ps)
  = map blockPlaintext (serverBlocksFrom md j ps).
Proof.
  revert i j. induction ps as [|p ps IH]; intros i j; [done|].
  rewrite !(serverBlocksFrom_cons _ _ p ps), !map_app, (IH (S i) (S j)).
  f_equal. simpl.
  destruct (sender p), (ctx p); try done.
  by destruct (isApplicationData md p).
Qed.

Lemma serverBlocksFrom_single md i b :
  serverBlocksFrom md i [b]
  = match serverBlocksFrom md 0 [b] with
    | blk :: _ => [mkServerBlock (blockPlaintext blk) i]
    | [] => []
    end.
Proof.
  simpl. destruct (sender b), (ctx b); try done.
  by destruct (isApplicationData md b).
Qed.

Lemma redactServer_revealOnly md slices offset ps :
  revealOnly TRANSCRIPT_MESSAGE_SENDER_TYPE_SERVER ps (redactServer md slices offset ps).
Proof.
  revert offset. induction ps as [|b ps IH]; intros offset; [constructor|].
  cbn [redactServer].
  destruct (serverBlocksFrom md 0 [b]) as [|blk ?] eqn:Hb.
  - constructor; [by left | apply IH].
  - constructor; [|apply IH].
    destruct (blockMatched _ _ _); [|by left].
    right. split; [|eauto].
    simpl in Hb. destruct (sender b); [done | done].
Qed.

(** Going through the list returned by [getBlocksToReveal] never throws and
    leaves [redactServer]. *)
Lemma forEach_matchedBlocks md slices ps : forall done offset (s : APITLSClient),
  allPackets s = done ++ ps ->
  forEach (matchedBlocks slices offset (serverBlocksFrom md (length done) ps))
    (fun x => setRevealAt (blockIndex (block x)) (ZK (redactedPlaintext x))) s
  = (Returned tt, withPackets (done ++ redactServer md slices offset ps) s).
Proof.
  induction ps as [|b ps IH]; intros done offset s Hs.
  - simpl. unfold ret. by rewrite <- Hs, withPackets_same.
  - rewrite serverBlocksFrom_cons, serverBlocksFrom_single. cbn [redactServer].
    destruct (serverBlocksFrom md 0 [b]) as [|blk ?] eqn:Hb.
    + rewrite app_nil_l.
      replace (S (length done)) with (length (done ++ [b])) by (rewrite length_app; simpl; lia).
      rewrite (IH (done ++ [b]) offset s) by (by rewrite <- app_assoc).
      by rewrite <- app_assoc.
    + cbn [app matchedBlocks blockPlaintext].
      replace (S (length done)) with (length (done ++ [b])) by (rewrite length_app; simpl; lia).
      destruct (blockMatched slices offset _).
      * cbn [app forEach]. unfold bind at 1. unfold setRevealAt at 1. cbn [block blockIndex redactedPlaintext].
        rewrite Hs. destruct (decide _) as [_|Hn].
        2:{ exfalso. apply Hn. rewrite length_app. simpl. lia. }
        replace (length done) with (length done + 0)%nat at 1 by lia.
        rewrite alter_app_r. cbn [alter list_alter].
        set (b' := setReveal _ b).
        replace (length (done ++ [b])) with (length (done ++ [b'])) by (rewrite !length_app; done).
        rewrite (IH (done ++ [b']) _ (withPackets (done ++ b' :: ps) s))
          by (simpl; by rewrite <- app_assoc).
        by rewrite withPackets_withPackets, <- app_assoc.
      * rewrite app_nil_l, (IH (done ++ [b]) _ s) by (by rewrite <- app_assoc).
        by rewrite <- app_assoc.
Qed.

(** What [abort()] leaves: the pull loop, if it was waiting, has ended the
    TLS session. *)
Lemma abortPull_run (s : APITLSClient) :
  abortPull s =
  (Returned tt,
   match pullFromSessionAbort s with
   | None => s
   | Some aborted =>
       if listening s && negb aborted
       then (tlsEnd None (withListening false (withAbort (Some true) s))).2
       else withAbort (Some true) s
   end).
Proof.
  unfold abortPull, bind at 1, gets at 1, id.
  destruct (pullFromSessionAbort s) as [aborted|]; [|done].
  unfold bind at 1, modify at 1.
  destruct (listening s && negb aborted); [|done].
  reflexivity.
Qed.

(** [finish] once the session check has passed. *)
Lemma finish_run (s : APITLSClient) :
  noSession (sessionId s) = false ->
  finish s =
  let s1 := withPackets (finishMarks s) s in
  if metadataAssigned s then
    match preparePacketsForReveal (finishMarks s) with
    | Thrown e => (Thrown e, s1)
    | Returned revealBlocks =>
        match finaliseReply revealBlocks with
        | inl e => (Thrown e, s1)
        | inr result => (Returned result, (abortPull (tlsEnd None s1).2).2)
        end
    end
  else (Thrown (mkError TypeError
                  "Cannot read properties of undefined (reading 'cipherSuite')"), s1).
Proof.
  intros Hsid. unfold finish, finishMarks, bind at 1, gets at 1. rewrite Hsid.
  unfold bind at 1, gets at 1. unfold id.
  assert (forall ps,
    (modify (fun s0 => withPackets
       (revealClientHandshake (defaultWriteRedactionMode s0) (metadata s0) (allPackets s0)) s0) ;;
     ps0 <- gets allPackets ;;
     assigned <- gets metadataAssigned ;;
     (if assigned then ret tt
      else throw (mkError TypeError
                    "Cannot read properties of undefined (reading 'cipherSuite')")) ;;
     revealBlocks <- (fun s0 => (preparePacketsForReveal ps0, s0)) ;;
     result <- finaliseSession revealBlocks ;;
     tlsEnd None ;; abortPull ;; ret result) (withPackets ps s)
    = let marks := revealClientHandshake (defaultWriteRedactionMode s) (metadata s) ps in
      let s1 := withPackets marks s in
      if metadataAssigned s then
        match preparePacketsForReveal marks with
        | Thrown e => (Thrown e, s1)
        | Returned revealBlocks =>
            match finaliseReply revealBlocks with
            | inl e => (Thrown e, s1)
            | inr result => (Returned result, (abortPull (tlsEnd None s1).2).2)
            end
        end
      else (Thrown (mkError TypeError
                      "Cannot read properties of undefined (reading 'cipherSuite')"), s1))
    as Hrest.
  { intros ps. unfold bind at 1, modify at 1. unfold bind at 1, gets at 1.
    unfold bind at 1, gets at 1. cbn [allPackets metadataAssigned withPackets
      defaultWriteRedactionMode metadata]. cbv zeta.
    destruct (metadataAssigned s); [|done].
    unfold bind at 1, ret at 1. unfold bind at 1.
    destruct (preparePacketsForReveal _) as [revealBlocks|e]; [|done].
    unfold bind at 1, finaliseSession.
    destruct (finaliseReply revealBlocks) as [e|result]; [done|].
    unfold ret at 1. unfold bind at 1. unfold tlsEnd at 1, modify at 1.
    unfold bind at 1. rewrite !abortPull_run. reflexivity. }
  destruct (redactResponse s) as [redact|] eqn:Hredact.
  - unfold getBlocksToReveal. unfold bind at 1.
    rewrite (forEach_matchedBlocks (metadata s) _ (allPackets s) [] 0 s) by done.
    rewrite app_nil_l. apply Hrest.
  - unfold bind at 1, modify at 1. apply Hrest.
Qed.

(** Whatever [finish] answers, it leaves the transcript [finishMarks]. *)
Lemma abortPull_allPackets (s : APITLSClient) : allPackets (abortPull s).2 = allPackets s.
Proof.
  rewrite abortPull_run. cbn [snd].
  destruct (pullFromSessionAbort s) as [aborted|]; [|done].
  by destruct (listening s && negb aborted).
Qed.

Lemma abortPull_sessionId (s : APITLSClient) : sessionId (abortPull s).2 = sessionId s.
Proof.
  rewrite abortPull_run. cbn [snd].
  destruct (pullFromSessionAbort s) as [aborted|]; [|done].
  by destruct (listening s && negb aborted).
Qed.

Lemma finish_allPackets (s : APITLSClient) :
  noSession (sessionId s) = false ->
  allPackets (finish s).2 = finishMarks s.
Proof.
  intros Hsid. rewrite finish_run by done. cbv zeta.
  destruct (metadataAssigned s); [|done].
  destruct (preparePacketsForReveal _); [|done].
  destruct (finaliseReply _); [done|].
  cbn [snd]. by rewrite abortPull_allPackets.
Qed.

End Finish.

(** ** Rules for effects *)

Section Rules.
Context {S : Type}.
Implicit Types P Q : S -> Prop.

Lemma preserves_ret {A} P (a : A) : preserves P (ret a).
Proof. by intros s. Qed.

Lemma preserves_throw {A} P e : preserves P (@throw S A e).
Proof. by intros s. Qed.

Lemma preserves_gets {A} P (f : S -> A) : preserves P (gets f).
Proof. by intros s. Qed.

Lemma preserves_modify P (f : S -> S) :
  (forall s, P s -> P (f s)) -> preserves P (modify f).
Proof. intros Hf s Hs. by apply Hf. Qed.

Lemma preserves_bind {A B} P (m : Eff S A) (k : A -> Eff S B) :
  preserves P m -> (forall a, preserves P (k a)) -> preserves P (bind m k).
Proof.
  intros Hm Hk s Hs. unfold bind. specialize (Hm s Hs).
  destruct (m s) as [[a|e] s']; simpl in *; [by apply Hk | done].
Qed.

Lemma preserves_forEach {A} P (xs : list A) (body : A -> Eff S unit) :
  (forall x, preserves P (body x)) -> preserves P (forEach xs body).
Proof.
  intros Hbody. induction xs as [|x xs IH]; simpl.
  - apply preserves_ret.
  - apply preserves_bind; [apply Hbody | by intros _].
Qed.

Lemma returns_bind {A B} P Q R (m : Eff S A) (k : A -> Eff S B) :
  triple P m (onReturn Q) -> (forall a, triple Q (k a) (onReturn R)) ->
  triple P (bind m k) (onReturn R).
Proof.
  intros Hm Hk s Hs. unfold bind. specialize (Hm s Hs).
  destruct (m s) as [[a|e] s']; simpl in *; [by apply Hk | done].
Qed.

End Rules.

(** Takes a program apart along its binds, loops and branches. *)
Ltac effects :=
  repeat lazymatch goal with
  | |- preserves _ (bind _ _) => apply preserves_bind; [|intros ?]
  | |- preserves _ (ret _) => apply preserves_ret
  | |- preserves _ (throw _) => apply preserves_throw
  | |- preserves _ (gets _) => apply preserves_gets
  | |- preserves _ (forEach _ _) => apply preserves_forEach; intros ?
  | |- preserves (lift _) (modify _) => apply preserves_modify; by intros ?
  | |- preserves _ (if ?b then _ else _) => destruct b
  end.

(** ** Invariants of the transcript *)

Lemma getLastBlock_lookup who (ps : list CompleteTLSPacket) i :
  getLastBlock who ps = Some i -> exists p, ps !! i = Some p /\ sender p = who.
Proof.
  revert i. induction ps as [|p ps IH]; simpl; intros i Hi; [done|].
  destruct (getLastBlock who ps) as [j|].
  - injection Hi as <-. by apply IH.
  - destruct (sender_eqb (sender p) who) eqn:Hp; [|done].
    injection Hi as <-. exists p. split; [done|].
    by destruct (sender p), who.
Qed.

Section Invariants.
Context `{Capabilities}.
Implicit Types Q : list CompleteTLSPacket -> nat -> Prop.

Lemma onWrite_keeps Q pkt c : pushStable Q -> preserves (lift Q) (onWrite pkt c).
Proof.
  intros HQ s Hs. rewrite onWrite_run. specialize (HQ _ _ pkt c Hs).
  destruct (noSession _); [done|].
  by destruct (pushReply _).
Qed.

Lemma markLast_keeps Q r :
  revealStable Q ->
  preserves (lift Q) (updateLastBlock TRANSCRIPT_MESSAGE_SENDER_TYPE_CLIENT (setReveal r)).
Proof.
  intros HQ s Hs. unfold updateLastBlock.
  destruct (getLastBlock _ _) as [i|] eqn:Hi; [|done]. by apply HQ.
Qed.

Lemma indexLast_takes Q Q' j :
  indexTakes j Q Q' ->
  triple (lift Q) (updateLastBlock TRANSCRIPT_MESSAGE_SENDER_TYPE_SERVER (setIndex j))
    (onReturn (lift Q')).
Proof.
  intros HQ s Hs. unfold updateLastBlock.
  destruct (getLastBlock _ _) as [i|] eqn:Hi; [|done]. by apply HQ.
Qed.

Lemma writeRecord_keeps Q ct data : pushStable Q -> preserves (lift Q) (writeRecord ct data).
Proof. intros HQ s Hs. rewrite writeRecord_run. by apply onWrite_keeps. Qed.

Lemma tlsUpdateTrafficKeys_keeps Q : pushStable Q -> preserves (lift Q) tlsUpdateTrafficKeys.
Proof. intros HQ. unfold tlsUpdateTrafficKeys. effects. by apply writeRecord_keeps. Qed.

Lemma tlsStartHandshake_keeps Q : pushStable Q -> preserves (lift Q) tlsStartHandshake.
Proof. intros HQ. unfold tlsStartHandshake. effects. by apply onWrite_keeps. Qed.

Lemma onHandshake_keeps Q : preserves (lift Q) onHandshake.
Proof.
  unfold onHandshake. effects.
  destruct (version _) as [[|]|]; effects.
Qed.

Lemma writeWithReveal_keeps Q data b :
  pushStable Q -> revealStable Q -> preserves (lift Q) (writeWithReveal data b).
Proof.
  intros HQ HR. unfold writeWithReveal, tlsWrite. effects;
    auto using tlsUpdateTrafficKeys_keeps, writeRecord_keeps, markLast_keeps.
Qed.

Lemma write_keeps Q data sections :
  pushStable Q -> revealStable Q -> preserves (lift Q) (write data sections).
Proof.
  intros HQ HR. unfold write.
  apply preserves_bind; [apply preserves_gets|]. intros [|].
  - unfold writeRedactedWithKeyUpdate. effects; auto using writeWithReveal_keeps.
    generalize 0. induction sections as [|sl rest IH]; intros cur; cbn [writeSections].
    + effects.
    + effects; auto using writeWithReveal_keeps.
  - unfold writeRedactedZk, tlsWrite. effects; auto using writeRecord_keeps, markLast_keeps.
Qed.

(** After a record of the server is handled, [Q'] holds if [onRead] takes
    [Q] there; when the engine rejects the record nothing has happened. *)
Lemma tlsHandleReceivedPacket_run type pkt (s : APITLSClient) :
  tlsHandleReceivedPacket type pkt s =
  let r := receive (tls s) type pkt in
  match rxThrows r with
  | Some e => (Thrown e, s)
  | None =>
      tlsReact r (withPackets
        (allPackets s ++
         [mkCompletePacket pkt (rxCtx r) TRANSCRIPT_MESSAGE_SENDER_TYPE_SERVER (-1) None]) s)
  end.
Proof.
  unfold tlsHandleReceivedPacket, bind at 1, gets. cbv zeta.
  by destruct (rxThrows _).
Qed.

Lemma tlsReact_keeps Q r : pushStable Q -> preserves (lift Q) (tlsReact r).
Proof.
  intros HQ. unfold tlsReact. effects; auto using onWrite_keeps, onHandshake_keeps.
Qed.

Lemma tlsHandleReceivedPacket_takes Q Q' type pkt :
  readTakes Q Q' -> pushStable Q' ->
  triple (lift Q) (tlsHandleReceivedPacket type pkt)
    (fun o s => match o with Returned _ => lift Q' s | Thrown _ => lift Q s \/ lift Q' s end).
Proof.
  intros HR HW s Hs. rewrite tlsHandleReceivedPacket_run. cbv zeta.
  destruct (rxThrows _); [by left|].
  set (s1 := withPackets _ s).
  assert (lift Q' s1) as Hs1 by (by apply HR).
  pose proof (tlsReact_keeps Q' (receive (tls s) type pkt) HW s1 Hs1) as Hrest.
  simpl in Hrest. destruct (tlsReact _ s1) as [[[]|e] s2]; [done | by right].
Qed.

Lemma pullStep_keeps Q r :
  pushStable Q -> readTakes Q Q -> (forall j, indexTakes j Q Q) ->
  preserves (lift Q) (pullStep tlsStartHandshake r).
Proof.
  intros HW HR HI. unfold pullStep.
  destruct (pullMessage r) as [m|]; [|by apply tlsStartHandshake_keeps].
  destruct (header m) as [|type ?]; [by apply tlsStartHandshake_keeps|].
  intros s Hs. unfold bind.
  pose proof (tlsHandleReceivedPacket_takes Q Q type m HR HW s Hs) as Hh.
  destruct (tlsHandleReceivedPacket type m s) as [[[]|e] s1]; simpl in *; [|tauto].
  pose proof (indexLast_takes Q Q (pullIndex r) (HI _) s1 Hh) as Hi.
  unfold updateLastBlock in *.
  destruct (getLastBlock _ _); simpl in *; done.
Qed.

Lemma session_keeps Q events :
  pushStable Q -> revealStable Q -> readTakes Q Q -> (forall j, indexTakes j Q Q) ->
  preserves (lift Q) (session events).
Proof.
  intros HW HM HR HI. unfold session.
  apply preserves_forEach. intros [r|data sections].
  - by apply pullStep_keeps.
  - by apply write_keeps.
Qed.

(** *** Server records wait for [finish] *)

Lemma session_undecided events : preserves serverUndecided (session events).
Proof.
  apply (session_keeps (fun ps _ =>
    Forall (fun p => sender p = TRANSCRIPT_MESSAGE_SENDER_TYPE_SERVER -> reveal p = None) ps)).
  - intros ps n pkt c Hps. destruct (pushReply n); [done|].
    apply Forall_app; split; [done|]. by repeat constructor.
  - intros ps n i r Hps Hi. apply Forall_alter; [done|].
    intros p Hp _ Hserver.
    destruct (getLastBlock_lookup _ _ _ Hi) as (p' & Hp' & Hwho).
    simpl in Hserver. congruence.
  - intros ps n pkt c Hps. apply Forall_app; split; [done|]. by repeat constructor.
  - intros j ps n i Hps Hi. apply Forall_alter; [done|]. by intros p _ Hp.
Qed.

End Invariants.

(** ** Disclosure of the handshake *)


Lemma revealClientHandshake_after mode md pre : forall a post i,
  sender a = TRANSCRIPT_MESSAGE_SENDER_TYPE_CLIENT ->
  isApplicationData md a = true ->
  (length pre <= i)%nat ->
  revealClientHandshake mode md (pre ++ a :: post) !! i = (pre ++ a :: post) !! i.
Proof.
  induction pre as [|q pre IH]; intros a post i Hs Happ Hi; simpl.
  - rewrite Hs, Happ. unfold isApplicationData in Happ. by destruct (ctx a).
  - destruct i as [|i]; [simpl in Hi; lia|].
    simpl in Hi. specialize (IH a post i Hs Happ ltac:(lia)).
    destruct (sender q); [|done].
    destruct (ctx q); [done|].
    by destruct (isApplicationData md q).
Qed.

Section Disclosure.
Context `{Capabilities}.

Lemma finishMarks_client (s : APITLSClient) i q :
  revealClientHandshake (defaultWriteRedactionMode s) (metadata s) (allPackets s) !! i = Some q ->
  sender q = TRANSCRIPT_MESSAGE_SENDER_TYPE_CLIENT ->
  finishMarks s !! i = Some q.
Proof.
  intros Hq Hs. unfold finishMarks.
  eapply revealOnly_lookup; [apply revealClientHandshake_congr | exact Hq | by rewrite Hs].
  destruct (redactResponse s).
  - apply redactServer_revealOnly.
  - apply revealAllServer_revealOnly.
Qed.


(** ** Redaction of the response *)

Lemma slice_strip (pt : bytes) : slice pt 0 (-1) = take (length pt - 1) pt.
Proof.
  unfold slice, relIndex. simpl.
  replace (Z.min 0 (Z.of_nat (length pt))) with 0 by lia.
  replace (Z.to_nat 0) with 0%nat by lia.
  rewrite drop_0. f_equal. lia.
Qed.

Lemma serverBlocksFrom_single_length md p :
  (length (serverBlocksFrom md 0 [p]) <= 1)%nat.
Proof.
  simpl. destruct (sender p), (ctx p); simpl; try lia.
  destruct (isApplicationData md p); simpl; lia.
Qed.

Lemma isApplicationData_spec md p :
  isApplicationData md p = true
  <-> exists pt ct,
        ctx p = CtxCiphertext pt ct
        /\ (ct = Some APPLICATION_DATA
            \/ (exists rest, header (packet p) = WRAPPED_RECORD :: rest)
               /\ version md = Some TLS1_2).
Proof.
  unfold isApplicationData. destruct (ctx p) as [|pt ct].
  - split; [done | by intros (? & ? & ? & _)].
  - assert ((match header (packet p) with
             | b :: _ => Byte.eqb b WRAPPED_RECORD
             | [] => false
             end && match version md with Some TLS1_2 => true | _ => false end) = true
            <-> (exists rest, header (packet p) = WRAPPED_RECORD :: rest)
                /\ version md = Some TLS1_2) as Hwrapped.
    { rewrite andb_true_iff. split.
      - intros [Hheader Hversion]. split.
        + destruct (header (packet p)) as [|b rest]; [done|].
          apply Byte.byte_dec_bl in Hheader as ->. by eexists.
        + by destruct (version md) as [[]|].
      - intros [[rest ->] ->]. split; [by apply Byte.byte_dec_lb | done]. }
    split.
    + intros Happ. exists pt, ct. split; [done|].
      destruct ct as [[]|]; (by left) || (right; by apply Hwrapped).
    + intros (pt' & ct' & [= <- <-] & [->|Hw]); [done|].
      destruct ct as [[]|]; done || by apply Hwrapped.
Qed.

(** What the loop of [finish] collects from a record is what the response
    redaction is to see of it. *)
Lemma serverBlocksFrom_responseBlock md p :
  map blockPlaintext (serverBlocksFrom md 0 [p]) = option_list (responseBlock md p).
Proof.
  unfold responseBlock. cbn [serverBlocksFrom].
  destruct (sender p); [done|]. destruct (ctx p) as [|pt ct]; [done|].
  destruct (isApplicationData md p); [|done].
  cbn. rewrite slice_strip. by destruct (version md) as [[]|].
Qed.

Lemma serverBlocksFrom_responsePlaintext md ps :
  concat (map blockPlaintext (serverBlocksFrom md 0 ps)) = responsePlaintext md ps.
Proof.
  unfold responsePlaintext. induction ps as [|p ps IH]; [done|].
  rewrite (serverBlocksFrom_cons md 0 p ps), map_app, concat_app.
  rewrite (serverBlocksFrom_plaintext md 1 0 ps), IH, serverBlocksFrom_responseBlock.
  simpl. destruct (responseBlock md p); simpl; by rewrite ?app_nil_r.
Qed.

Lemma responsePlaintext_cons md p ps :
  responsePlaintext md (p :: ps)
  = default [] (responseBlock md p) ++ responsePlaintext md ps.
Proof. unfold responsePlaintext. simpl. by destruct (responseBlock md p). Qed.

Lemma redactServer_lookup md slices pre : forall offset p post,
  let start := offset + Z.of_nat (length (responsePlaintext md pre)) in
  redactServer md slices offset (pre ++ p :: post) !! length pre
  = Some match responseBlock md p with
         | Some blk =>
             if blockMatched slices start (Z.of_nat (length blk))
             then setReveal (Some (ZK (redactedView slices start blk))) p
             else p
         | None => p
         end.
Proof.
  induction pre as [|q pre IH]; intros offset p post start.
  - subst start. cbn [app redactServer length].
    pose proof (serverBlocksFrom_responseBlock md p) as Hblock.
    pose proof (serverBlocksFrom_single_length md p) as Hlen.
    unfold responsePlaintext. cbn [omap concat length]. rewrite Z.add_0_r.
    destruct (serverBlocksFrom md 0 [p]) as [|blk [|? ?]]; [| |simpl in Hlen; lia];
      destruct (responseBlock md p) as [view|]; try done.
    cbn in Hblock. injection Hblock as ->. done.
  - subst start. rewrite <- app_comm_cons. cbn [redactServer length].
    rewrite responsePlaintext_cons, length_app.
    pose proof (serverBlocksFrom_responseBlock md q) as Hblock.
    pose proof (serverBlocksFrom_single_length md q) as Hlen.
    destruct (serverBlocksFrom md 0 [q]) as [|blk [|? ?]]; [| |simpl in Hlen; lia];
      destruct (responseBlock md q) as [view|]; try done.
    + rewrite lookup_cons.
      pose proof (IH offset p post) as IH'. cbv zeta in IH'.
      rewrite IH'. cbn [default length]. by rewrite Nat.add_0_l.
    + cbn in Hblock. injection Hblock as Hview. rewrite lookup_cons.
      pose proof (IH (offset + Z.of_nat (length (blockPlaintext blk))) p post) as IH'.
      cbv zeta in IH'. rewrite IH'. cbn [default]. rewrite Hview.
      by rewrite Nat2Z.inj_add, Z.add_assoc.
Qed.

(** C4.  Server records carry no decision while the session runs; the
    decisions are taken by [finish], which is studied here once the
    handshake callback has run.  Without a response-redaction function
    every server record, so every server application-data record, is marked
    Complete.  With one, the function is applied once, to the plaintext of
    the encrypted server application-data records in the order of the
    transcript, each without its last byte under TLS1.3 and as it is
    otherwise; such a record that a returned slice reaches is marked ZK
    with its blanked view, and every other server record, a server
    application-data record that no slice reaches as well as a record that
    is not application data, stays without a decision.  A record is
    application data when it is encrypted and its content type is that of
    application data or, in a TLS1.2 session, its header is that of a
    wrapped record. *)
Theorem finish_redacts_server_records (s0 : APITLSClient) (events : list SessionEvent) :
  serverUndecided s0 ->
  let s := (session events s0).2 in
  noSession (sessionId s) = false ->
  metadataAssigned s = true ->
  let md := metadata s in
  let after := allPackets (finish s).2 in
  serverUndecided s
  /\ (forall p,
        isApplicationData md p = true
        <-> exists pt ct,
              ctx p = CtxCiphertext pt ct
              /\ (ct = Some APPLICATION_DATA
                  \/ (exists rest, header (packet p) = WRAPPED_RECORD :: rest)
                     /\ version md = Some TLS1_2))
  /\ (redactResponse s = None ->
      forall i p, allPackets s !! i = Some p ->
        sender p = TRANSCRIPT_MESSAGE_SENDER_TYPE_SERVER ->
        after !! i = Some (setReveal (Some Complete) p))
  /\ (forall redact, redactResponse s = Some redact ->
      let slices := redact (responsePlaintext md (allPackets s)) in
      forall pre p post,
        allPackets s = pre ++ p :: post ->
        sender p = TRANSCRIPT_MESSAGE_SENDER_TYPE_SERVER ->
        let offset := Z.of_nat (length (responsePlaintext md pre)) in
        reveal p = None
        /\ after !! length pre
           = Some match responseBlock md p with
                  | Some view =>
                      if blockMatched slices offset (Z.of_nat (length view))
                      then setReveal (Some (ZK (redactedView slices offset view))) p
                      else p
                  | None => p
                  end).
Proof.
  intros Hs0 s Hsid Hassigned md after.
  assert (serverUndecided s) as Hs by (by apply session_undecided).
  split; [done|]. split; [apply isApplicationData_spec|].
  subst after. rewrite finish_allPackets by done.
  unfold finishMarks. split.
  - intros Hnone i p Hp Hsender. rewrite Hnone.
    apply (revealOnly_lookup TRANSCRIPT_MESSAGE_SENDER_TYPE_CLIENT
             (revealAllServer (allPackets s))).
    + apply revealClientHandshake_revealOnly.
    + unfold revealAllServer. rewrite list_lookup_fmap, Hp. simpl. by rewrite Hsender.
    + simpl. by rewrite Hsender.
  - intros redact Hredact. cbv zeta. intros pre p post Hps Hsender.
    split.
    { unfold serverUndecided in Hs. rewrite Hps in Hs.
      apply Forall_app in Hs as [_ Hs]. apply Forall_cons in Hs as [Hp _]. auto. }
    rewrite Hredact. fold md. rewrite serverBlocksFrom_responsePlaintext.
    pose proof (redactServer_lookup md (redact (responsePlaintext md (allPackets s)))
                  pre 0 p post) as Hlook.
    cbv zeta in Hlook. rewrite Z.add_0_l, <- Hps in Hlook.
    eapply revealOnly_lookup; [apply revealClientHandshake_revealOnly | exact Hlook |].
    destruct (responseBlock md p) as [view|]; [|by rewrite Hsender].
    destruct (blockMatched _ _ _); simpl; by rewrite Hsender.
Qed.

End Disclosure.

(** ** Writing with redactions *)

Lemma bind_ret_l {S A B} (a : A) (k : A -> Eff S B) (s : S) : bind (ret a) k s = k a s.
Proof. reflexivity. Qed.

Lemma bind_thrown {S A B} (m : Eff S A) (k : A -> Eff S B) s e s1 :
  m s = (Thrown e, s1) -> bind m k s = (Thrown e, s1).
Proof. intros Hm. unfold bind. by rewrite Hm. Qed.

Lemma bind_returned {S A B} (m : Eff S A) (k : A -> Eff S B) s a s1 :
  m s = (Returned a, s1) -> bind m k s = k a s1.
Proof. intros Hm. unfold bind. by rewrite Hm. Qed.

(** *** How the engine cuts a buffer *)

Lemma chunksOf_nil fuel size : chunksOf fuel size [] = [].
Proof. by destruct fuel. Qed.

Lemma chunksOf_concat size : (0 < size)%nat -> forall fuel (arr : bytes),
  (length arr <= fuel)%nat -> concat (chunksOf fuel size arr) = arr.
Proof.
  intros Hsize. induction fuel as [|fuel IH]; intros arr Hlen.
  - by destruct arr; [|simpl in Hlen; lia].
  - destruct arr as [|b arr]; [done|].
    cbn [chunksOf concat]. rewrite IH; [apply take_drop|].
    rewrite length_drop. simpl in *. lia.
Qed.

Lemma chunksOf_bounds size : (0 < size)%nat -> forall fuel (arr : bytes),
  Forall (fun c => c <> [] /\ (length c <= size)%nat) (chunksOf fuel size arr).
Proof.
  intros Hsize. induction fuel as [|fuel IH]; intros arr; [constructor|].
  destruct arr as [|b arr]; [constructor|].
  cbn [chunksOf]. constructor; [|apply IH].
  split; [|rewrite length_take; lia].
  destruct size; [lia | done].
Qed.

Lemma chunksOf_single size fuel (arr : bytes) :
  arr <> [] -> (length arr <= size)%nat -> (0 < fuel)%nat ->
  chunksOf fuel size arr = [arr].
Proof.
  intros Hne Hlen Hfuel. destruct fuel as [|fuel]; [lia|].
  destruct arr as [|b arr]; [done|]. cbn [chunksOf].
  rewrite take_ge, drop_ge by done. by rewrite chunksOf_nil.
Qed.

Lemma slice_take (data : bytes) (x y : Z) (size : nat) :
  0 <= x -> 0 <= y ->
  take size (slice data x y) = slice data x (Z.min (x + Z.of_nat size) y).
Proof.
  intros Hx Hy. unfold slice. rewrite !relIndex_nonneg by lia.
  rewrite take_take. set (len := Z.of_nat (length data)).
  destruct (Z.le_gt_cases x len).
  - f_equal. lia.
  - rewrite !drop_ge by lia. by rewrite !take_nil.
Qed.

Lemma slice_drop (data : bytes) (x y : Z) (size : nat) :
  0 <= x -> 0 <= y ->
  drop size (slice data x y) = slice data (x + Z.of_nat size) y.
Proof.
  intros Hx Hy. unfold slice. rewrite !relIndex_nonneg by lia.
  set (len := Z.of_nat (length data)).
  destruct (Z.le_gt_cases (x + Z.of_nat size) len).
  - rewrite skipn_firstn_comm, drop_drop. f_equal; [lia | f_equal; lia].
  - rewrite (drop_ge data (Z.to_nat (Z.min (x + Z.of_nat size) len))) by lia.
    rewrite take_nil.
    apply drop_ge. rewrite length_take, length_drop. lia.
Qed.

(** Each piece of a range of the buffer is a range of the buffer, inside
    that range. *)
Lemma chunksOf_slices (data : bytes) (size : nat) (y : Z) : 0 <= y ->
  forall fuel x c, 0 <= x ->
    c ∈ chunksOf fuel size (slice data x y) ->
    exists a b, x <= a /\ a <= b /\ b <= y /\ c = slice data a b.
Proof.
  intros Hy. induction fuel as [|fuel IH]; intros x c Hx Hc; [by apply elem_of_nil in Hc|].
  destruct (slice data x y) as [|b0 arr] eqn:Harr; [by apply elem_of_nil in Hc|].
  cbn [chunksOf] in Hc. rewrite <- Harr in Hc.
  assert (x < y) as Hlt.
  { pose proof (nonEmpty_slice data x y Hx Hy) as Hne. rewrite Harr in Hne.
    cbn [nonEmpty] in Hne. symmetry in Hne. apply Z.ltb_lt in Hne. lia. }
  apply elem_of_cons in Hc as [->|Hc].
  - exists x, (Z.min (x + Z.of_nat size) y). rewrite slice_take by done.
    repeat split; lia || done.
  - rewrite slice_drop in Hc by done.
    destruct (IH (x + Z.of_nat size) c ltac:(lia) Hc) as (a & b & ? & ? & ? & ->).
    exists a, b. repeat split; lia || done.
Qed.

Section Chunks.
Context `{Capabilities}.

Lemma recordChunks_concat (data : bytes) : concat (recordChunks data) = data.
Proof. apply chunksOf_concat; lia. Qed.

Lemma recordChunks_nonEmpty (data : bytes) : data <> [] -> recordChunks data <> [].
Proof.
  intros Hne Hnone. apply Hne. by rewrite <- (recordChunks_concat data), Hnone.
Qed.

(** A buffer that fits in one record is not cut. *)
Lemma recordChunks_single (data : bytes) :
  data <> [] -> (length data <= Pos.to_nat MAX_ENC_PACKET_SIZE)%nat ->
  recordChunks data = [data].
Proof.
  intros Hne Hlen. apply chunksOf_single; [done | done|].
  destruct data; [done | simpl; lia].
Qed.

End Chunks.

(** *** The shapes of the records of a block *)

Lemma blockShapes_unmarked keys (chunks : list bytes) :
  blockShapes keys None chunks = map (fun c => mkShape APPLICATION_DATA c keys None) chunks.
Proof.
  induction chunks as [|c chunks IH]; [done|].
  destruct chunks as [|c' chunks]; [done|].
  change (blockShapes keys None (c :: c' :: chunks))
    with (mkShape APPLICATION_DATA c keys None :: blockShapes keys None (c' :: chunks)).
  by rewrite IH.
Qed.

Lemma blockShapes_snoc keys mark (chunks : list bytes) c :
  blockShapes keys mark (chunks ++ [c])
  = map (fun c => mkShape APPLICATION_DATA c keys None) chunks
    ++ [mkShape APPLICATION_DATA c keys mark].
Proof.
  induction chunks as [|c0 chunks IH]; [done|].
  cbn [app map]. rewrite <- IH. by destruct chunks.
Qed.

Lemma blockShapes_prefix keys mark (sent : list bytes) c rest :
  map (fun c => mkShape APPLICATION_DATA c keys None) sent
  `prefix_of` blockShapes keys mark (sent ++ c :: rest).
Proof.
  induction sent as [|c0 sent IH]; [apply prefix_nil|].
  cbn [app map].
  replace (blockShapes keys mark (c0 :: sent ++ c :: rest))
    with (mkShape APPLICATION_DATA c0 keys None :: blockShapes keys mark (sent ++ c :: rest))
    by (by destruct sent).
  by apply prefix_cons.
Qed.

Lemma setReveal_same (r : CompleteTLSPacket) : setReveal (reveal r) r = r.
Proof. by destruct r. Qed.

Section WriteShapes.
Context `{Capabilities}.

Lemma hasShape_marked v ct data keys mark r :
  hasShape v (mkShape ct data keys None) r ->
  hasShape v (mkShape ct data keys mark) (setReveal mark r).
Proof. intros (Hs & Hc & _ & Ht). by repeat split. Qed.

(** One record: it is appended, with no decision, when its push is
    accepted, and nothing is when it is not. *)
Lemma writeRecord_cases ct data (s : APITLSClient) :
  let o := writeRecord ct data s in
  tlsVersion (tls o.2) = tlsVersion (tls s)
  /\ trafficKeyUpdates (tls o.2) = trafficKeyUpdates (tls s)
  /\ handshakeDone (tls o.2) = handshakeDone (tls s)
  /\ match o.1 with
     | Returned _ =>
         exists r, allPackets o.2 = allPackets s ++ [r]
           /\ hasShape (tlsVersion (tls s))
                (mkShape ct data (trafficKeyUpdates (tls s)) None) r
     | Thrown _ => allPackets o.2 = allPackets s
     end
  /\ (relayAccepts -> ready s -> o.1 = Returned tt /\ ready o.2).
Proof.
  cbv zeta. rewrite writeRecord_run, onWrite_run. cbv zeta.
  cbn [sessionId withTls pushCalls allPackets].
  destruct (noSession (sessionId s)) eqn:Hsid.
  { do 4 (split; [done|]). intros _ [? _]. cbn [fst]. congruence. }
  destruct (pushReply (pushCalls s)) as [e|i] eqn:Hpush.
  { do 4 (split; [done|]). intros Hacc _. destruct (Hacc (pushCalls s)). congruence. }
  do 3 (split; [done|]). split; [|by intros _ [_ ?]].
  eexists. split; [reflexivity|].
  repeat split. by exists (tls s).
Qed.

(** The records of the pieces of a buffer, one after the other: when a
    push is not accepted, the pieces before it have been sent. *)
Lemma writeRecords_cases ct (chunks : list bytes) : forall (s : APITLSClient),
  let o := forEach chunks (writeRecord ct) s in
  tlsVersion (tls o.2) = tlsVersion (tls s)
  /\ trafficKeyUpdates (tls o.2) = trafficKeyUpdates (tls s)
  /\ handshakeDone (tls o.2) = handshakeDone (tls s)
  /\ (exists sent recs,
       allPackets o.2 = allPackets s ++ recs
       /\ Forall2 (hasShape (tlsVersion (tls s)))
            (map (fun c => mkShape ct c (trafficKeyUpdates (tls s)) None) sent) recs
       /\ match o.1 with
          | Returned _ => sent = chunks
          | Thrown _ => exists c rest, chunks = sent ++ c :: rest
          end)
  /\ (relayAccepts -> ready s -> o.1 = Returned tt /\ ready o.2).
Proof.
  induction chunks as [|c chunks IH]; intros s; cbv zeta.
  - do 3 (split; [done|]). split; [|done].
    exists [], []. rewrite app_nil_r. repeat split. constructor.
  - cbn [forEach]. unfold bind.
    pose proof (writeRecord_cases ct c s) as Hone. cbv zeta in Hone.
    destruct (writeRecord ct c s) as [[[]|e] s1]; cbn [fst snd] in *.
    + destruct Hone as (Hv & Hk & Hh & (r & Hps & Hr) & Hret).
      specialize (IH s1). cbv zeta in IH.
      destruct (forEach chunks (writeRecord ct) s1) as [o s2]; cbn [fst snd] in *.
      destruct IH as (Hv2 & Hk2 & Hh2 & (sent & recs & Hps2 & Hshapes & Hout) & Hret2).
      split; [congruence|]. split; [congruence|]. split; [congruence|]. split.
      * exists (c :: sent), (r :: recs). split; [|split].
        -- by rewrite Hps2, Hps, <- app_assoc.
        -- cbn [map]. constructor; [done|]. by rewrite <- Hv, <- Hk.
        -- destruct o; [by rewrite Hout|].
           destruct Hout as (c' & rest & ->). by exists c', rest.
      * intros Hacc Hready. apply Hret2; [done|]. by apply Hret.
    + destruct Hone as (Hv & Hk & Hh & Hps & Hret).
      split; [done|]. split; [done|]. split; [done|]. split.
      * exists [], []. rewrite app_nil_r.
        repeat split; [done | constructor | by exists c, chunks].
      * intros Hacc Hready. by destruct (Hret Hacc Hready).
Qed.

Lemma unmarked_records v ct keys (sent : list bytes) recs :
  Forall2 (hasShape v) (map (fun c => mkShape ct c keys None) sent) recs ->
  Forall (fun r => sender r = TRANSCRIPT_MESSAGE_SENDER_TYPE_CLIENT /\ reveal r = None) recs.
Proof.
  rewrite Forall2_fmap_l. induction 1 as [|c r sent recs (Hs & _ & Hr & _) _ IH]; by constructor.
Qed.

Lemma updateLastBlock_last f ps r (s : APITLSClient) :
  allPackets s = ps ++ [r] -> sender r = TRANSCRIPT_MESSAGE_SENDER_TYPE_CLIENT ->
  updateLastBlock TRANSCRIPT_MESSAGE_SENDER_TYPE_CLIENT f s
  = (Returned tt, withPackets (ps ++ [f r]) s).
Proof.
  intros Hps Hr. unfold updateLastBlock. rewrite Hps, getLastBlock_snoc by done.
  by rewrite alter_snoc.
Qed.

(** Taking the decision away from a record that has none changes
    nothing. *)
Lemma updateLastBlock_unmarked ps r (s : APITLSClient) :
  allPackets s = ps ++ [r] -> sender r = TRANSCRIPT_MESSAGE_SENDER_TYPE_CLIENT ->
  reveal r = None ->
  updateLastBlock TRANSCRIPT_MESSAGE_SENDER_TYPE_CLIENT (setReveal None) s = (Returned tt, s).
Proof.
  intros Hps Hr Hnone. rewrite (updateLastBlock_last _ ps r) by done.
  by rewrite <- Hnone, setReveal_same, <- Hps, withPackets_same.
Qed.

Lemma tlsWrite_run data (s : APITLSClient) :
  tlsWrite data s =
  if handshakeDone (tls s) then forEach (recordChunks data) (writeRecord APPLICATION_DATA) s
  else (Thrown (Error "Handshake not done"), s).
Proof. unfold tlsWrite, bind, gets. by destruct (handshakeDone _). Qed.

(** [tls.write(data)] followed by the decision for the last client record,
    for a buffer that is not empty: the records of the pieces, the last one
    with the decision. *)
Lemma tlsWrite_marked mark data :
  data <> [] ->
  writesShapes
    (tlsWrite data ;;
     updateLastBlock TRANSCRIPT_MESSAGE_SENDER_TYPE_CLIENT (setReveal mark))
    (fun keys => blockShapes keys mark (recordChunks data)) 0.
Proof.
  intros Hne s. unfold wrote, bind. rewrite tlsWrite_run.
  destruct (handshakeDone (tls s)) eqn:Hdone.
  2:{ split; [done|]. split; [|intros _ [_ ?]; congruence].
      exists [], []. rewrite app_nil_r.
      repeat split; [constructor | apply prefix_nil]. }
  pose proof (writeRecords_cases APPLICATION_DATA (recordChunks data) s) as Hrun.
  cbv zeta in Hrun.
  destruct (forEach _ _ s) as [[[]|e] s1]; cbn [fst snd] in *;
    destruct Hrun as (Hv & Hk & _ & (sent & recs & Hps & Hshapes & Hout) & Hret).
  - subst sent.
    destruct (exists_last (recordChunks_nonEmpty data Hne)) as (chunks & c & Hchunks).
    rewrite Hchunks in Hshapes |- *.
    rewrite map_app in Hshapes.
    apply Forall2_app_inv_l in Hshapes as (recs1 & recs2 & Hrecs1 & Hrecs2 & ->).
    apply Forall2_cons_inv_l in Hrecs2 as (r & recs3 & Hr & Hnil & ->).
    apply Forall2_nil_inv_l in Hnil as ->.
    rewrite (updateLastBlock_last _ (allPackets s ++ recs1) r)
      by (rewrite ?Hps, <- ?app_assoc; done || apply Hr).
    cbn [fst snd tls allPackets withPackets].
    split; [done|]. split; [|intros Hacc Hready; split; [done | by apply Hret]].
    exists (blockShapes (trafficKeyUpdates (tls s)) mark (chunks ++ [c])).
    exists (recs1 ++ [setReveal mark r]).
    split; [by rewrite <- app_assoc|]. split; [|split; [done | lia]].
    rewrite blockShapes_snoc. apply Forall2_app; [done|].
    constructor; [by apply hasShape_marked | constructor].
  - split; [done|]. split; [|intros Hacc Hready; by destruct (Hret Hacc Hready)].
    destruct Hout as (c & rest & Hchunks).
    eexists _, recs. split; [done|]. split; [exact Hshapes|].
    rewrite Hchunks. apply blockShapes_prefix.
Qed.

End WriteShapes.

Lemma bind_assoc {S A B C} (m : Eff S A) (k : A -> Eff S B) (k' : B -> Eff S C) (s : S) :
  bind (bind m k) k' s = bind m (fun a => bind (k a) k') s.
Proof. unfold bind. by destruct (m s) as [[a|e] s1]. Qed.

Lemma bind_ret_r {S} (m : Eff S unit) (s : S) : (m ;; ret tt) s = m s.
Proof. unfold bind. by destruct (m s) as [[[]|e] s1]. Qed.

Section Compose.
Context `{Capabilities}.

Lemma wrote_seq (m1 m2 : Client unit) (s : APITLSClient) E1 r1 E2 r2 :
  wrote s (m1 s) E1 r1 ->
  (forall s1, m1 s = (Returned tt, s1) ->
     trafficKeyUpdates (tls s1) = (trafficKeyUpdates (tls s) + r1)%nat ->
     wrote s1 (m2 s1) E2 r2) ->
  wrote s ((m1 ;; m2) s) (E1 ++ E2) (r1 + r2).
Proof.
  intros (Hv1 & (w1 & recs1 & Hps1 & Hshapes1 & Hout1) & Hret1) Hnext. unfold bind.
  destruct (m1 s) as [[[]|e] s1]; cbn [fst snd] in *.
  - destruct Hout1 as [-> Hk1].
    destruct (Hnext s1 eq_refl Hk1) as (Hv2 & (w2 & recs2 & Hps2 & Hshapes2 & Hout2) & Hret2).
    split; [congruence|]. split.
    + exists (E1 ++ w2), (recs1 ++ recs2). split; [by rewrite Hps2, Hps1, app_assoc|].
      split; [apply Forall2_app; [done | by rewrite <- Hv1]|].
      destruct (m2 s1).1.
      * destruct Hout2 as [-> Hk2]. split; [done | lia].
      * by apply prefix_app.
    + intros Hacc Hready. destruct (Hret1 Hacc Hready) as [_ Hready1].
      by apply Hret2.
  - split; [done|]. split.
    + exists w1, recs1. split; [done|]. split; [done|]. by apply prefix_app_r.
    + intros Hacc Hready. by destruct (Hret1 Hacc Hready).
Qed.

Lemma writesShapes_bind (m1 m2 : Client unit) E1 r1 E2 r2 :
  writesShapes m1 E1 r1 -> writesShapes m2 E2 r2 ->
  writesShapes (m1 ;; m2) (fun keys => E1 keys ++ E2 (keys + r1)%nat) (r1 + r2).
Proof.
  intros H1 H2 s. apply wrote_seq; [apply H1|].
  intros s1 _ <-. apply H2.
Qed.

Lemma writesShapes_ext (m m' : Client unit) (E E' : nat -> list RecordShape) r r' :
  (forall s, m s = m' s) -> (forall keys, E keys = E' keys) -> r = r' ->
  writesShapes m E r -> writesShapes m' E' r'.
Proof. intros Hm HE <- Hw s. rewrite <- Hm, <- HE. apply Hw. Qed.

Lemma writesShapes_ret : writesShapes (ret tt) (fun _ => []) 0.
Proof.
  intros s. split; [done|]. split; [|done].
  exists [], []. rewrite app_nil_r. repeat split; [constructor | simpl; lia].
Qed.

(** [tls.updateTrafficKeys()]: one record, then the rotation. *)
Lemma tlsUpdateTrafficKeys_writesShapes :
  writesShapes tlsUpdateTrafficKeys (fun keys => [keyUpdateShape keys]) 1.
Proof.
  intros s. unfold wrote, tlsUpdateTrafficKeys, bind.
  pose proof (writeRecord_cases HANDSHAKE keyUpdateMessage s) as Hone. cbv zeta in Hone.
  destruct (writeRecord _ _ s) as [[[]|e] s1]; cbn [fst snd] in *.
  - destruct Hone as (Hv & Hk & Hh & (r & Hps & Hr) & Hret).
    unfold modify. cbn [fst snd tls withTls allPackets tlsVersion trafficKeyUpdates].
    split; [done|]. split.
    + exists [keyUpdateShape (trafficKeyUpdates (tls s))], [r].
      split; [done|]. split; [constructor; [exact Hr | constructor]|]. split; [done | lia].
    + intros Hacc Hready. split; [done|].
      destruct (Hret Hacc Hready) as [_ [Hsid Hdone]]. by split.
  - destruct Hone as (Hv & Hk & Hh & Hps & Hret).
    split; [done|]. split.
    + exists [], []. rewrite app_nil_r. repeat split; [done | constructor | apply prefix_nil].
    + intros Hacc Hready. by destruct (Hret Hacc Hready).
Qed.

(** [tls.write(data)] and then [delete lastPkt.reveal], when the last
    record of the transcript is one of the client that has no decision:
    the records of the pieces, none with a decision, and none at all for an
    empty buffer, in which case it is from that last record that the
    decision is taken away. *)
Lemma tlsWrite_unmarked data (s : APITLSClient) ps r :
  allPackets s = ps ++ [r] ->
  sender r = TRANSCRIPT_MESSAGE_SENDER_TYPE_CLIENT -> reveal r = None ->
  wrote s ((tlsWrite data ;;
            updateLastBlock TRANSCRIPT_MESSAGE_SENDER_TYPE_CLIENT (setReveal None)) s)
    (blockShapes (trafficKeyUpdates (tls s)) None (recordChunks data)) 0.
Proof.
  intros Hlast Hsender Hnone. unfold wrote, bind. rewrite tlsWrite_run.
  destruct (handshakeDone (tls s)) eqn:Hdone.
  2:{ split; [done|]. split; [|intros _ [_ ?]; congruence].
      exists [], []. rewrite app_nil_r.
      repeat split; [constructor | apply prefix_nil]. }
  pose proof (writeRecords_cases APPLICATION_DATA (recordChunks data) s) as Hrun.
  cbv zeta in Hrun. rewrite blockShapes_unmarked.
  destruct (forEach _ _ s) as [[[]|e] s1]; cbn [fst snd] in *;
    destruct Hrun as (Hv & Hk & _ & (sent & recs & Hps & Hshapes & Hout) & Hret).
  - subst sent.
    assert (updateLastBlock TRANSCRIPT_MESSAGE_SENDER_TYPE_CLIENT (setReveal None) s1
            = (Returned tt, s1)) as ->.
    { destruct (decide (recs = [])) as [->|Hrecs].
      - rewrite app_nil_r in Hps. apply (updateLastBlock_unmarked ps r); congruence.
      - destruct (exists_last Hrecs) as (init & r' & ->).
        apply unmarked_records, Forall_app in Hshapes as [_ Hlast'].
        apply Forall_cons in Hlast' as [[Hs' Hr'] _].
        apply (updateLastBlock_unmarked (allPackets s ++ init) r'); [|done..].
        by rewrite Hps, <- app_assoc. }
    cbn [fst snd]. split; [done|]. split; [|by intros Hacc Hready; split; [|apply Hret]].
    exists (map (fun c => mkShape APPLICATION_DATA c (trafficKeyUpdates (tls s)) None)
              (recordChunks data)), recs.
    split; [done|]. split; [done|]. split; [done | lia].
  - split; [done|]. split; [|intros Hacc Hready; by destruct (Hret Hacc Hready)].
    destruct Hout as (c & rest & Hchunks).
    eexists _, recs. split; [done|]. split; [exact Hshapes|].
    rewrite Hchunks, map_app. by apply prefix_app_r.
Qed.

(** [writeWithReveal(data, false)] *)
Lemma writeWithReveal_secret data :
  writesShapes (writeWithReveal data false)
    (fun keys => keyUpdateShape keys
                 :: blockShapes (S keys) None (recordChunks data) ++ [keyUpdateShape (S keys)])
    2.
Proof.
  intros s. unfold writeWithReveal.
  pose proof (tlsUpdateTrafficKeys_writesShapes s) as Hfirst.
  change (keyUpdateShape (trafficKeyUpdates (tls s))
          :: blockShapes (S (trafficKeyUpdates (tls s))) None (recordChunks data)
             ++ [keyUpdateShape (S (trafficKeyUpdates (tls s)))])
    with ([keyUpdateShape (trafficKeyUpdates (tls s))]
          ++ (blockShapes (S (trafficKeyUpdates (tls s))) None (recordChunks data)
              ++ [keyUpdateShape (S (trafficKeyUpdates (tls s)))])).
  change 2%nat with (1 + (0 + 1))%nat.
  apply wrote_seq; [exact Hfirst|].
  intros s1 Hs1 Hk1. rewrite Hs1 in Hfirst.
  destruct Hfirst as (_ & (w & recs & Hps & Hshapes & [-> _]) & _). cbn [fst snd] in *.
  apply Forall2_cons_inv_l in Hshapes as (r & ? & (Hsender & _ & Hnone & _) & Hnil & ->).
  apply Forall2_nil_inv_l in Hnil as ->.
  replace (S (trafficKeyUpdates (tls s))) with (trafficKeyUpdates (tls s1)) by lia.
  assert (forall s0 : APITLSClient,
            (tlsWrite data ;;
             updateLastBlock TRANSCRIPT_MESSAGE_SENDER_TYPE_CLIENT (setReveal None) ;;
             tlsUpdateTrafficKeys) s0
            = ((tlsWrite data ;;
                updateLastBlock TRANSCRIPT_MESSAGE_SENDER_TYPE_CLIENT (setReveal None)) ;;
               tlsUpdateTrafficKeys) s0) as ->
    by (intros s0; by rewrite bind_assoc).
  apply wrote_seq; [by apply (tlsWrite_unmarked data s1 (allPackets s) r)|].
  intros s2 _ Hk2. replace (trafficKeyUpdates (tls s1)) with (trafficKeyUpdates (tls s2)) by lia.
  apply tlsUpdateTrafficKeys_writesShapes.
Qed.

(** [writeWithReveal(block, true)] for a block that is not empty. *)
Lemma writeWithReveal_disclosed block :
  block <> [] ->
  writesShapes (writeWithReveal block true)
    (fun keys => blockShapes keys (Some Complete) (recordChunks block)) 0.
Proof.
  intros Hne. eapply writesShapes_ext; [| |reflexivity|apply (tlsWrite_marked (Some Complete) block Hne)].
  - intros s. unfold writeWithReveal. rewrite bind_ret_l.
    by rewrite <- bind_assoc, bind_ret_r.
  - done.
Qed.

End Compose.

(** ** The spans of a buffer *)

Lemma ascendingFrom_lower lo slices sl :
  ascendingFrom lo slices -> sl ∈ slices -> lo <= fromIndex sl /\ fromIndex sl <= toIndex sl.
Proof.
  revert lo. induction slices as [|sl' rest IH]; intros lo Hasc Hin.
  - by apply elem_of_nil in Hin.
  - destruct Hasc as (Hlo & Hle & Hrest).
    apply elem_of_cons in Hin as [->|Hin]; [done|].
    destruct (IH _ Hrest Hin). lia.
Qed.

(** A disclosed span lies after the cursor and outside every slice. *)
Lemma alternatingSpans_avoid len slices : forall cursor sp,
  ascendingFrom cursor slices ->
  sp ∈ alternatingSpans len cursor slices ->
  disclosed sp = true ->
  cursor <= spanFrom sp
  /\ forall sl i, sl ∈ slices -> spanFrom sp <= i < spanTo sp -> inSlice i sl = false.
Proof.
  induction slices as [|sl rest IH]; intros cursor sp Hasc Hin Hdisc; simpl in Hin.
  - unfold disclosedSpan in Hin. destruct (_ <? _); [|by apply elem_of_nil in Hin].
    apply list_elem_of_singleton in Hin as ->. simpl. split; [lia|].
    intros sl i Hsl. by apply elem_of_nil in Hsl.
  - destruct Hasc as (Hlo & Hle & Hrest).
    apply elem_of_app in Hin as [Hin|Hin].
    + unfold disclosedSpan in Hin. destruct (_ <? _); [|by apply elem_of_nil in Hin].
      apply list_elem_of_singleton in Hin as ->. simpl. split; [lia|].
      intros sl' i Hsl' Hi. unfold inSlice.
      apply elem_of_cons in Hsl' as [->|Hsl'].
      * apply andb_false_iff. left. apply Z.leb_gt. lia.
      * destruct (ascendingFrom_lower _ _ _ Hrest Hsl').
        apply andb_false_iff. left. apply Z.leb_gt. lia.
    + apply elem_of_cons in Hin as [->|Hin]; [done|].
      destruct (IH _ _ Hrest Hin Hdisc) as [Hfrom Havoid].
      split; [lia|].
      intros sl' i Hsl' Hi.
      apply elem_of_cons in Hsl' as [->|Hsl']; [|by apply Havoid].
      unfold inSlice. apply andb_false_iff. right. apply Z.ltb_ge. lia.
Qed.

Lemma alternatingSpans_secret len slices : forall cursor sl,
  sl ∈ slices -> mkSpan (fromIndex sl) (toIndex sl) false ∈ alternatingSpans len cursor slices.
Proof.
  induction slices as [|sl' rest IH]; intros cursor sl Hin; simpl.
  - by apply elem_of_nil in Hin.
  - apply elem_of_app. right.
    apply elem_of_cons in Hin as [->|Hin]; [by left|].
    right. by apply IH.
Qed.

(** The spans begin at the cursor or after it, and are ranges. *)
Lemma alternatingSpans_bounds len slices : forall cursor sp,
  ascendingFrom cursor slices ->
  sp ∈ alternatingSpans len cursor slices ->
  cursor <= spanFrom sp /\ spanFrom sp <= spanTo sp.
Proof.
  induction slices as [|sl rest IH]; intros cursor sp Hasc Hin; simpl in Hin.
  - unfold disclosedSpan in Hin. destruct (Z.ltb_spec (Z.min cursor len) (Z.min len len));
      [|by apply elem_of_nil in Hin].
    apply list_elem_of_singleton in Hin as ->. simpl. lia.
  - destruct Hasc as (Hlo & Hle & Hrest).
    apply elem_of_app in Hin as [Hin|Hin].
    + unfold disclosedSpan in Hin. destruct (_ <? _); [|by apply elem_of_nil in Hin].
      apply list_elem_of_singleton in Hin as ->. simpl. lia.
    + apply elem_of_cons in Hin as [->|Hin]; [simpl; lia|].
      destruct (IH _ _ Hrest Hin). lia.
Qed.

Section KeyUpdate.
Context `{Capabilities}.

Lemma spansShapes_app data (l1 l2 : list Span) : forall keys,
  Forall (fun sp => disclosed sp = true) l1 ->
  spansShapes data keys (l1 ++ l2) = spansShapes data keys l1 ++ spansShapes data keys l2.
Proof.
  induction l1 as [|sp l1 IH]; intros keys Hl1; [done|].
  apply Forall_cons in Hl1 as [Hsp Hl1]. cbn [app spansShapes].
  by rewrite Hsp, IH, app_assoc.
Qed.

Lemma disclosedSpan_disclosed len a b :
  Forall (fun sp => disclosed sp = true) (disclosedSpan len a b).
Proof. unfold disclosedSpan. destruct (_ <? _); by repeat constructor. Qed.

(** A block between or around the slices, written when it is not empty. *)
Lemma disclosedBlock_writesShapes data a b :
  0 <= a -> 0 <= b ->
  writesShapes
    (let block := slice data a b in
     if nonEmpty block then writeWithReveal block true else ret tt)
    (fun keys => spansShapes data keys (disclosedSpan (Z.of_nat (length data)) a b)) 0.
Proof.
  intros Ha Hb. cbv zeta. unfold disclosedSpan.
  rewrite <- nonEmpty_slice by done.
  destruct (nonEmpty (slice data a b)) eqn:Hne.
  - eapply writesShapes_ext; [done | | done | apply writeWithReveal_disclosed].
    + intros keys. cbn [spansShapes spanShapes disclosed]. by rewrite app_nil_r.
    + by destruct (slice data a b).
  - apply writesShapes_ret.
Qed.

Lemma writeSections_writesShapes data sections : forall cursor,
  0 <= cursor ->
  ascendingFrom cursor sections ->
  writesShapes
    (writeSections data sections cursor ;;
     let block := sliceFrom data
       (match last sections with Some sl => toIndex sl | None => cursor end) in
     if nonEmpty block then writeWithReveal block true else ret tt)
    (fun keys => spansShapes data keys
                   (alternatingSpans (Z.of_nat (length data)) cursor sections))
    (2 * length sections).
Proof.
  induction sections as [|sl rest IH]; intros cursor Hcur Hasc.
  - eapply writesShapes_ext;
      [| | |apply (disclosedBlock_writesShapes data cursor (Z.of_nat (length data)))];
      [|done|done|done|lia].
    intros s. cbn [writeSections last]. by rewrite bind_ret_l.
  - destruct Hasc as (Hlo & Hle & Hrest).
    eapply writesShapes_ext.
    4:{ apply writesShapes_bind;
          [apply (disclosedBlock_writesShapes data cursor (fromIndex sl)); lia|].
        apply writesShapes_bind;
          [apply (writeWithReveal_secret (slice data (fromIndex sl) (toIndex sl)))|].
        apply (IH (toIndex sl)); [lia | done]. }
    + intros s. cbn [writeSections].
      assert (match last (sl :: rest) with Some x => toIndex x | None => cursor end
              = match last rest with Some x => toIndex x | None => toIndex sl end) as ->.
      { change (sl :: rest) with ([sl] ++ rest). rewrite last_app. by destruct (last rest). }
      unfold bind.
      repeat match goal with
             | |- context [match ?x with pair _ _ => _ end] => destruct x as [[[]|?] ?]
             end; done.
    + intros keys. cbn [alternatingSpans].
      rewrite spansShapes_app by apply disclosedSpan_disclosed.
      cbn [spansShapes spanShapes disclosed spanBytes spanFrom spanTo].
      rewrite !Nat.add_0_r. unfold spanBytes. cbn [spanFrom spanTo].
      by replace (keys + 2)%nat with (S (S keys)) by lia.
    + cbn [length]. lia.
Qed.

(** [writeRedactedWithKeyUpdate]: its records are those of the alternating
    spans of the buffer, and it rotates twice for every slice. *)
Lemma writeRedactedWithKeyUpdate_writesShapes data sections :
  disjointAscending sections ->
  writesShapes (writeRedactedWithKeyUpdate data sections)
    (fun keys => spansShapes data keys (alternatingSpans (Z.of_nat (length data)) 0 sections))
    (2 * length sections).
Proof.
  intros Hasc.
  eapply writesShapes_ext; [|done|done|by apply (writeSections_writesShapes data sections 0)].
  intros s. unfold writeRedactedWithKeyUpdate, lastBlockStart. done.
Qed.

End KeyUpdate.

Lemma blockShapes_elem keys mark (chunks : list bytes) sh :
  sh ∈ blockShapes keys mark chunks ->
  shapeType sh = APPLICATION_DATA /\ shapeData sh ∈ chunks /\ shapeKeys sh = keys
  /\ (shapeReveal sh = None \/ shapeReveal sh = mark).
Proof.
  induction chunks as [|c chunks IH]; intros Hin; [by apply elem_of_nil in Hin|].
  destruct chunks as [|c' chunks].
  - apply list_elem_of_singleton in Hin as ->. simpl.
    repeat split; [apply list_elem_of_here | by right].
  - change (blockShapes keys mark (c :: c' :: chunks))
      with (mkShape APPLICATION_DATA c keys None :: blockShapes keys mark (c' :: chunks)) in Hin.
    apply elem_of_cons in Hin as [->|Hin].
    + simpl. repeat split; [apply list_elem_of_here | by left].
    + destruct (IH Hin) as (? & ? & ? & ?). repeat split; [done | by apply list_elem_of_further | done..].
Qed.

Section KeyUpdateFacts.
Context `{Capabilities}.

(** A record that is to be marked Complete holds a range of the buffer that
    lies inside a disclosed span; every other record is to have no
    decision. *)
Lemma spansShapes_complete data (spans : list Span) : forall keys sh,
  Forall (fun sp => 0 <= spanFrom sp /\ 0 <= spanTo sp) spans ->
  sh ∈ spansShapes data keys spans ->
  shapeReveal sh = None
  \/ (shapeReveal sh = Some Complete /\ shapeType sh = APPLICATION_DATA
      /\ exists sp a b, sp ∈ spans /\ disclosed sp = true
           /\ spanFrom sp <= a /\ a <= b /\ b <= spanTo sp
           /\ shapeData sh = slice data a b).
Proof.
  induction spans as [|sp spans IH]; intros keys sh Hwf Hin; [by apply elem_of_nil in Hin|].
  apply Forall_cons in Hwf as [[Hfrom Hto] Hwf].
  cbn [spansShapes] in Hin. apply elem_of_app in Hin as [Hin|Hin].
  - unfold spanShapes in Hin. destruct (disclosed sp) eqn:Hdisc.
    + apply blockShapes_elem in Hin as (Htype & Hdata & _ & [Hnone|Hmark]); [by left|].
      right. split; [done|]. split; [done|].
      unfold recordChunks, spanBytes in Hdata.
      apply chunksOf_slices in Hdata as (a & b & ? & ? & ? & Heq); [|done..].
      exists sp, a, b. repeat split; [apply list_elem_of_here | done..].
    + left. apply elem_of_cons in Hin as [->|Hin]; [done|].
      apply elem_of_app in Hin as [Hin|Hin].
      * by apply blockShapes_elem in Hin as (_ & _ & _ & [?|?]).
      * by apply list_elem_of_singleton in Hin as ->.
  - destruct (IH _ _ Hwf Hin) as [?|(? & ? & sp' & a & b & ? & ?)]; [by left|].
    right. split; [done|]. split; [done|]. exists sp', a, b.
    split; [by apply list_elem_of_further | done].
Qed.

(** A span that fits in one record is one record. *)
Lemma spanShapes_short data keys sp :
  spanBytes data sp <> [] ->
  (length (spanBytes data sp) <= Pos.to_nat MAX_ENC_PACKET_SIZE)%nat ->
  spanShapes data keys sp
  = if disclosed sp
    then [mkShape APPLICATION_DATA (spanBytes data sp) keys (Some Complete)]
    else [keyUpdateShape keys;
          mkShape APPLICATION_DATA (spanBytes data sp) (S keys) None;
          keyUpdateShape (S keys)].
Proof.
  intros Hne Hlen. unfold spanShapes. rewrite recordChunks_single by done.
  by destruct (disclosed sp).
Qed.

(** The keys of the records: a record that is to be marked Complete is
    encrypted after an even number of rotations of this write. *)
Lemma spansShapes_complete_keys data (spans : list Span) : forall keys sh,
  sh ∈ spansShapes data keys spans -> shapeReveal sh = Some Complete ->
  exists j : nat, shapeKeys sh = (keys + 2 * j)%nat.
Proof.
  induction spans as [|sp spans IH]; intros keys sh Hin Hmark; [by apply elem_of_nil in Hin|].
  cbn [spansShapes] in Hin. apply elem_of_app in Hin as [Hin|Hin].
  - unfold spanShapes in Hin. destruct (disclosed sp).
    + apply blockShapes_elem in Hin as (_ & _ & -> & _). exists 0%nat. lia.
    + apply elem_of_cons in Hin as [->|Hin]; [done|].
      apply elem_of_app in Hin as [Hin|Hin].
      * apply blockShapes_elem in Hin as (_ & _ & _ & [?|?]); congruence.
      * by apply list_elem_of_singleton in Hin as ->.
  - destruct (IH _ _ Hin Hmark) as [j Hj]. destruct (disclosed sp).
    + by exists j.
    + exists (S j). lia.
Qed.

(** The records of a slice lie between two key updates, and are encrypted
    after an odd number of rotations of this write. *)
Lemma spansShapes_secret_keys data (spans : list Span) : forall keys sp,
  sp ∈ spans -> disclosed sp = false ->
  exists (j : nat) pre post,
    spansShapes data keys spans
    = pre ++ (keyUpdateShape (keys + 2 * j)
              :: blockShapes (S (keys + 2 * j)) None (recordChunks (spanBytes data sp))
              ++ [keyUpdateShape (S (keys + 2 * j))]) ++ post.
Proof.
  induction spans as [|sp' spans IH]; intros keys sp Hin Hsecret; [by apply elem_of_nil in Hin|].
  cbn [spansShapes]. apply elem_of_cons in Hin as [<-|Hin].
  - exists 0%nat, [], (spansShapes data (if disclosed sp then keys else S (S keys)) spans).
    unfold spanShapes. rewrite Hsecret, Nat.mul_0_r, Nat.add_0_r. done.
  - destruct (IH (if disclosed sp' then keys else S (S keys)) sp Hin Hsecret)
      as (j & pre & post & ->).
    destruct (disclosed sp').
    + exists j, (spanShapes data keys sp' ++ pre), post. by rewrite <- app_assoc.
    + exists (S j), (spanShapes data keys sp' ++ pre), post. rewrite <- app_assoc.
      by replace (S (S keys) + 2 * j)%nat with (keys + 2 * S j)%nat by lia.
Qed.

(** A record that carries data is application data whatever the version:
    the scan of [finish] stops at it and leaves it alone. *)
Lemma finish_keeps_data_records (s : APITLSClient) pre r post :
  noSession (sessionId s) = false ->
  allPackets s = pre ++ r :: post ->
  sender r = TRANSCRIPT_MESSAGE_SENDER_TYPE_CLIENT ->
  carriesData r = true ->
  allPackets (finish s).2 !! length pre = Some r.
Proof.
  intros Hsid Hps Hs Hdata. rewrite finish_allPackets by done.
  apply finishMarks_client; [|done].
  rewrite Hps, revealClientHandshake_after; [| done | | done].
  - by rewrite lookup_app_r, Nat.sub_diag.
  - unfold carriesData in Hdata. unfold isApplicationData.
    by destruct (ctx r) as [|? [[]|]].
Qed.

(** C1, as the code has it.  In key-update mode, for every buffer and every
    list of ascending, disjoint RedactedSlices, [write] appends only records
    of the client, those of the alternating spans of the buffer in their
    order: the bytes of a span between or around the slices go into records
    of their own, as many as the engine needs for them, of which the last is
    marked Complete and the others have no decision; before a slice the keys
    are rotated, the bytes of the slice go into records of their own that
    have no decision, and the keys are rotated again; the records of the
    rotations have no decision either.  So a record that is marked Complete
    holds a range of the buffer that lies inside a span between or around
    the slices, and no position of such a span lies in a slice: no record
    marked Complete holds a byte of a slice.  [finish] does not change this,
    it leaves the records that carry data as they are.  A span of at most
    [MAX_ENC_PACKET_SIZE] bytes is one record.  When [write] throws on the
    way, what it has appended is the first few of these records. *)
Theorem keyUpdate_write_keeps_slices_undisclosed (s : APITLSClient)
    (data : bytes) (sections : list ArraySlice) :
  defaultWriteRedactionMode s = KeyUpdate ->
  disjointAscending sections ->
  let spans := alternatingSpans (Z.of_nat (length data)) 0 sections in
  let expected := spansShapes data (trafficKeyUpdates (tls s)) spans in
  let s' := (write data sections s).2 in
  (exists recs written,
      allPackets s' = allPackets s ++ recs
      /\ written `prefix_of` expected
      /\ ((write data sections s).1 = Returned tt -> written = expected)
      /\ Forall2 (hasShape (tlsVersion (tls s))) written recs
      /\ forall s2 pre r post,
           r ∈ recs -> carriesData r = true ->
           noSession (sessionId s2) = false -> allPackets s2 = pre ++ r :: post ->
           allPackets (finish s2).2 !! length pre = Some r)
  /\ (forall sh, sh ∈ expected ->
        shapeReveal sh = None
        \/ (shapeReveal sh = Some Complete /\ shapeType sh = APPLICATION_DATA
            /\ exists sp a b, sp ∈ spans /\ disclosed sp = true
                 /\ spanFrom sp <= a /\ a <= b /\ b <= spanTo sp
                 /\ shapeData sh = slice data a b))
  /\ (forall sp sl i,
        sp ∈ spans -> disclosed sp = true -> sl ∈ sections ->
        spanFrom sp <= i < spanTo sp -> inSlice i sl = false)
  /\ (forall sl, sl ∈ sections -> mkSpan (fromIndex sl) (toIndex sl) false ∈ spans)
  /\ (forall keys sp,
        spanBytes data sp <> [] ->
        (length (spanBytes data sp) <= Pos.to_nat MAX_ENC_PACKET_SIZE)%nat ->
        spanShapes data keys sp
        = if disclosed sp
          then [mkShape APPLICATION_DATA (spanBytes data sp) keys (Some Complete)]
          else [keyUpdateShape keys;
                mkShape APPLICATION_DATA (spanBytes data sp) (S keys) None;
                keyUpdateShape (S keys)]).
Proof.
  intros Hmode Hasc spans expected s'. split; [|split; [|split; [|split]]].
  - destruct (writeRedactedWithKeyUpdate_writesShapes data sections Hasc s)
      as (_ & (written & recs & Hps & Hshapes & Hout) & _).
    assert (write data sections s = writeRedactedWithKeyUpdate data sections s) as Hwrite.
    { unfold write, bind, gets. by rewrite Hmode. }
    subst s'. rewrite Hwrite.
    exists recs, written. split; [done|].
    split; [|split; [|split; [done|]]].
    + destruct (writeRedactedWithKeyUpdate data sections s).1; [by destruct Hout as [-> _] | done].
    + intros Hret. rewrite Hret in Hout. apply Hout.
    + intros s2 pre r post Hr Hdata Hsid Hps2.
      apply (finish_keeps_data_records s2 pre r post); [done | done | | done].
      apply list_elem_of_lookup in Hr as [k Hk].
      destruct (Forall2_lookup_r _ _ _ _ _ Hshapes Hk) as (sh & _ & Hcarries).
      apply Hcarries.
  - intros sh Hsh. apply (spansShapes_complete data spans (trafficKeyUpdates (tls s)) sh); [|done].
    apply Forall_forall. intros sp Hsp.
    destruct (alternatingSpans_bounds _ sections 0 sp Hasc Hsp). lia.
  - intros sp sl i Hsp Hdisc Hsl Hi.
    by eapply (alternatingSpans_avoid _ sections 0 sp).
  - intros sl Hsl. by apply alternatingSpans_secret.
  - intros keys sp. apply spanShapes_short.
Qed.

End KeyUpdateFacts.

Section ZkAndPlain.
Context `{Capabilities}.

Lemma redactSlices_length (total : bytes) slices :
  length (redactSlices total slices) = length total.
Proof. apply length_imap. Qed.

Lemma redactSlices_lookup (total : bytes) slices (k : nat) b :
  total !! k = Some b ->
  redactSlices total slices !! k
  = Some (if existsb (inSlice (Z.of_nat k)) slices then REDACTION_CHAR_CODE else b).
Proof. intros Hk. unfold redactSlices. by rewrite list_lookup_imap, Hk. Qed.

(** [tls.write(data)] followed by the assignment to the last client block,
    for a buffer that fits in one record: what the two leave when the relay
    accepts the record. *)
Lemma writeMarked_run data f (s : APITLSClient) i :
  noSession (sessionId s) = false ->
  handshakeDone (tls s) = true ->
  pushReply (pushCalls s) = inr i ->
  data <> [] -> (length data <= Pos.to_nat MAX_ENC_PACKET_SIZE)%nat ->
  (tlsWrite data ;; updateLastBlock TRANSCRIPT_MESSAGE_SENDER_TYPE_CLIENT f) s
  = (Returned tt,
     withPackets
       (allPackets s ++
        [f (mkCompletePacket (seal (tls s) APPLICATION_DATA data)
              (CtxCiphertext (wirePlaintext (tlsVersion (tls s)) APPLICATION_DATA data)
                 (Some APPLICATION_DATA))
              TRANSCRIPT_MESSAGE_SENDER_TYPE_CLIENT i None)])
       (withPushCalls (S (pushCalls s))
          (withTls (mkTLS (tlsVersion (tls s)) (handshakeDone (tls s))
                      (trafficKeyUpdates (tls s)) (S (recordsSealed (tls s)))
                      (endCalls (tls s))) s))).
Proof.
  intros Hsid Hdone Hpush Hne Hlen.
  assert (tlsWrite data s = writeRecord APPLICATION_DATA data s) as Hone.
  { rewrite tlsWrite_run, Hdone, recordChunks_single by done. apply bind_ret_r. }
  unfold bind at 1. rewrite Hone, writeRecord_run, onWrite_run.
  cbn [sessionId withTls pushCalls allPackets]. rewrite Hsid, Hpush.
  unfold updateLastBlock. cbn [allPackets withPackets].
  rewrite getLastBlock_snoc by done. by rewrite alter_snoc.
Qed.

(** Neither [tls.write] nor the decision for the last block rotates the
    keys. *)
Lemma writeMarked_keys data f (s : APITLSClient) :
  trafficKeyUpdates
    (tls ((tlsWrite data ;; updateLastBlock TRANSCRIPT_MESSAGE_SENDER_TYPE_CLIENT f) s).2)
  = trafficKeyUpdates (tls s).
Proof.
  unfold bind. rewrite tlsWrite_run. destruct (handshakeDone (tls s)); [|done].
  pose proof (writeRecords_cases APPLICATION_DATA (recordChunks data) s) as Hrun.
  cbv zeta in Hrun.
  destruct (forEach _ _ s) as [[[]|e] s1]; cbn [fst snd] in *;
    destruct Hrun as (_ & Hk & _); [|done].
  unfold updateLastBlock. by destruct (getLastBlock _ _).
Qed.

(** C2, as the code has it.  In zk mode [write] hands the whole buffer to
    the engine and then gives the last record of the client the decision ZK
    over the buffer with every byte that lies in a RedactedSlice replaced by
    the filler, the length unchanged.  For a buffer of at least one and at
    most [MAX_ENC_PACKET_SIZE] bytes, once the session is initialised, the
    handshake done and the record taken by the relay, that is exactly one
    record: a client record with the index the relay assigned, whose
    plaintext is the whole buffer as the engine frames it, with this
    decision; it is never marked Complete, and [finish] leaves it as it is.
    A longer buffer is cut into several records, of which the last alone has
    the decision, over the whole buffer, and the others have none.  For the
    empty buffer no record is written, and the decision, ZK over nothing,
    goes to the record that the client has sent last before.  For the
    request of scenario B and the slice that covers "secret123", the payload
    is the request with these nine bytes replaced by the filler. *)
Theorem zk_write_single_redacted_record (s : APITLSClient)
    (data : bytes) (sections : list ArraySlice) (i : Z) :
  defaultWriteRedactionMode s = Zk ->
  let mark := Some (ZK (redactSlices data sections)) in
  let expected := blockShapes (trafficKeyUpdates (tls s)) mark (recordChunks data) in
  (noSession (sessionId s) = false -> handshakeDone (tls s) = true ->
   pushReply (pushCalls s) = inr i ->
   data <> [] -> (length data <= Pos.to_nat MAX_ENC_PACKET_SIZE)%nat ->
   exists r,
      (write data sections s).1 = Returned tt
      /\ allPackets (write data sections s).2 = allPackets s ++ [r]
      /\ sender r = TRANSCRIPT_MESSAGE_SENDER_TYPE_CLIENT
      /\ index r = i
      /\ ctx r = CtxCiphertext (wirePlaintext (tlsVersion (tls s)) APPLICATION_DATA data)
                   (Some APPLICATION_DATA)
      /\ reveal r = Some (ZK (redactSlices data sections))
      /\ reveal r <> Some Complete
      /\ forall s2 pre post,
           noSession (sessionId s2) = false -> allPackets s2 = pre ++ r :: post ->
           allPackets (finish s2).2 !! length pre = Some r)
  /\ (data <> [] ->
      exists recs written,
        allPackets (write data sections s).2 = allPackets s ++ recs
        /\ written `prefix_of` expected
        /\ ((write data sections s).1 = Returned tt -> written = expected)
        /\ Forall2 (hasShape (tlsVersion (tls s))) written recs)
  /\ (data = [] -> handshakeDone (tls s) = true ->
      write data sections s
      = updateLastBlock TRANSCRIPT_MESSAGE_SENDER_TYPE_CLIENT (setReveal (Some (ZK []))) s)
  /\ length (redactSlices data sections) = length data
  /\ (forall (k : nat) b, data !! k = Some b ->
        redactSlices data sections !! k
        = Some (if existsb (inSlice (Z.of_nat k)) sections then REDACTION_CHAR_CODE else b))
  /\ slice (strToUint8Array scenarioRequest) (fromIndex scenarioSecret) (toIndex scenarioSecret)
     = strToUint8Array "secret123"
  /\ redactSlices (strToUint8Array scenarioRequest) [scenarioSecret]
     = strToUint8Array (String.append "GET /x HTTP/1.1" (String.append crlf "Authorization: "))
       ++ replicate 9 REDACTION_CHAR_CODE
       ++ strToUint8Array (String.append crlf crlf).
Proof.
  intros Hmode mark expected. subst mark expected.
  assert (write data sections s = writeRedactedZk data sections s) as ->.
  { unfold write, bind, gets. by rewrite Hmode. }
  split; [|split; [|split; [|split; [|split; [|split]]]]].
  - intros Hsid Hdone Hpush Hne Hlen.
    unfold writeRedactedZk. rewrite (writeMarked_run _ _ s i) by done.
    eexists. split; [done|]. split; [reflexivity|].
    repeat split; try done.
    intros s2 pre post Hsid2 Hps2.
    by apply (finish_keeps_data_records s2 pre _ post).
  - intros Hne. unfold writeRedactedZk.
    destruct (tlsWrite_marked (Some (ZK (redactSlices data sections))) data Hne s)
      as (_ & (written & recs & Hps & Hshapes & Hout) & _).
    exists recs, written. split; [done|].
    split; [|split; [|done]].
    + destruct (_ s).1; [by destruct Hout as [-> _] | done].
    + intros Hret. rewrite Hret in Hout. apply Hout.
  - intros -> Hdone. unfold writeRedactedZk, bind at 1.
    by rewrite tlsWrite_run, Hdone.
  - apply redactSlices_length.
  - intros k b. apply redactSlices_lookup.
  - reflexivity.
  - reflexivity.
Qed.

(** C10, as the code has it.  In key-update mode with no RedactedSlice,
    [write] hands the whole buffer, if it is not empty, to the engine and
    marks the last record Complete; it never rotates the traffic keys.  For
    a buffer of at least one and at most [MAX_ENC_PACKET_SIZE] bytes, once
    the session is initialised, the handshake done and the record taken by
    the relay, [write] returns and has appended exactly one record: a client
    record marked Complete whose plaintext is the whole buffer as the engine
    frames it.  A longer buffer is cut into several records, of which the
    last alone is marked Complete and the others have no decision.  [write]
    of the empty buffer returns and has done nothing. *)
Theorem keyUpdate_write_without_slices (s : APITLSClient) (data : bytes) (i : Z) :
  defaultWriteRedactionMode s = KeyUpdate ->
  let expected :=
    blockShapes (trafficKeyUpdates (tls s)) (Some Complete) (recordChunks data) in
  trafficKeyUpdates (tls (write data [] s).2) = trafficKeyUpdates (tls s)
  /\ (noSession (sessionId s) = false -> handshakeDone (tls s) = true ->
      pushReply (pushCalls s) = inr i ->
      data <> [] -> (length data <= Pos.to_nat MAX_ENC_PACKET_SIZE)%nat ->
      (write data [] s).1 = Returned tt
      /\ exists r,
        allPackets (write data [] s).2 = allPackets s ++ [r]
        /\ sender r = TRANSCRIPT_MESSAGE_SENDER_TYPE_CLIENT
        /\ index r = i
        /\ ctx r = CtxCiphertext (wirePlaintext (tlsVersion (tls s)) APPLICATION_DATA data)
                     (Some APPLICATION_DATA)
        /\ reveal r = Some Complete)
  /\ (exists recs written,
        allPackets (write data [] s).2 = allPackets s ++ recs
        /\ written `prefix_of` expected
        /\ ((write data [] s).1 = Returned tt -> written = expected)
        /\ Forall2 (hasShape (tlsVersion (tls s))) written recs)
  /\ (data = [] -> write data [] s = (Returned tt, s)).
Proof.
  intros Hmode expected. subst expected.
  assert (write data [] s =
          (if nonEmpty data then writeWithReveal data true else ret tt) s) as ->.
  { unfold write, bind, gets. rewrite Hmode.
    unfold writeRedactedWithKeyUpdate, lastBlockStart. simpl. by rewrite sliceFrom_0. }
  assert (writeWithReveal data true s
          = (tlsWrite data ;;
             updateLastBlock TRANSCRIPT_MESSAGE_SENDER_TYPE_CLIENT
               (setReveal (Some Complete))) s) as Hmarked.
  { unfold writeWithReveal. rewrite bind_ret_l. by rewrite <- bind_assoc, bind_ret_r. }
  destruct data as [|b data].
  - split; [done|]. split; [by intros _ _ _ ?|]. split; [|done].
    exists [], []. rewrite app_nil_r. repeat split; done || constructor.
  - change (nonEmpty (b :: data)) with true. cbv iota. rewrite Hmarked.
    split; [apply writeMarked_keys|]. split; [|split; [|done]].
    + intros Hsid Hdone Hpush Hne Hlen. rewrite (writeMarked_run _ _ s i) by done.
      split; [done|]. eexists. split; [reflexivity|]. done.
    + destruct (tlsWrite_marked (Some Complete) (b :: data) ltac:(done) s)
        as (_ & (written & recs & Hps & Hshapes & Hout) & _).
      exists recs, written. split; [done|].
      split; [|split; [|done]].
      * destruct (_ s).1; [by destruct Hout as [-> _] | done].
      * intros Hret. rewrite Hret in Hout. apply Hout.
Qed.

End ZkAndPlain.

(** ** Indices of the transcript *)




Lemma revealOnly_skeleton who ps qs :
  revealOnly who ps qs -> map skeleton ps = map skeleton qs.
Proof.
  induction 1 as [|p q ps qs Hpq _ IH]; simpl; [done|].
  f_equal; [|done]. by destruct Hpq as [->|[_ [r ->]]].
Qed.




Section Indices.
Context `{Capabilities}.














(** [cancel] once the session check has passed. *)
Lemma cancel_run (s : APITLSClient) :
  noSession (sessionId s) = false ->
  cancel s =
  let s1 := withCancelCalls (S (cancelCalls s)) (abortPull s).2 in
  match cancelReply (cancelCalls s) with
  | Some e => (Thrown e, s1)
  | None => tlsEnd None s1
  end.
Proof.
  intros Hsid. unfold cancel, bind at 1, gets at 1. rewrite Hsid.
  unfold bind at 1. rewrite abortPull_run. cbn [snd]. unfold bind, cancelSession.
  assert (cancelCalls
            match pullFromSessionAbort s with
            | Some aborted =>
                if listening s && negb aborted
                then (tlsEnd None (withListening false (withAbort (Some true) s))).2
                else withAbort (Some true) s
            | None => s
            end = cancelCalls s) as ->.
  { destruct (pullFromSessionAbort s) as [aborted|]; [|done].
    by destruct (listening s && negb aborted). }
  by destruct (cancelReply _).
Qed.

Lemma cancel_allPackets (s : APITLSClient) : allPackets (cancel s).2 = allPackets s.
Proof.
  destruct (noSession (sessionId s)) eqn:Hsid.
  - unfold cancel, bind, gets. by rewrite Hsid.
  - rewrite cancel_run by done. cbv zeta.
    destruct (cancelReply _); cbn; apply abortPull_allPackets.
Qed.





End Indices.

(** ** Cancelling, and ending the pull loop *)

Section Lifecycle.
Context `{Capabilities}.

(** C8.  While no session id has been assigned, [cancel] and [finish]
    throw the InvalidState error and change nothing: the closure, the
    transcript in it included, is what it was.  This is so before
    [initialise] and also after an [initialise] that the relay rejected. *)
Theorem finish_cancel_need_session (s : APITLSClient) :
  noSession (sessionId s) = true ->
  cancel s = (Thrown InvalidState, s)
  /\ finish s = (Thrown InvalidState, s)
  /\ (forall e, initialiseReply = inl e -> initialise s = (Thrown e, s)).
Proof.
  intros Hsid. split; [|split].
  - unfold cancel, bind, gets. by rewrite Hsid.
  - unfold finish, bind, gets. by rewrite Hsid.
  - intros e He. unfold initialise. by rewrite He.
Qed.

(** C7, as the code has it.  After a [cancel] that returned, the session id
    is still there, so a second [cancel] passes the check and asks the relay
    again: it returns when the relay acknowledges this second cancelSession
    and throws the error of the relay when it does not.  In both cases the
    transcript is what it was: no record is appended. *)
Theorem cancel_again (s s1 : APITLSClient) :
  cancel s = (Returned tt, s1) ->
  noSession (sessionId s1) = false
  /\ allPackets (cancel s1).2 = allPackets s1
  /\ clientRecords (allPackets (cancel s1).2) = clientRecords (allPackets s1)
  /\ (cancel s1).1 = match cancelReply (cancelCalls s1) with
                     | None => Returned tt
                     | Some e => Thrown e
                     end.
Proof.
  intros Hfirst.
  assert (noSession (sessionId s) = false) as Hsid.
  { destruct (noSession (sessionId s)) eqn:Hsid; [|done].
    unfold cancel, bind, gets in Hfirst. by rewrite Hsid in Hfirst. }
  assert (sessionId s1 = sessionId s) as Hsame.
  { rewrite cancel_run in Hfirst by done. cbv zeta in Hfirst.
    destruct (cancelReply _); [done|]. injection Hfirst as <-.
    cbn. apply abortPull_sessionId. }
  split; [by rewrite Hsame|]. rewrite cancel_allPackets.
  split; [done|]. split; [done|].
  rewrite cancel_run by (by rewrite Hsame). cbv zeta.
  by destruct (cancelReply _).
Qed.

(** What the [try] block of [listenToDataFromServer] runs. *)
Lemma listenToDataFromServer_run result fin onReady (s : APITLSClient) :
  listenToDataFromServer result fin onReady s =
  match (forEach result (pullStep onReady) ;;
         match fin with
         | StreamClosed => ret tt
         | StreamFailed e => throw e
         end) s with
  | (Returned _, s1) => tlsEnd None (withListening false s1)
  | (Thrown error, s1) =>
      if includes (message error) "aborted" then tlsEnd None (withListening false s1)
      else (Thrown error, (tlsEnd (Some error) (withListening false s1)).2)
  end.
Proof.
  unfold listenToDataFromServer, bind at 1, tryCatch.
  destruct (forEach result (pullStep onReady) s) as [[[]|error] s1] eqn:Hloop.
  - rewrite !(bind_returned _ _ s tt s1 Hloop).
    destruct fin as [|e]; unfold bind, throw, modify, ret; [done|].
    by destruct (includes _ _).
  - rewrite !(bind_thrown _ _ s error s1 Hloop).
    unfold bind, modify. by destruct (includes _ _).
Qed.

(** C6, as the code has it.  For every error raised inside the pull loop,
    by the stream or while a record is handled: when the message of the
    error contains "aborted", which is how the loop recognises that the
    caller has aborted the pull, the error is swallowed, the loop ends the
    TLS session without an error and returns; otherwise the TLS session is
    ended with this error and then the error is thrown to the caller.  On
    every path the last thing done to the TLS session is to end it. *)
Theorem pull_loop_errors (result : list PullFromSessionResponse) (fin : StreamEnd)
    (onReady : Client unit) (s s1 : APITLSClient) (error : JsError) :
  (forEach result (pullStep onReady) ;;
   match fin with
   | StreamClosed => ret tt
   | StreamFailed e => throw e
   end) s = (Thrown error, s1) ->
  let after := (listenToDataFromServer result fin onReady s).2 in
  allPackets after = allPackets s1
  /\ (includes (message error) "aborted" = true ->
      (listenToDataFromServer result fin onReady s).1 = Returned tt
      /\ endCalls (tls after) = endCalls (tls s1) ++ [None])
  /\ (includes (message error) "aborted" = false ->
      (listenToDataFromServer result fin onReady s).1 = Thrown error
      /\ endCalls (tls after) = endCalls (tls s1) ++ [Some error]).
Proof.
  intros Hloop after. subst after. rewrite listenToDataFromServer_run, Hloop.
  destruct (includes _ _); repeat split; done.
Qed.

End Lifecycle.

(** ** The write of the request *)

(** C5.  When [apiClient.write] throws in the middle of the request: if the
    error is a ClientError with the code FAILED_PRECONDITION whose message
    contains "session is closed", [generateProviderReceipt] does not throw
    it but goes on to wait for the end of the stream, and when that wait
    ends with an error, this error, not the one of the write, is what the
    caller gets; when the wait ends well the receipt is produced as usual.
    Every other error of the write is thrown at once, before any waiting. *)
Theorem write_error_waits_for_stream_end {W Blocks Receipt}
    (p : ProviderSession W Blocks Receipt) (w w1 w2 : W) (err : JsError) :
  apiConnect p (onStep p StepConnecting w) = (Returned tt, w1) ->
  apiWrite p (onStep p StepSendingRequestData w1) = (Thrown err, w2) ->
  let tolerated :=
    match errClass err with
    | ClientError FAILED_PRECONDITION => includes (message err) "session is closed"
    | _ => false
    end in
  let waiting := waitForAllData p (onStep p StepWaitingForResponse w2) in
  generateProviderReceipt p w =
  if tolerated then
    match waiting with
    | (Thrown streamError, w3) => (Thrown streamError, w3)
    | (Returned _, w3) => afterAllData p w3
    end
  else (Thrown err, w2).
Proof.
  intros Hconnect Hwrite tolerated waiting. subst waiting.
  assert (tolerated = sessionClosedDuringWrite err) as ->.
  { subst tolerated. unfold sessionClosedDuringWrite.
    destruct (errClass err) as [| |[]]; done. }
  unfold generateProviderReceipt, bind at 1, modify at 1.
  unfold bind at 1. rewrite Hconnect.
  unfold bind at 1, modify at 1.
  unfold bind at 1, tryCatch. rewrite Hwrite.
  destruct (sessionClosedDuringWrite err); [|done]. simpl.
  unfold bind at 1, modify at 1.
  unfold bind at 1. by destruct (waitForAllData p _) as [[[]|e] w3].
Qed.

(** * More of the client *)

(** ** Writing before the session is initialised *)

Section Early.
Context `{Capabilities}.

Lemma writeRecord_early ct data (s : APITLSClient) :
  noSession (sessionId s) = true ->
  exists s1, writeRecord ct data s = (Thrown (Error "Too early to write"), s1)
             /\ untouched s s1.
Proof.
  intros Hsid. rewrite writeRecord_run, onWrite_run. cbn [sessionId withTls].
  rewrite Hsid. eexists. split; [reflexivity|]. by repeat split.
Qed.

Lemma tlsWrite_early data (s : APITLSClient) :
  handshakeDone (tls s) = false ->
  tlsWrite data s = (Thrown (Error "Handshake not done"), s).
Proof. intros Hdone. by rewrite tlsWrite_run, Hdone. Qed.

Lemma tlsUpdateTrafficKeys_early (s : APITLSClient) :
  noSession (sessionId s) = true ->
  exists s1, tlsUpdateTrafficKeys s = (Thrown (Error "Too early to write"), s1)
             /\ untouched s s1.
Proof.
  intros Hsid. unfold tlsUpdateTrafficKeys.
  destruct (writeRecord_early HANDSHAKE keyUpdateMessage s Hsid) as (s1 & Hrun & Hsame).
  exists s1. split; [by apply bind_thrown | done].
Qed.

Lemma writeWithReveal_early data b (s : APITLSClient) :
  noSession (sessionId s) = true -> handshakeDone (tls s) = false ->
  exists e s1, writeWithReveal data b s = (Thrown e, s1) /\ untouched s s1.
Proof.
  intros Hsid Hdone. unfold writeWithReveal. destruct b.
  - rewrite bind_ret_l. eexists _, s.
    split; [by apply bind_thrown, tlsWrite_early | done].
  - destruct (tlsUpdateTrafficKeys_early s Hsid) as (s1 & Hrun & Hsame).
    eexists _, s1. split; [by apply bind_thrown | done].
Qed.

Lemma writeSections_early data sl rest cursor (s : APITLSClient) :
  noSession (sessionId s) = true -> handshakeDone (tls s) = false ->
  exists e s1, writeSections data (sl :: rest) cursor s = (Thrown e, s1) /\ untouched s s1.
Proof.
  intros Hsid Hdone. cbn [writeSections].
  destruct (nonEmpty (slice data cursor (fromIndex sl))).
  - destruct (writeWithReveal_early (slice data cursor (fromIndex sl)) true s Hsid Hdone)
      as (e & s1 & Hrun & Hsame).
    exists e, s1. split; [by apply bind_thrown | done].
  - rewrite bind_ret_l.
    destruct (writeWithReveal_early (slice data (fromIndex sl) (toIndex sl)) false s Hsid Hdone)
      as (e & s1 & Hrun & Hsame).
    exists e, s1. split; [by apply bind_thrown | done].
Qed.

(** X1.  Before the session is initialised, when no session id has been
    assigned and the handshake is not done, [write] sends nothing: the
    transcript and the number of pushes made to the relay are what they
    were.  In zk mode it throws the error "Handshake not done" with which
    the engine refuses to write; in key-update mode it throws as soon as
    there is something to write or a key to rotate, that is unless the
    buffer is empty and there is no RedactedSlice; in that one case it
    returns, having done nothing. *)
Theorem write_before_initialise (s : APITLSClient)
    (data : bytes) (sections : list ArraySlice) :
  noSession (sessionId s) = true ->
  handshakeDone (tls s) = false ->
  allPackets (write data sections s).2 = allPackets s
  /\ pushCalls (write data sections s).2 = pushCalls s
  /\ match defaultWriteRedactionMode s, sections, data with
     | KeyUpdate, [], [] => (write data sections s).1 = Returned tt
     | KeyUpdate, _, _ => exists e, (write data sections s).1 = Thrown e
     | Zk, _, _ => (write data sections s).1 = Thrown (Error "Handshake not done")
     end.
Proof.
  intros Hsid Hdone. unfold write.
  rewrite (bind_returned _ _ s (defaultWriteRedactionMode s) s) by done.
  destruct (defaultWriteRedactionMode s).
  - unfold writeRedactedWithKeyUpdate.
    destruct sections as [|sl rest].
    + cbn [writeSections]. rewrite bind_ret_l.
      unfold lastBlockStart. cbn [last]. rewrite sliceFrom_0.
      destruct data as [|b data]; [done|].
      change (nonEmpty (b :: data)) with true. cbv iota.
      destruct (writeWithReveal_early (b :: data) true s Hsid Hdone)
        as (e & s1 & -> & _ & ? & ?).
      repeat split; [done | done | by exists e].
    + destruct (writeSections_early data sl rest 0 s Hsid Hdone)
        as (e & s1 & Hrun & _ & ? & ?).
      rewrite (bind_thrown _ _ s _ s1 Hrun).
      repeat split; [done | done|].
      destruct data; by exists e.
  - unfold writeRedactedZk.
    rewrite (bind_thrown _ _ s _ s (tlsWrite_early data s Hdone)).
    by destruct sections, data.
Qed.

End Early.

(** ** TLS1.2 *)

Section Tls12.
Context `{Capabilities}.

Lemma onWrite_zk n pkt c : preserves (zkWithRotations n) (onWrite pkt c).
Proof.
  intros s Hs. rewrite onWrite_run.
  destruct (noSession _); [done|]. by destruct (pushReply _).
Qed.

Lemma writeRecord_zk n ct data : preserves (zkWithRotations n) (writeRecord ct data).
Proof. intros s Hs. rewrite writeRecord_run. by apply onWrite_zk. Qed.

Lemma updateLastBlock_zk n who f : preserves (zkWithRotations n) (updateLastBlock who f).
Proof. intros s Hs. unfold updateLastBlock. by destruct (getLastBlock _ _). Qed.

Lemma onHandshake_zk n : preserves (zkWithRotations n) onHandshake.
Proof.
  intros s [Hmode Hrot]. unfold onHandshake, bind, modify, gets. simpl.
  by destruct (tlsVersion (tls s)) as [[|]|].
Qed.

Lemma tlsReact_zk n r : preserves (zkWithRotations n) (tlsReact r).
Proof.
  unfold tlsReact. effects.
  - by apply preserves_modify.
  - apply onWrite_zk.
  - by apply preserves_modify.
  - apply onHandshake_zk.
Qed.

Lemma pullStep_zk n r : preserves (zkWithRotations n) (pullStep tlsStartHandshake r).
Proof.
  assert (preserves (zkWithRotations n) tlsStartHandshake) as Hready.
  { unfold tlsStartHandshake. effects. apply onWrite_zk. }
  unfold pullStep. destruct (pullMessage r) as [m|]; [|done].
  destruct (header m) as [|type ?]; [done|].
  unfold tlsHandleReceivedPacket. effects; [| apply updateLastBlock_zk].
  destruct (rxThrows _); effects; [|apply tlsReact_zk].
  unfold onRead. by apply preserves_modify.
Qed.

Lemma write_zk n data sections : preserves (zkWithRotations n) (write data sections).
Proof.
  intros s Hs. unfold write, bind at 1, gets at 1. rewrite (proj1 Hs).
  revert s Hs. change (preserves (zkWithRotations n) (writeRedactedZk data sections)).
  unfold writeRedactedZk, tlsWrite. effects; [apply writeRecord_zk | apply updateLastBlock_zk].
Qed.

(** X2.  When the handshake callback runs in a TLS1.2 session it switches
    the write mode to zk, whatever mode the client was made with, and the
    mode stays zk through every later event of the session, the records
    pulled and the writes alike: no write of such a session rotates the
    traffic keys. *)
Theorem tls12_session_never_rotates_keys (s : APITLSClient) (events : list SessionEvent) :
  tlsVersion (tls s) = Some TLS1_2 ->
  let s1 := (onHandshake s).2 in
  let s2 := (session events s1).2 in
  defaultWriteRedactionMode s1 = Zk
  /\ defaultWriteRedactionMode s2 = Zk
  /\ trafficKeyUpdates (tls s2) = trafficKeyUpdates (tls s).
Proof.
  intros Hversion s1 s2.
  assert (zkWithRotations (trafficKeyUpdates (tls s)) s1) as Hs1.
  { subst s1. unfold onHandshake, bind, modify, gets. simpl. by rewrite Hversion. }
  split; [apply Hs1|].
  assert (preserves (zkWithRotations (trafficKeyUpdates (tls s))) (session events)) as Hkeep.
  { unfold session. apply preserves_forEach.
    intros [r|data sections]; [apply pullStep_zk | apply write_zk]. }
  apply (Hkeep s1 Hs1).
Qed.

End Tls12.

(** ** The cost of a redaction by key update *)

Section Rotations.
Context `{Capabilities}.

(** X3.  In key-update mode, in a TLS1.3 session that is initialised and
    has done its handshake, and with a relay that accepts every push,
    [write] with ascending, disjoint RedactedSlices returns and has rotated
    the traffic keys exactly twice for every slice, once before and once
    after the
    records of the slice: the records it has appended are, for every slice,
    the record of a rotation, the records of the bytes of the slice,
    encrypted with the keys of that rotation, and the record of the next
    rotation, also when the slice is empty or lies outside the buffer.  A
    record that is marked Complete is encrypted after an even number of
    these rotations, the records of a slice after an odd number: no record
    of a slice shares its keys with a record that is disclosed. *)
Theorem keyUpdate_write_rotates_twice_per_section (s : APITLSClient)
    (data : bytes) (sections : list ArraySlice) :
  relayAccepts ->
  defaultWriteRedactionMode s = KeyUpdate ->
  ready s ->
  tlsVersion (tls s) = Some TLS1_3 ->
  disjointAscending sections ->
  let keys := trafficKeyUpdates (tls s) in
  let expected :=
    spansShapes data keys (alternatingSpans (Z.of_nat (length data)) 0 sections) in
  (write data sections s).1 = Returned tt
  /\ trafficKeyUpdates (tls (write data sections s).2) = (keys + 2 * length sections)%nat
  /\ (exists recs,
        allPackets (write data sections s).2 = allPackets s ++ recs
        /\ Forall2 (hasShape (Some TLS1_3)) expected recs)
  /\ (forall sl, sl ∈ sections ->
        exists (j : nat) pre post,
          expected
          = pre ++ (keyUpdateShape (keys + 2 * j)
                    :: blockShapes (S (keys + 2 * j)) None
                         (recordChunks (slice data (fromIndex sl) (toIndex sl)))
                    ++ [keyUpdateShape (S (keys + 2 * j))]) ++ post)
  /\ (forall sh, sh ∈ expected -> shapeReveal sh = Some Complete ->
        exists j : nat, shapeKeys sh = (keys + 2 * j)%nat).
Proof.
  intros Haccepts Hmode Hready Hversion Hasc keys expected.
  assert (write data sections s = writeRedactedWithKeyUpdate data sections s) as ->.
  { unfold write, bind, gets. by rewrite Hmode. }
  destruct (writeRedactedWithKeyUpdate_writesShapes data sections Hasc s)
    as (_ & (written & recs & Hps & Hshapes & Hout) & Hret).
  destruct (Hret Haccepts Hready) as [Hreturned _].
  rewrite Hreturned in Hout. destruct Hout as [-> Hkeys].
  rewrite Hversion in Hshapes.
  split; [done|]. split; [done|]. split; [by exists recs|]. split.
  - intros sl Hsl.
    apply (spansShapes_secret_keys data _ keys (mkSpan (fromIndex sl) (toIndex sl) false));
      [by apply alternatingSpans_secret | done].
  - intros sh. apply spansShapes_complete_keys.
Qed.

End Rotations.

(** ** What the server receives *)

Lemma take_take_drop {A} (l : list A) (n m : nat) :
  take n l ++ take m (drop n l) = take (n + m) l.
Proof.
  revert n. induction l as [|x l IH]; intros [|n]; simpl; try done.
  - by rewrite !take_nil.
  - by rewrite IH.
Qed.

Lemma slice_app (data : bytes) (a b c : Z) :
  0 <= a <= b -> b <= c ->
  slice data a b ++ slice data b c = slice data a c.
Proof.
  intros Hab Hbc. unfold slice. rewrite !relIndex_nonneg by lia.
  set (len := Z.of_nat (length data)).
  replace (drop (Z.to_nat (Z.min b len)) data)
    with (drop (Z.to_nat (Z.min b len - Z.min a len)) (drop (Z.to_nat (Z.min a len)) data)).
  2:{ rewrite drop_drop. f_equal. lia. }
  rewrite take_take_drop. f_equal. lia.
Qed.

Lemma slice_empty (data : bytes) (a b : Z) :
  0 <= a -> 0 <= b ->
  (Z.min a (Z.of_nat (length data)) <? Z.min b (Z.of_nat (length data))) = false ->
  slice data a b = [].
Proof.
  intros Ha Hb Hlt. rewrite <- nonEmpty_slice in Hlt by done.
  by destruct (slice data a b).
Qed.

Lemma disclosedSpan_bytes (data : bytes) (a b : Z) :
  0 <= a -> 0 <= b ->
  concat (map (spanBytes data) (disclosedSpan (Z.of_nat (length data)) a b)) = slice data a b.
Proof.
  intros Ha Hb. unfold disclosedSpan.
  destruct (_ <? _) eqn:Hlt; simpl.
  - by rewrite app_nil_r.
  - by rewrite slice_empty.
Qed.

(** The spans of a buffer, put together again, are the buffer from the
    cursor on. *)
Lemma alternatingSpans_bytes (data : bytes) slices : forall cursor,
  0 <= cursor -> ascendingFrom cursor slices ->
  concat (map (spanBytes data) (alternatingSpans (Z.of_nat (length data)) cursor slices))
  = sliceFrom data cursor.
Proof.
  induction slices as [|sl rest IH]; intros cursor Hcur Hasc; cbn [alternatingSpans].
  - by rewrite disclosedSpan_bytes by lia.
  - destruct Hasc as (Hlo & Hle & Hrest).
    rewrite map_app, concat_app, disclosedSpan_bytes by lia.
    cbn [map concat]. rewrite IH by (done || lia).
    unfold spanBytes at 1. cbn [spanFrom spanTo]. unfold sliceFrom.
    rewrite app_assoc, (slice_app data cursor) by lia.
    destruct (Z.le_ge_cases (toIndex sl) (Z.of_nat (length data))).
    + by rewrite slice_app by lia.
    + rewrite (slice_empty data (toIndex sl)), app_nil_r by (lia || (apply Z.ltb_ge; lia)).
      unfold slice. rewrite !relIndex_nonneg by lia. f_equal. lia.
Qed.

Lemma blockShapes_data keys mark (chunks : list bytes) :
  map shapeData (blockShapes keys mark chunks) = chunks
  /\ Forall (fun sh => shapeType sh = APPLICATION_DATA) (blockShapes keys mark chunks).
Proof.
  induction chunks as [|c chunks [IHd IHt]]; [by split|].
  destruct chunks as [|c' chunks]; [by split; [|repeat constructor]|].
  change (blockShapes keys mark (c :: c' :: chunks))
    with (mkShape APPLICATION_DATA c keys None :: blockShapes keys mark (c' :: chunks)).
  split; [cbn [map shapeData]; by rewrite IHd | by constructor].
Qed.

Section Whole.
Context `{Capabilities}.

(** The bytes that a record of a given shape brings to the server are
    those that the engine was given for it. *)
Lemma hasShape_payload v sh r : hasShape v sh r -> payload v r = shapeData sh.
Proof.
  intros (_ & Hctx & _). unfold payload. rewrite Hctx. unfold wirePlaintext.
  destruct v as [[|]|]; try done.
  rewrite slice_strip, length_app. simpl.
  replace (length (shapeData sh) + 1 - 1)%nat with (length (shapeData sh)) by lia.
  by rewrite take_app_length.
Qed.

Lemma hasShape_carriesData v sh r :
  hasShape v sh r ->
  carriesData r = match shapeType sh with APPLICATION_DATA => true | _ => false end.
Proof. intros (_ & Hctx & _). unfold carriesData. rewrite Hctx. by destruct (shapeType sh). Qed.

Lemma shapes_payloads v shapes recs :
  Forall2 (hasShape v) shapes recs ->
  concat (map (payload v) (List.filter carriesData recs))
  = concat (map shapeData
      (List.filter (fun sh => match shapeType sh with APPLICATION_DATA => true | _ => false end)
         shapes)).
Proof.
  induction 1 as [|sh r shapes recs Hr _ IH]; [done|].
  cbn [List.filter]. rewrite (hasShape_carriesData v sh r Hr).
  destruct (shapeType sh); try done.
  cbn [map concat]. by rewrite IH, (hasShape_payload v sh r Hr).
Qed.

Lemma blockShapes_bytes keys mark (block : bytes) :
  concat (map shapeData
    (List.filter (fun sh => match shapeType sh with APPLICATION_DATA => true | _ => false end)
       (blockShapes keys mark (recordChunks block))))
  = block.
Proof.
  destruct (blockShapes_data keys mark (recordChunks block)) as [Hdata Htype].
  rewrite forallb_filter_id.
  - by rewrite Hdata, recordChunks_concat.
  - apply forallb_forall. intros sh Hsh%list_elem_of_In.
    by rewrite (proj1 (Forall_forall _ _) Htype sh Hsh).
Qed.

(** The data records of the spans, put together, are the bytes of the
    spans. *)
Lemma spansShapes_bytes data (spans : list Span) : forall keys,
  concat (map shapeData
    (List.filter (fun sh => match shapeType sh with APPLICATION_DATA => true | _ => false end)
       (spansShapes data keys spans)))
  = concat (map (spanBytes data) spans).
Proof.
  induction spans as [|sp spans IH]; intros keys; [done|].
  cbn [spansShapes map concat]. rewrite List.filter_app, map_app, concat_app, IH.
  f_equal. unfold spanShapes. destruct (disclosed sp).
  - apply blockShapes_bytes.
  - cbn [List.filter keyUpdateShape shapeType]. rewrite List.filter_app.
    cbn [List.filter shapeType]. rewrite app_nil_r. apply blockShapes_bytes.
Qed.

(** X4.  In key-update mode, for ascending, disjoint RedactedSlices: when
    [write] returns, the records that carry data, taken in the order of the
    transcript and put together, are the buffer, byte for byte: no byte of
    the request is left out, sent twice or sent out of order, also when a
    slice reaches past the end of the buffer. *)
Theorem keyUpdate_write_sends_buffer_once (s : APITLSClient)
    (data : bytes) (sections : list ArraySlice) :
  defaultWriteRedactionMode s = KeyUpdate ->
  disjointAscending sections ->
  (write data sections s).1 = Returned tt ->
  exists recs,
    allPackets (write data sections s).2 = allPackets s ++ recs
    /\ concat (map (payload (tlsVersion (tls s))) (List.filter carriesData recs)) = data.
Proof.
  intros Hmode Hasc.
  assert (write data sections s = writeRedactedWithKeyUpdate data sections s) as ->.
  { unfold write, bind, gets. by rewrite Hmode. }
  intros Hret.
  destruct (writeRedactedWithKeyUpdate_writesShapes data sections Hasc s)
    as (_ & (written & recs & Hps & Hshapes & Hout) & _).
  rewrite Hret in Hout. destruct Hout as [-> _].
  exists recs. split; [done|].
  rewrite (shapes_payloads _ _ _ Hshapes), spansShapes_bytes.
  rewrite (alternatingSpans_bytes data sections 0) by (done || lia).
  apply sliceFrom_0.
Qed.

End Whole.

(** ** When the relay says no *)

Section Teardown.
Context `{Capabilities}.

(** X5.  When [finish] throws it stops there: the TLS session has not been
    ended and the pull has not been aborted.  It throws a TypeError when the
    handshake callback has not run, because [metadata] is undefined then;
    and once the callback has run and the reveal blocks are prepared, it
    throws the error of the relay when the relay rejects finaliseSession,
    with the reveal decisions of [finish] already in the transcript. *)
Theorem finish_rejected_skips_teardown (s : APITLSClient) :
  noSession (sessionId s) = false ->
  (metadataAssigned s = false ->
   exists e, (finish s).1 = Thrown e /\ errClass e = TypeError)
  /\ (forall revealBlocks e,
        metadataAssigned s = true ->
        preparePacketsForReveal (finishMarks s) = Returned revealBlocks ->
        finaliseReply revealBlocks = inl e ->
        (finish s).1 = Thrown e /\ allPackets (finish s).2 = finishMarks s)
  /\ (forall e, (finish s).1 = Thrown e ->
        tls (finish s).2 = tls s
        /\ pullFromSessionAbort (finish s).2 = pullFromSessionAbort s
        /\ listening (finish s).2 = listening s).
Proof.
  intros Hsid. rewrite finish_run by done. cbv zeta. split; [|split].
  - intros ->. by eexists.
  - intros revealBlocks e -> Hprep Hfin. by rewrite Hprep, Hfin.
  - intros e. destruct (metadataAssigned s); [|done].
    destruct (preparePacketsForReveal _); [|done].
    by destruct (finaliseReply _).
Qed.

(** X6.  When the handshake callback has run, the reveal blocks are
    prepared and the relay accepts them, [finish] returns what the relay
    answered; by then it has ended the TLS session, without an error, and
    then aborted the pull, on which a pull loop that was still waiting for
    the stream has stopped and ended the TLS session once more.  Going
    through the blocks to reveal never fails. *)
Theorem finish_accepted_ends_session (s : APITLSClient)
    (revealBlocks : list RevealBlock) (result : Attestation) :
  noSession (sessionId s) = false ->
  metadataAssigned s = true ->
  preparePacketsForReveal (finishMarks s) = Returned revealBlocks ->
  finaliseReply revealBlocks = inr result ->
  (finish s).1 = Returned result
  /\ allPackets (finish s).2 = finishMarks s
  /\ endCalls (tls (finish s).2)
     = endCalls (tls s) ++ None :: (if pullLoopStops s then [None] else [])
  /\ pullFromSessionAbort (finish s).2
     = match pullFromSessionAbort s with Some _ => Some true | None => None end
  /\ listening (finish s).2 = (listening s && negb (pullLoopStops s)).
Proof.
  intros Hsid Hassigned Hprep Hfin. rewrite finish_run by done. cbv zeta.
  rewrite Hassigned, Hprep, Hfin, abortPull_run. unfold pullLoopStops. cbn.
  destruct (pullFromSessionAbort s) as [aborted|] eqn:Habort; cbn.
  - destruct (listening s) eqn:Hl, aborted; cbn; by rewrite ?Hl, <- ?app_assoc.
  - by rewrite ?Habort, andb_true_r.
Qed.

(** X7.  [cancel] aborts the pull before it asks the relay: when the relay
    rejects cancelSession, [cancel] throws the error of the relay and has
    not ended the TLS session itself; the pull is aborted all the same, so a
    pull loop that was waiting for the stream has stopped and has ended the
    TLS session, without an error.  The session id is still there. *)
Theorem cancel_rejected_skips_teardown (s : APITLSClient) (e : JsError) :
  noSession (sessionId s) = false ->
  cancelReply (cancelCalls s) = Some e ->
  (cancel s).1 = Thrown e
  /\ endCalls (tls (cancel s).2)
     = endCalls (tls s) ++ (if pullLoopStops s then [None] else [])
  /\ sessionId (cancel s).2 = sessionId s
  /\ pullFromSessionAbort (cancel s).2
     = match pullFromSessionAbort s with Some _ => Some true | None => None end
  /\ listening (cancel s).2 = (listening s && negb (pullLoopStops s)).
Proof.
  intros Hsid Hreply. rewrite cancel_run by done. cbv zeta.
  rewrite Hreply, abortPull_run. unfold pullLoopStops. cbn.
  destruct (pullFromSessionAbort s) as [aborted|] eqn:Habort; cbn.
  - destruct (listening s) eqn:Hl, aborted; cbn; by rewrite ?Hl, ?app_nil_r.
  - by rewrite ?Habort, app_nil_r, andb_true_r.
Qed.

End Teardown.

(** ** Finishing again *)

Lemma isApplicationData_skeleton md p q :
  skeleton p = skeleton q -> isApplicationData md p = isApplicationData md q.
Proof. unfold skeleton, isApplicationData. by intros [= -> -> _]. Qed.

Lemma revealClientHandshake_idempotent mode md ps :
  revealClientHandshake mode md (revealClientHandshake mode md ps)
  = revealClientHandshake mode md ps.
Proof.
  induction ps as [|p ps IH]; [done|]. cbn [revealClientHandshake].
  destruct (sender p) eqn:Hs.
  - destruct (ctx p) as [|pt ct] eqn:Hc.
    + cbn [revealClientHandshake]. by rewrite Hs, Hc, IH.
    + destruct (isApplicationData md p) eqn:Happ.
      * cbn [revealClientHandshake]. by rewrite Hs, Hc, Happ.
      * cbn [revealClientHandshake sender ctx setReveal].
        rewrite Hs, Hc.
        rewrite (isApplicationData_skeleton md _ p) by done.
        by rewrite Happ, IH.
  - cbn [revealClientHandshake]. by rewrite Hs, IH.
Qed.

Lemma revealAllServer_idempotent ps : revealAllServer (revealAllServer ps) = revealAllServer ps.
Proof.
  unfold revealAllServer. rewrite map_map. apply map_ext. intros p.
  destruct (sender p) eqn:Hs; [by rewrite Hs|]. cbn. by rewrite Hs.
Qed.

Lemma revealAllServer_handshake mode md ps :
  revealAllServer (revealClientHandshake mode md ps)
  = revealClientHandshake mode md (revealAllServer ps).
Proof.
  induction ps as [|p ps IH]; [done|].
  change (revealAllServer (p :: ps))
    with ((match sender p with
           | TRANSCRIPT_MESSAGE_SENDER_TYPE_SERVER => setReveal (Some Complete) p
           | TRANSCRIPT_MESSAGE_SENDER_TYPE_CLIENT => p
           end) :: revealAllServer ps).
  cbn [revealClientHandshake].
  destruct (sender p) eqn:Hs.
  - rewrite Hs. destruct (ctx p) as [|pt ct] eqn:Hc.
    + cbn. rewrite Hs. f_equal. exact IH.
    + destruct (isApplicationData md p) eqn:Happ.
      * cbn. by rewrite Hs.
      * cbn. rewrite Hs. f_equal. exact IH.
  - cbn. rewrite Hs. f_equal. exact IH.
Qed.

Section Again.
Context `{Capabilities}.

Lemma serverBlocksFrom_skeleton md ps : forall i qs,
  map skeleton ps = map skeleton qs ->
  serverBlocksFrom md i ps = serverBlocksFrom md i qs.
Proof.
  induction ps as [|p ps IH]; intros i [|q qs] Hskel; try done.
  injection Hskel as Hp Hc Hs Hrest.
  cbn [serverBlocksFrom]. rewrite (IH (S i) qs Hrest).
  rewrite (isApplicationData_skeleton md p q) by (unfold skeleton; congruence).
  by rewrite Hc, Hs.
Qed.

Lemma serverBlock_setReveal md r b :
  serverBlocksFrom md 0 [setReveal r b] = serverBlocksFrom md 0 [b].
Proof. by apply serverBlocksFrom_skeleton. Qed.

Lemma redactServer_idempotent md slices ps : forall offset,
  redactServer md slices offset (redactServer md slices offset ps)
  = redactServer md slices offset ps.
Proof.
  induction ps as [|b ps IH]; intros offset; [done|]. cbn [redactServer].
  destruct (serverBlocksFrom md 0 [b]) as [|blk ?] eqn:Hb.
  - cbn [redactServer]. by rewrite Hb, IH.
  - destruct (blockMatched slices offset _) eqn:Hmatched.
    + cbn [redactServer]. rewrite serverBlock_setReveal, Hb, Hmatched, IH. done.
    + cbn [redactServer]. by rewrite Hb, Hmatched, IH.
Qed.

Lemma redactServer_handshake mode md slices ps : forall offset,
  redactServer md slices offset (revealClientHandshake mode md ps)
  = revealClientHandshake mode md (redactServer md slices offset ps).
Proof.
  induction ps as [|p ps IH]; intros offset; [done|].
  cbn [revealClientHandshake redactServer].
  destruct (sender p) eqn:Hs.
  - (* a client record is no server block *)
    assert (forall r, serverBlocksFrom md 0 [setReveal r p] = []) as Hnone.
    { intros r. cbn. by rewrite Hs. }
    assert (serverBlocksFrom md 0 [p] = []) as Hp by (cbn; by rewrite Hs).
    rewrite Hp.
    destruct (ctx p) as [|pt ct] eqn:Hc.
    + cbn [redactServer revealClientHandshake]. by rewrite Hp, Hs, Hc, IH.
    + destruct (isApplicationData md p) eqn:Happ.
      * cbn [redactServer revealClientHandshake]. by rewrite Hp, Hs, Hc, Happ.
      * cbn [redactServer revealClientHandshake]. by rewrite Hnone, Hs, Hc, Happ, IH.
  - destruct (serverBlocksFrom md 0 [p]) as [|blk ?] eqn:Hb.
    + cbn [redactServer revealClientHandshake]. by rewrite Hb, Hs, IH.
    + cbn [redactServer]. rewrite Hb.
      destruct (blockMatched slices offset _).
      * cbn [revealClientHandshake sender setReveal]. rewrite Hs. by rewrite IH.
      * cbn [revealClientHandshake]. by rewrite Hs, IH.
Qed.

Lemma finishMarks_skeleton (s : APITLSClient) :
  map skeleton (finishMarks s) = map skeleton (allPackets s).
Proof.
  unfold finishMarks.
  rewrite <- (revealOnly_skeleton _ _ _ (revealClientHandshake_revealOnly _ _ _)).
  symmetry. destruct (redactResponse s).
  - apply (revealOnly_skeleton _ _ _ (redactServer_revealOnly _ _ _ _)).
  - apply (revealOnly_skeleton _ _ _ (revealAllServer_revealOnly _)).
Qed.

Lemma finishMarks_again (s : APITLSClient) :
  finishMarks (withPackets (finishMarks s) s) = finishMarks s.
Proof.
  unfold finishMarks at 1. cbn [defaultWriteRedactionMode metadata redactResponse allPackets withPackets].
  rewrite (serverBlocksFrom_skeleton (metadata s) (finishMarks s) 0 (allPackets s)
             (finishMarks_skeleton s)).
  unfold finishMarks. destruct (redactResponse s) as [redact|].
  - by rewrite redactServer_handshake, redactServer_idempotent, revealClientHandshake_idempotent.
  - by rewrite revealAllServer_handshake, revealAllServer_idempotent,
         revealClientHandshake_idempotent.
Qed.

(** What [finish] leaves of the closure, however it completes. *)
Lemma finish_fields (s : APITLSClient) :
  noSession (sessionId s) = false ->
  allPackets (finish s).2 = finishMarks s
  /\ metadata (finish s).2 = metadata s
  /\ defaultWriteRedactionMode (finish s).2 = defaultWriteRedactionMode s
  /\ redactResponse (finish s).2 = redactResponse s
  /\ sessionId (finish s).2 = sessionId s.
Proof.
  intros Hsid. rewrite finish_run by done. cbv zeta.
  destruct (metadataAssigned s); [|done].
  destruct (preparePacketsForReveal _); [|done].
  destruct (finaliseReply _); [done|].
  rewrite abortPull_run. cbn.
  destruct (pullFromSessionAbort s) as [aborted|]; [|done].
  by destruct (listening s && negb aborted).
Qed.

(** X23.  [finish] called once more, after it has returned or after the relay
    has rejected it, takes the same decisions: the transcript that the
    second call leaves is the one that the first call left, record for
    record, with or without a function to redact the response. *)
Theorem finish_again_same_decisions (s : APITLSClient) :
  noSession (sessionId s) = false ->
  finishMarks (finish s).2 = finishMarks s
  /\ allPackets (finish (finish s).2).2 = allPackets (finish s).2.
Proof.
  intros Hsid.
  destruct (finish_fields s Hsid) as (Hps & Hmd & Hmode & Hredact & Hsid').
  assert (finishMarks (finish s).2 = finishMarks s) as Hmarks.
  { rewrite <- (finishMarks_again s). unfold finishMarks at 1 2.
    cbn [allPackets metadata defaultWriteRedactionMode redactResponse withPackets].
    by rewrite Hps, Hmd, Hmode, Hredact. }
  split; [done|].
  rewrite finish_allPackets by (by rewrite Hsid').
  by rewrite Hmarks, finish_allPackets.
Qed.

End Again.

(** ** The last block of a sender *)

(** X8.  [getLastBlock] finds the last record of the sender: the record at
    the position it answers with is one of this sender and no record after
    it is; it answers with nothing exactly when the transcript has no
    record of this sender. *)
Theorem getLastBlock_spec (who : TranscriptMessageSenderType) (ps : list CompleteTLSPacket) :
  match getLastBlock who ps with
  | Some i =>
      (exists p, ps !! i = Some p /\ sender p = who)
      /\ forall j q, (i < j)%nat -> ps !! j = Some q -> sender q <> who
  | None => Forall (fun q => sender q <> who) ps
  end.
Proof.
  induction ps as [|p ps IH]; simpl; [constructor|].
  destruct (getLastBlock who ps) as [i|].
  - destruct IH as [Hfound Hlater]. split; [done|].
    intros [|j] q Hj; [lia|]. simpl. apply Hlater. lia.
  - destruct (sender_eqb (sender p) who) eqn:Hp.
    + split.
      * exists p. split; [done|]. by destruct (sender p), who.
      * intros [|j] q Hj; [lia|]. simpl. intros Hq.
        apply (proj1 (Forall_forall _ _) IH). by eapply list_elem_of_lookup_2.
    + constructor; [|done]. by destruct (sender p), who.
Qed.

(** * The HTTP provider *)

(** ** Positions in a chunked body *)

Lemma toDouble_safe n : safeInteger n -> toDouble n = n.
Proof.
  intros Hn. unfold toDouble, safeInteger in *. cbv zeta.
  assert (Z.log2 (Z.abs n) - 52 <= 0) as He.
  { destruct (Z.eq_dec n 0) as [->|Hnz]; [done|].
    assert (Z.log2 (Z.abs n) < 53); [|lia].
    apply Z.log2_lt_pow2; lia. }
  apply Z.leb_le in He. by rewrite He.
Qed.

Lemma chunkSizes_nonneg start chunks : safeChunksFrom start chunks -> 0 <= chunkSizes chunks.
Proof. intros (_ & Hchunks & _). induction Hchunks; simpl; lia. Qed.

Lemma safeChunksFrom_cons start chunk rest :
  safeChunksFrom start (chunk :: rest) ->
  0 <= fromIndex chunk <= toIndex chunk
  /\ safeInteger (toIndex chunk)
  /\ safeInteger (start + (toIndex chunk - fromIndex chunk))
  /\ safeChunksFrom (start + (toIndex chunk - fromIndex chunk)) rest.
Proof.
  intros (Hstart & Hchunks & Hsum). apply Forall_cons in Hchunks as [[Hrange Hto] Hrest].
  assert (0 <= chunkSizes rest) as Hsizes by (clear -Hrest; induction Hrest; simpl; lia).
  simpl in Hsum. unfold safeInteger in *.
  repeat split; try done; lia.
Qed.

(** One turn of the loop on safe integers: nothing is rounded. *)
Lemma findInChunks_cons pos start chunk rest :
  safeChunksFrom start (chunk :: rest) -> safeInteger pos ->
  findInChunks pos start (chunk :: rest)
  = if (start <=? pos) && (pos <? start + (toIndex chunk - fromIndex chunk))
    then Returned (pos - start + fromIndex chunk)
    else findInChunks pos (start + (toIndex chunk - fromIndex chunk)) rest.
Proof.
  intros Hsafe Hpos. pose proof Hsafe as (Hstart & _).
  apply safeChunksFrom_cons in Hsafe as (Hrange & Hto & Hsum & _).
  cbn [findInChunks]. cbv zeta.
  rewrite (toDouble_safe (toIndex chunk - fromIndex chunk))
    by (unfold safeInteger in *; lia).
  rewrite (toDouble_safe (start + _)) by done.
  destruct (_ && _) eqn:Hin; [|done].
  apply andb_true_iff in Hin as [Hlo Hhi].
  apply Z.leb_le in Hlo. apply Z.ltb_lt in Hhi.
  rewrite (toDouble_safe (pos - start)) by (unfold safeInteger in *; lia).
  by rewrite toDouble_safe by (unfold safeInteger in *; lia).
Qed.

Lemma findInChunks_found pos chunks : forall start r,
  safeChunksFrom start chunks -> safeInteger pos ->
  findInChunks pos start chunks = Returned r ->
  exists (k : nat) chunk,
    chunks !! k = Some chunk
    /\ fromIndex chunk <= r < toIndex chunk
    /\ pos = start + chunkSizes (take k chunks) + (r - fromIndex chunk).
Proof.
  induction chunks as [|c chunks IH]; intros start r Hsafe Hpos Hr; [done|].
  rewrite findInChunks_cons in Hr by done.
  apply safeChunksFrom_cons in Hsafe as (_ & _ & _ & Hrest).
  destruct (_ && _) eqn:Hin.
  - injection Hr as <-. apply andb_true_iff in Hin as [Hlo Hhi].
    apply Z.leb_le in Hlo. apply Z.ltb_lt in Hhi.
    exists 0%nat, c. simpl. split; [done|]. lia.
  - destruct (IH _ _ Hrest Hpos Hr) as (k & chunk & Hk & Hrange & Hfound).
    exists (S k), chunk. simpl. split; [done|]. lia.
Qed.

(** X9.  With a list of chunks that is not empty, of safe integers, a safe
    position that [convertResponsePosToAbsolutePos] converts ends inside a
    chunk, at the offset that is left of the position once the sizes of the
    chunks before this one are taken off; the result is a safe integer and
    [bodyStartIdx] plays no role. *)
Theorem convertResponsePosToAbsolutePos_in_chunk (pos bodyStartIdx r : Z)
    (chunks : list ArraySlice) :
  chunks <> [] -> safeChunks chunks -> safeInteger pos ->
  convertResponsePosToAbsolutePos pos bodyStartIdx (Some chunks) = Returned r ->
  safeInteger r
  /\ exists (k : nat) chunk,
       chunks !! k = Some chunk
       /\ fromIndex chunk <= r < toIndex chunk
       /\ pos = chunkSizes (take k chunks) + (r - fromIndex chunk).
Proof.
  intros Hne Hsafe Hpos Hr. destruct chunks as [|c rest]; [done|].
  destruct (findInChunks_found _ _ _ _ Hsafe Hpos Hr) as (k & chunk & Hk & Hin & ?).
  split.
  - destruct Hsafe as (_ & Hchunks & _).
    pose proof (proj1 (Forall_forall _ _) Hchunks chunk (list_elem_of_lookup_2 _ _ _ Hk))
      as Hchunk.
    simpl in Hchunk. unfold safeInteger in *. lia.
  - exists k, chunk. split; [done|]. split; [done | lia].
Qed.

Lemma findInChunks_range pos chunks : forall start,
  safeChunksFrom start chunks -> safeInteger pos ->
  match findInChunks pos start chunks with
  | Returned _ => start <= pos < start + chunkSizes chunks
  | Thrown e => e = Error "position out of range"
                /\ ~ (start <= pos < start + chunkSizes chunks)
  end.
Proof.
  induction chunks as [|c chunks IH]; intros start Hsafe Hpos;
    [simpl; split; [done | lia]|].
  rewrite findInChunks_cons by done. simpl.
  apply safeChunksFrom_cons in Hsafe as (Hc & _ & _ & Hrest).
  pose proof (chunkSizes_nonneg _ _ Hrest).
  destruct (_ && _) eqn:Hin.
  - apply andb_true_iff in Hin as [Hlo Hhi].
    apply Z.leb_le in Hlo. apply Z.ltb_lt in Hhi. lia.
  - apply andb_false_iff in Hin.
    specialize (IH (start + (toIndex c - fromIndex c)) Hrest Hpos).
    destruct (findInChunks _ _ chunks).
    + lia.
    + destruct IH as [-> Hout]. split; [done|].
      destruct Hin as [Hlo|Hhi]; [apply Z.leb_gt in Hlo | apply Z.ltb_ge in Hhi]; lia.
Qed.

(** X10.  With chunks that are ranges of safe integers, whose sizes add up
    to a safe integer, the safe positions that
    [convertResponsePosToAbsolutePos] converts are exactly those of the
    body, from 0 up to the sum of the chunk sizes; for every other safe
    position, a negative one or one past the body, it throws the error
    "position out of range". *)
Theorem convertResponsePosToAbsolutePos_range (pos bodyStartIdx : Z)
    (chunks : list ArraySlice) :
  chunks <> [] -> safeChunks chunks -> safeInteger pos ->
  match convertResponsePosToAbsolutePos pos bodyStartIdx (Some chunks) with
  | Returned _ => 0 <= pos < chunkSizes chunks
  | Thrown e => e = Error "position out of range" /\ ~ (0 <= pos < chunkSizes chunks)
  end.
Proof.
  intros Hne Hsafe Hpos. destruct chunks as [|c rest]; [done|].
  apply (findInChunks_range pos (c :: rest) 0 Hsafe Hpos).
Qed.

Lemma findInChunks_lower pos chunks : forall start lo r,
  safeChunksFrom start chunks -> safeInteger pos ->
  ascendingFrom lo chunks ->
  findInChunks pos start chunks = Returned r -> lo <= r.
Proof.
  induction chunks as [|c chunks IH]; intros start lo r Hsafe Hpos Hasc Hr; [done|].
  rewrite findInChunks_cons in Hr by done.
  apply safeChunksFrom_cons in Hsafe as (_ & _ & _ & Hsafe).
  destruct Hasc as (Hlo & Hle & Hrest).
  destruct (_ && _) eqn:Hin.
  - injection Hr as <-. apply andb_true_iff in Hin as [Hi _]. apply Z.leb_le in Hi. lia.
  - pose proof (IH _ _ _ Hsafe Hpos Hrest Hr). lia.
Qed.

Lemma findInChunks_monotone chunks : forall start lo pos1 pos2 r1 r2,
  safeChunksFrom start chunks -> safeInteger pos1 -> safeInteger pos2 ->
  ascendingFrom lo chunks ->
  pos1 < pos2 ->
  findInChunks pos1 start chunks = Returned r1 ->
  findInChunks pos2 start chunks = Returned r2 ->
  r1 < r2.
Proof.
  induction chunks as [|c chunks IH];
    intros start lo pos1 pos2 r1 r2 Hsafe Hpos1 Hpos2 Hasc Hlt H1 H2; [done|].
  rewrite findInChunks_cons in H1, H2 by done.
  apply safeChunksFrom_cons in Hsafe as (_ & _ & _ & Hsafe).
  destruct Hasc as (Hlo & Hle & Hrest).
  destruct ((start <=? pos1) && _) eqn:Hin1; destruct ((start <=? pos2) && _) eqn:Hin2.
  - injection H1 as <-. injection H2 as <-. lia.
  - injection H1 as <-.
    apply andb_true_iff in Hin1 as [Ha Hb]. apply Z.leb_le in Ha. apply Z.ltb_lt in Hb.
    pose proof (findInChunks_lower _ _ _ _ _ Hsafe Hpos2 Hrest H2). lia.
  - (* the smaller position is not in this chunk but the larger one is:
       then the smaller one lies before the body that is left *)
    injection H2 as <-.
    apply andb_true_iff in Hin2 as [Ha Hb]. apply Z.leb_le in Ha. apply Z.ltb_lt in Hb.
    apply andb_false_iff in Hin1.
    pose proof (findInChunks_range pos1 chunks (start + (toIndex c - fromIndex c))
                  Hsafe Hpos1) as Hr.
    rewrite H1 in Hr.
    destruct Hin1 as [Hi|Hi]; [apply Z.leb_gt in Hi | apply Z.ltb_ge in Hi]; lia.
  - by eapply (IH _ _ pos1 pos2).
Qed.

(** X11.  On safe integers [convertResponsePosToAbsolutePos] keeps the
    order: with chunks of safe integers that are ascending and disjoint,
    and without chunks when the start of the body and the positions add up
    to safe integers, of two safe positions it converts, the larger one
    ends further in the transcript. *)
Theorem convertResponsePosToAbsolutePos_monotone (pos1 pos2 bodyStartIdx r1 r2 : Z)
    (chunks : option (list ArraySlice)) :
  match chunks with
  | Some (chunk :: rest) => disjointAscending (chunk :: rest) /\ safeChunks (chunk :: rest)
  | _ => safeInteger bodyStartIdx
         /\ safeInteger (bodyStartIdx + pos1) /\ safeInteger (bodyStartIdx + pos2)
  end ->
  safeInteger pos1 -> safeInteger pos2 ->
  pos1 < pos2 ->
  convertResponsePosToAbsolutePos pos1 bodyStartIdx chunks = Returned r1 ->
  convertResponsePosToAbsolutePos pos2 bodyStartIdx chunks = Returned r2 ->
  r1 < r2.
Proof.
  intros Hasc Hpos1 Hpos2 Hlt H1 H2.
  destruct chunks as [[|c rest]|]; cbn [convertResponsePosToAbsolutePos] in H1, H2.
  - destruct Hasc as (_ & Hsum1 & Hsum2).
    rewrite toDouble_safe in H1, H2 by done.
    injection H1 as <-. injection H2 as <-. lia.
  - destruct Hasc as [Hasc Hsafe].
    by eapply (findInChunks_monotone (c :: rest) 0 0 pos1 pos2).
  - destruct Hasc as (_ & Hsum1 & Hsum2).
    rewrite toDouble_safe in H1, H2 by done.
    injection H1 as <-. injection H2 as <-. lia.
Qed.

(** ** Where a JSON value lies in the text *)

(** Induction over a tree, with the property at hand for every value of a
    property and every element of an array. *)
Lemma Expression_nested_ind (P : Expression -> Prop) :
  (forall properties,
      Forall (fun m => match m with Property _ _ value => P value | OtherMember => True end)
        properties ->
      P (ObjectExpression properties)) ->
  (forall elements,
      Forall (fun e => match e with Element _ element => P element | Hole => True end)
        elements ->
      P (ArrayExpression elements)) ->
  P OtherExpression ->
  forall o, P o.
Proof.
  intros Hobject Harray Hother. fix IH 1. intros [properties|elements|].
  - apply Hobject. induction properties as [|[range key value|] rest IHrest];
      constructor; auto.
  - apply Harray. induction elements as [|[|range element] rest IHrest];
      constructor; auto.
  - exact Hother.
Qed.

Lemma rangeAt_Some localPath pointer range r :
  rangeAt localPath pointer range = Some r <-> localPath = pointer /\ range = Some r.
Proof.
  unfold rangeAt. destruct (String.eqb_spec localPath pointer); split.
  - done.
  - by intros [_ ?].
  - done.
  - by intros [? _].
Qed.

(** The test by [instanceof] before the recursive call changes nothing:
    on any other node the call answers with nothing. *)
Lemma traverse_value o path pointer :
  match o with
  | ObjectExpression _ | ArrayExpression _ => traverse o path pointer
  | OtherExpression => None
  end = traverse o path pointer.
Proof. by destruct o. Qed.

Lemma traverse_sound pointer o : forall path index,
  traverse o path pointer = Some index -> located pointer o path index.
Proof.
  induction o as [properties IH|elements IH|] using Expression_nested_ind;
    intros path index Hfound; [| |done].
  - cbn [traverse] in Hfound.
    assert (forall ps, Forall (fun m => m ∈ properties) ps ->
              Forall (fun m => match m with
                               | Property _ _ value =>
                                   forall path index, traverse value path pointer = Some index ->
                                     located pointer value path index
                               | OtherMember => True
                               end) ps ->
              propertiesFrom traverse path pointer ps = Some index ->
              located pointer (ObjectExpression properties) path index) as Hloop.
    { induction ps as [|[range key value|] rest IHrest]; intros Hin Hsub Hres; [done| |].
      - apply Forall_cons in Hin as [Hin Hin']. apply Forall_cons in Hsub as [Hvalue Hsub].
        cbn [propertiesFrom] in Hres. cbv zeta in Hres.
        destruct (rangeAt _ _ range) as [r|] eqn:Hrange.
        + injection Hres as <-. apply rangeAt_Some in Hrange as [Hpath ->].
          by eapply located_property.
        + rewrite traverse_value in Hres.
          destruct (traverse value _ pointer) as [res|] eqn:Hinner.
          * injection Hres as <-. eapply located_in_property; [exact Hin|]. by apply Hvalue.
          * by apply IHrest.
      - apply Forall_cons in Hin as [_ Hin']. apply Forall_cons in Hsub as [_ Hsub].
        by apply IHrest. }
    apply (Hloop properties); [by apply Forall_forall | done | done].
  - cbn [traverse] in Hfound.
    assert (forall es (i : nat),
              (forall (j : nat) e, es !! j = Some e -> elements !! (i + j)%nat = Some e) ->
              Forall (fun e => match e with
                               | Element _ element =>
                                   forall path index, traverse element path pointer = Some index ->
                                     located pointer element path index
                               | Hole => True
                               end) es ->
              elementsFrom traverse path pointer i es = Some index ->
              located pointer (ArrayExpression elements) path index) as Hloop.
    { induction es as [|[|range element] rest IHrest]; intros i Hat Hsub Hres; [done| |].
      - apply Forall_cons in Hsub as [_ Hsub].
        apply (IHrest (S i)); [|done|done].
        intros j e Hj. replace (S i + j)%nat with (i + S j)%nat by lia. by apply Hat.
      - apply Forall_cons in Hsub as [Helement Hsub].
        pose proof (Hat 0%nat _ eq_refl) as Hhere. rewrite Nat.add_0_r in Hhere.
        cbn [elementsFrom] in Hres. cbv zeta in Hres.
        destruct (rangeAt _ _ range) as [r|] eqn:Hrange.
        + injection Hres as <-. apply rangeAt_Some in Hrange as [Hpath ->].
          by eapply located_element.
        + rewrite traverse_value in Hres.
          destruct (traverse element _ pointer) as [res|] eqn:Hinner.
          * injection Hres as <-. eapply located_in_element; [exact Hhere|]. by apply Helement.
          * apply (IHrest (S i)); [|done|done].
            intros j e Hj. replace (S i + j)%nat with (i + S j)%nat by lia. by apply Hat. }
    apply (Hloop elements 0%nat); [done | done | done].
Qed.

Lemma propertiesFrom_complete path pointer (ps : list ObjectMember) range key value :
  Property range key value ∈ ps ->
  (propertyPath path key = pointer /\ is_Some range)
  \/ is_Some (traverse value (propertyPath path key) pointer) ->
  is_Some (propertiesFrom traverse path pointer ps).
Proof.
  intros Hin Hhit. induction ps as [|m rest IH]; [by apply elem_of_nil in Hin|].
  apply elem_of_cons in Hin as [<-|Hin].
  - cbn [propertiesFrom]. cbv zeta. rewrite traverse_value.
    destruct (rangeAt _ _ range) as [r|] eqn:Hrange; [done|].
    destruct Hhit as [[Hpath [r Hr]]|[res Hres]].
    + assert (rangeAt (propertyPath path key) pointer range = Some r) as Hsome
        by (by apply rangeAt_Some).
      congruence.
    + by rewrite Hres.
  - destruct m as [range' key' value'|]; cbn [propertiesFrom]; [|by apply IH].
    cbv zeta. destruct (rangeAt _ _ range'); [done|].
    destruct (match value' with OtherExpression => _ | _ => _ end); [done | by apply IH].
Qed.

Lemma elementsFrom_complete path pointer (es : list ArrayElement) :
  forall (i j : nat) range element,
  es !! j = Some (Element range element) ->
  (elementPath path (i + j) = pointer /\ is_Some range)
  \/ is_Some (traverse element (elementPath path (i + j)) pointer) ->
  is_Some (elementsFrom traverse path pointer i es).
Proof.
  induction es as [|e rest IH]; intros i j range element Hj Hhit; [done|].
  destruct j as [|j].
  - injection Hj as ->. rewrite Nat.add_0_r in Hhit.
    cbn [elementsFrom]. cbv zeta. rewrite traverse_value.
    destruct (rangeAt _ _ range) as [r|] eqn:Hrange; [done|].
    destruct Hhit as [[Hpath [r Hr]]|[res Hres]].
    + assert (rangeAt (elementPath path i) pointer range = Some r) as Hsome
        by (by apply rangeAt_Some).
      congruence.
    + by rewrite Hres.
  - simpl in Hj. replace (i + S j)%nat with (S i + j)%nat in Hhit by lia.
    destruct e as [|range' element']; cbn [elementsFrom]; [by eapply IH|].
    cbv zeta. destruct (rangeAt _ _ range'); [done|].
    destruct (match element' with OtherExpression => _ | _ => _ end); [done | by eapply IH].
Qed.

Lemma traverse_complete pointer o path index :
  located pointer o path index -> is_Some (traverse o path pointer).
Proof.
  induction 1 as [properties r key value path Hin Hpath
                 |properties range key value path index Hin _ IH
                 |elements i r element path Hi Hpath
                 |elements i range element path index Hi _ IH]; cbn [traverse].
  - eapply propertiesFrom_complete; [exact Hin|]. left. eauto.
  - eapply propertiesFrom_complete; [exact Hin|]. by right.
  - eapply (elementsFrom_complete _ _ _ 0 i); [exact Hi|]. left. eauto.
  - eapply (elementsFrom_complete _ _ _ 0 i); [exact Hi|]. by right.
Qed.

(** X12.  What [traverse] answers with is the range of a property or of an
    array element of the tree whose path, the keys and the positions on the
    way joined by "/", is the pointer; and it answers with a range
    whenever the tree has such a property or element with a range. *)
Theorem traverse_finds_located (o : Expression) (path pointer : string) :
  (forall index, traverse o path pointer = Some index -> located pointer o path index)
  /\ ((exists index, located pointer o path index) -> is_Some (traverse o path pointer)).
Proof.
  split.
  - intros index. apply traverse_sound.
  - intros [index Hlocated]. by eapply traverse_complete.
Qed.

Lemma propertiesFrom_app path pointer (pre rest : list ObjectMember) :
  propertiesFrom traverse path pointer (pre ++ rest)
  = match propertiesFrom traverse path pointer pre with
    | Some index => Some index
    | None => propertiesFrom traverse path pointer rest
    end.
Proof.
  induction pre as [|[range key value|] pre IH]; [done| |exact IH].
  cbn [app propertiesFrom]. cbv zeta.
  destruct (rangeAt _ _ range); [done|].
  by destruct (match value with OtherExpression => _ | _ => _ end).
Qed.

(** X24.  Among the properties of an object the first match wins: when no
    property before it is at the pointer or holds something at the
    pointer, [traverse] answers with the range of the first property whose
    path is the pointer, whatever this property holds and whatever comes
    after it, a second property with the same key included. *)
Theorem traverse_first_property (path pointer : string) (pre post : list ObjectMember)
    (r : Z * Z) (key : PropertyKey) (value : Expression) :
  (forall index, ~ located pointer (ObjectExpression pre) path index) ->
  propertyPath path key = pointer ->
  traverse (ObjectExpression (pre ++ Property (Some r) key value :: post)) path pointer
  = Some (rangeIndex r).
Proof.
  intros Hnone Hpath. cbn [traverse]. rewrite propertiesFrom_app.
  destruct (propertiesFrom traverse path pointer pre) as [index|] eqn:Hpre.
  - exfalso. apply (Hnone index). by apply traverse_sound.
  - cbn [propertiesFrom]. cbv zeta.
    assert (rangeAt (propertyPath path key) pointer (Some r) = Some r) as ->
      by (by apply rangeAt_Some).
    done.
Qed.

Section ExtractJSONValueIndex.
Context `{JSONLibraries}.

(** X13.  An index that [extractJSONValueIndex] returns comes from a match
    of the path: the library gave a pointer that is not empty, the text in
    parentheses parsed to a script that starts with an object, and this
    object has a property or an element at the pointer; the index is the
    range of it moved one to the left, for the parenthesis that was put in
    front of the text. *)
Theorem extractJSONValueIndex_sound (json path : string) (index : JSONIndex) :
  extractJSONValueIndex json path = Returned index ->
  exists pointer properties rest,
    JSONPath path json = Returned (Some pointer)
    /\ pointer <> EmptyString
    /\ parseScript (String.append "(" (String.append json ")"))
       = Returned (mkProgram (ExpressionStatement (ObjectExpression properties) :: rest))
    /\ located pointer (ObjectExpression properties) EmptyString
         (mkJSONIndex (jsonStart index + 1) (jsonEnd index + 1)).
Proof.
  unfold extractJSONValueIndex. intros Hres.
  destruct (JSONPath path json) as [[[|c pointer]|]|e]; try done.
  destruct (parseScript _) as [[statements]|e]; [|done].
  destruct statements as [|[[properties|elements|]|] rest]; try done.
  cbn [body] in Hres.
  destruct (traverse _ _ _) as [found|] eqn:Hfound; [|done].
  injection Hres as <-. exists (String c pointer), properties, rest.
  repeat split; try done.
  apply traverse_sound in Hfound. destruct found as [a b]. cbn [jsonStart jsonEnd].
  by replace (a - 1 + 1) with a by lia; replace (b - 1 + 1) with b by lia.
Qed.

(** X14.  [extractJSONValueIndex] throws the error "jsonPath not found"
    when the library finds no match, when the match is the whole document
    (the empty pointer), and, whatever the match, when the document is not
    an object: a document that is an array is never searched. *)
Theorem extractJSONValueIndex_not_found (json path : string) :
  (JSONPath path json = Returned None \/ JSONPath path json = Returned (Some EmptyString) ->
   extractJSONValueIndex json path = Thrown (Error "jsonPath not found"))
  /\ (forall pointer tree,
        JSONPath path json = Returned (Some pointer) ->
        parseScript (String.append "(" (String.append json ")")) = Returned tree ->
        (forall properties rest,
           body tree <> ExpressionStatement (ObjectExpression properties) :: rest) ->
        extractJSONValueIndex json path = Thrown (Error "jsonPath not found")).
Proof.
  unfold extractJSONValueIndex. split.
  - by intros [-> | ->].
  - intros pointer tree -> Hparse Hroot. rewrite Hparse.
    destruct pointer; [done|].
    destruct (body tree) as [|[[properties|elements|]|] rest] eqn:Hbody; try done.
    by destruct (Hroot properties rest).
Qed.

End ExtractJSONValueIndex.

(** ** Parameters of version 1 *)

Lemma normaliseSelection_foldl zk (selections : list ResponseSelection) :
  forall matches redactions,
  foldl (fun acc rs => normaliseSelection zk rs acc) (matches, redactions) selections
  = (matches ++ omap selectionMatch selections,
     redactions ++ if zk then omap selectionRedaction selections else []).
Proof.
  induction selections as [|rs rest IH]; intros matches redactions; simpl.
  - destruct zk; by rewrite !app_nil_r.
  - rewrite IH. unfold selectionMatch, selectionRedaction.
    destruct zk, (truthy (selXPath rs) || truthy (selJsonPath rs)), (truthy (selResponseMatch rs));
      simpl; by rewrite <- ?app_assoc.
Qed.

(** X15.  For parameters of version 1, [normaliseParamsToV2] adds the two
    lists and keeps the rest: the matches are the [responseMatch] of every
    selection that has one, as a regex and in the order of the selections,
    with or without [useZK]; the redactions are empty without [useZK], and
    with it every selection gives at most one, by its paths if it has an
    xPath or a jsonPath and else by its [responseMatch] as a regex. *)
Theorem normaliseParamsToV2_of_v1 {Other} (params : HTTPProviderParams Other) :
  responseMatches params = None ->
  let v2 := normaliseParamsToV2 params in
  responseMatches v2 = Some (omap selectionMatch (responseSelections params))
  /\ responseRedactions v2
     = Some (if useZK params then omap selectionRedaction (responseSelections params) else [])
  /\ responseSelections v2 = responseSelections params
  /\ useZK v2 = useZK params
  /\ otherParams v2 = otherParams params.
Proof.
  intros Hv1. unfold normaliseParamsToV2. by rewrite Hv1, normaliseSelection_foldl.
Qed.

(** X16.  What [normaliseParamsToV2] returns has [responseMatches], and
    normalising it again changes nothing. *)
Theorem normaliseParamsToV2_idempotent {Other} (params : HTTPProviderParams Other) :
  normaliseParamsToV2 (normaliseParamsToV2 params) = normaliseParamsToV2 params
  /\ is_Some (responseMatches (normaliseParamsToV2 params)).
Proof.
  assert (is_Some (responseMatches (normaliseParamsToV2 params))) as [matches Hv2].
  { unfold normaliseParamsToV2. destruct (responseMatches params) eqn:Hm.
    - by rewrite Hm.
    - rewrite normaliseSelection_foldl. by eexists. }
  split; [|by eexists].
  unfold normaliseParamsToV2 at 1. by rewrite Hv2.
Qed.

(** * The zomato provider *)

Lemma createRequest_data cookieStr :
  requestData (createRequest cookieStr)
  = String.append requestHead (String.append cookieStr requestTail).
Proof. reflexivity. Qed.

Lemma substring_append_skip (p s : string) (n : nat) :
  String.substring (String.length p) n (String.append p s) = String.substring 0 n s.
Proof. induction p as [|a p IH]; simpl; [done | exact IH]. Qed.

Lemma substring_prefix (c q : string) :
  String.substring 0 (String.length c) (String.append c q) = c.
Proof.
  induction c as [|a c IH]; simpl.
  - by destruct q.
  - by rewrite IH.
Qed.

Lemma length_append (p q : string) :
  String.length (String.append p q) = (String.length p + String.length q)%nat.
Proof. induction p as [|a p IH]; simpl; [done | by rewrite IH]. Qed.

Lemma prefix_append (p s : string) : String.prefix p (String.append p s) = true.
Proof. apply String.prefix_correct, substring_prefix. Qed.

Lemma occursAt_middle (p c q : string) :
  occursAt (String.append p (String.append c q)) c (String.length p).
Proof. unfold occursAt. by rewrite substring_append_skip, substring_prefix. Qed.

(** A text that occurs is found, at its first occurrence. *)
Lemma index_finds (s sub : string) (k : nat) :
  occursAt s sub k ->
  exists i, String.index 0 sub s = Some i /\ (i <= k)%nat /\ occursAt s sub i
            /\ forall j, (j < i)%nat -> ~ occursAt s sub j.
Proof.
  intros Hk. destruct (String.index 0 sub s) as [i|] eqn:Hindex.
  - exists i. split; [done|]. split; [|split].
    + destruct (decide (i <= k)%nat) as [|Hgt]; [done|]. exfalso.
      apply (String.index_correct2 _ _ _ _ Hindex k); [lia | lia | exact Hk].
    + by apply (String.index_correct1 0).
    + intros j Hj. apply (String.index_correct2 _ _ _ _ Hindex j); lia.
  - destruct sub as [|a sub].
    + destruct s; simpl in Hindex; done.
    + exfalso. apply (String.index_correct3 0 k _ _ Hindex); [done | lia | exact Hk].
Qed.

(** X17.  For every cookie, [createRequest] returns one redaction, and it
    is a range of the request that holds the text of the cookie: it lies in
    the request, is as long as the cookie, and the request reads the cookie
    there. *)
Theorem createRequest_redacts_cookie_text (cookieStr : string) :
  exists i : nat,
    redactions (createRequest cookieStr)
    = [mkSlice (Z.of_nat i) (Z.of_nat i + Z.of_nat (String.length cookieStr))]
    /\ (i + String.length cookieStr <= String.length (requestData (createRequest cookieStr)))%nat
    /\ occursAt (requestData (createRequest cookieStr)) cookieStr i.
Proof.
  destruct (index_finds (requestData (createRequest cookieStr)) cookieStr
              (String.length requestHead)) as (i & Hindex & Hle & Hocc & _).
  { rewrite createRequest_data. apply occursAt_middle. }
  exists i. split; [|split; [|done]].
  - unfold createRequest, indexOf. cbv zeta.
    change (String.concat _ _) with (requestData (createRequest cookieStr)).
    by rewrite Hindex.
  - rewrite createRequest_data, !length_append. lia.
Qed.

(** X18.  The redaction of [createRequest] starts where the text of the
    cookie first occurs in the request, which is built as the head up to
    "cookie: ", the cookie, and the tail: it starts at the value of the
    cookie header or before it, and at the value of the cookie header
    exactly when the text of the cookie does not occur earlier in the
    request. *)
Theorem createRequest_redacts_first_occurrence (cookieStr : string) :
  exists i : nat,
    redactions (createRequest cookieStr)
    = [mkSlice (Z.of_nat i) (Z.of_nat i + Z.of_nat (String.length cookieStr))]
    /\ requestData (createRequest cookieStr)
       = String.append requestHead (String.append cookieStr requestTail)
    /\ (i <= String.length requestHead)%nat
    /\ (forall j, (j < i)%nat -> ~ occursAt (requestData (createRequest cookieStr)) cookieStr j)
    /\ (i = String.length requestHead
        <-> forall j, (j < String.length requestHead)%nat ->
              ~ occursAt (requestData (createRequest cookieStr)) cookieStr j).
Proof.
  destruct (index_finds (requestData (createRequest cookieStr)) cookieStr
              (String.length requestHead)) as (i & Hindex & Hle & Hocc & Hfirst).
  { rewrite createRequest_data. apply occursAt_middle. }
  exists i. split; [|split; [done|split; [done|split; [done|]]]].
  - unfold createRequest, indexOf. cbv zeta.
    change (String.concat _ _) with (requestData (createRequest cookieStr)).
    by rewrite Hindex.
  - split.
    + intros <-. exact Hfirst.
    + intros Hnone. destruct (decide (i = String.length requestHead)) as [|Hne]; [done|].
      exfalso. apply (Hnone i); [lia | done].
Qed.

(** A cookie whose text occurs in the request line: the redaction covers
    the "1" of "page=1", and the value of the cookie header, which starts
    at 117, is outside it. *)
Example createRequest_short_cookie :
  redactions (createRequest "1") = [mkSlice 32 33]
  /\ String.length requestHead = 117%nat.
Proof. split; vm_compute; reflexivity. Qed.

Section AssertValid.
Context `{ReceiptReader}.

(** X19.  [assertValidProviderReceipt] returns exactly for a receipt of
    the host and port of the provider whose request is a "get" of a url
    that starts with the path of the orders, whose response has the status
    200, and whose body and the user data both parse as JSON and serialise
    to the same text.  Once the host, the request and the status have
    passed, whatever goes wrong with the body, a body or user data that do
    not parse as well as a difference between the two, is thrown as an
    Error whose message starts with "Invalid response body: ". *)
Theorem assertValidProviderReceipt_accepts (receipt : Receipt) (userData : string) :
  (assertValidProviderReceipt receipt userData = Returned tt
   <-> receiptHostPort receipt = HOSTPORT
       /\ exists req res text,
            getHttpRequestHeadersFromTranscript receipt = Returned req
            /\ method req = "get"%string
            /\ String.prefix PATH (url req) = true
            /\ getCompleteHttpResponseFromReceipt receipt = Returned res
            /\ statusCode res = 200
            /\ reserialise (bodyText res) = Returned text
            /\ reserialise userData = Returned text)
  /\ (forall req res,
        receiptHostPort receipt = HOSTPORT ->
        getHttpRequestHeadersFromTranscript receipt = Returned req ->
        method req = "get"%string ->
        String.prefix PATH (url req) = true ->
        getCompleteHttpResponseFromReceipt receipt = Returned res ->
        statusCode res = 200 ->
        forall e, assertValidProviderReceipt receipt userData = Thrown e ->
          errClass e = PlainError
          /\ String.prefix "Invalid response body: " (message e) = true).
Proof.
  unfold assertValidProviderReceipt, compareBody. split; [split|].
  - intros Hok.
    destruct (String.eqb_spec (receiptHostPort receipt) HOSTPORT) as [Hhp|];
      [|done]. split; [done|]. cbn [negb] in Hok.
    destruct (getHttpRequestHeadersFromTranscript receipt) as [req|]; [|done].
    destruct (String.eqb_spec (method req) "get") as [Hmethod|]; [|done]. cbn [negb] in Hok.
    destruct (String.prefix PATH (url req)) eqn:Hpath; [|done]. cbn [negb] in Hok.
    destruct (getCompleteHttpResponseFromReceipt receipt) as [res|]; [|done].
    destruct (Z.eqb_spec (statusCode res) 200) as [Hstatus|]; [|done]. cbn [negb] in Hok.
    destruct (reserialise (bodyText res)) as [a|] eqn:Hbody; [|done].
    destruct (reserialise userData) as [b|] eqn:Huser; [|done].
    destruct (String.eqb_spec a b) as [Hsame|]; [|done].
    exists req, res, b. by rewrite Hbody, Hsame.
  - intros (Hhp & req & res & text & -> & Hmethod & Hpath & -> & Hstatus & -> & ->).
    by rewrite Hhp, Hmethod, Hpath, Hstatus, !String.eqb_refl.
  - intros req res Hhp -> Hmethod Hpath -> Hstatus e.
    rewrite Hhp, Hmethod, Hpath, Hstatus, !String.eqb_refl. cbn [negb Z.eqb Pos.eqb].
    destruct (reserialise (bodyText res)) as [a|ea].
    + destruct (reserialise userData) as [b|eb].
      * destruct (String.eqb a b); cbn [negb]; [done|].
        intros [= <-]. split; [done | apply prefix_append].
      * intros [= <-]. split; [done | apply prefix_append].
    + intros [= <-]. split; [done | apply prefix_append].
Qed.

End AssertValid.

(** * The window RPC *)

(** X20.  In a page that is cross-origin isolated and can measure its
    memory, [getCurrentMemoryUsage] of a measurement of [bytes] bytes, a
    count below 2^53, reports the usage as available, as the number of
    megabytes followed by "mb", and this number is the one nearest to
    bytes / 2^20: it is off by half a megabyte at most. *)
Theorem getCurrentMemoryUsage_rounds (env : MemoryEnv) (bytes : Z) :
  crossOriginIsolated env = true ->
  measureUserAgentSpecificMemory env = Some (Measured bytes) ->
  0 <= bytes < 2 ^ 53 ->
  exists mb,
    getCurrentMemoryUsage env = Returned (mkMemoryUsage true (String.append (pretty mb) "mb"))
    /\ 0 <= mb
    /\ - 524288 <= bytes - 1048576 * mb < 524288.
Proof.
  intros Hisolated Hmeasure Hbytes. exists (totalmb bytes).
  unfold getCurrentMemoryUsage. rewrite Hisolated, Hmeasure. split; [done|].
  unfold totalmb.
  pose proof (Z.div_mod (bytes + 524288) 1048576 ltac:(lia)) as Hdiv.
  pose proof (Z.mod_pos_bound (bytes + 524288) 1048576 ltac:(lia)) as Hmod.
  split; [apply Z.div_pos; lia | lia].
Qed.

Section WindowRpcFacts.
Context `{WindowHost} `{JSONLibraries}.

Lemma respond_run (source : bool) (req : WindowRPCRequest) data ps :
  let h := mkHandling (default EmptyString (requestId req))
             (default EmptyString (requestChannel req)) ps in
  respond source data h
  = match posting source req with
    | Delivered =>
        (Returned tt,
         mkHandling (default EmptyString (requestId req))
           (default EmptyString (requestChannel req)) (ps ++ [answerTo req data]))
    | Dropped => (Returned tt, h)
    | Refused => (Thrown (refusal req), h)
    end.
Proof.
  unfold respond, posting, refusal, answerTo, replyTo. cbn.
  destruct (requestChannel req) as [[|c rest]|]; cbn; try by destruct source.
  by destruct (windowProperty _).
Qed.

Lemma respond_steps (source : bool) (req : WindowRPCRequest) (steps : list CreateStep) :
  forall ps,
  let h := mkHandling (default EmptyString (requestId req))
             (default EmptyString (requestChannel req)) ps in
  forEach steps (fun step => respond source (CreateClaimStep step)) h
  = match posting source req, steps with
    | Delivered, _ =>
        (Returned tt,
         mkHandling (default EmptyString (requestId req))
           (default EmptyString (requestChannel req))
           (ps ++ map (fun step => answerTo req (CreateClaimStep step)) steps))
    | Refused, _ :: _ => (Thrown (refusal req), h)
    | _, _ => (Returned tt, h)
    end.
Proof.
  induction steps as [|step steps IH]; intros ps; cbv zeta.
  - simpl. unfold ret. destruct (posting source req); by rewrite ?app_nil_r.
  - cbn [forEach]. unfold bind.
    pose proof (respond_run source req (CreateClaimStep step) ps) as Hone.
    cbv zeta in Hone. rewrite Hone.
    destruct (posting source req) eqn:Hposting; [| |done].
    + pose proof (IH (ps ++ [answerTo req (CreateClaimStep step)])) as Hrest.
      cbv zeta in Hrest. rewrite Hrest, ?Hposting. cbn [map]. by rewrite <- app_assoc.
    + pose proof (IH ps) as Hrest. cbv zeta in Hrest. rewrite Hrest, ?Hposting.
      by destruct steps.
Qed.

(** When posting throws, the [switch] throws and leaves nothing posted. *)
Lemma dispatch_refused (source : bool) (req : WindowRPCRequest) :
  posting source req = Refused ->
  let h := mkHandling (default EmptyString (requestId req))
             (default EmptyString (requestChannel req)) [] in
  exists e, dispatch source req h = (Thrown e, h).
Proof.
  intros Hposting h. unfold dispatch.
  assert (forall data, respond source data h = (Thrown (refusal req), h)) as Hrespond.
  { intros data. subst h. pose proof (respond_run source req data []) as Hone.
    cbv zeta in Hone. by rewrite Hone, Hposting. }
  destruct (requestBody req) as [request|html xpath contentsOnly|json path| |].
  - unfold bind at 1. subst h.
    pose proof (respond_steps source req (createClaim request).1 []) as Hsteps.
    cbv zeta in Hsteps. rewrite Hsteps, Hposting.
    destruct (createClaim request).1 as [|step steps]; [|by eexists].
    unfold bind, settle. destruct (createClaim request).2 as [response|e]; [|by eexists].
    rewrite Hrespond. by eexists.
  - unfold bind, settle.
    destruct (extractHTMLElement html xpath contentsOnly) as [response|e]; [|by eexists].
    rewrite Hrespond. by eexists.
  - unfold bind, settle.
    destruct (extractJSONValueIndex json path) as [response|e]; [|by eexists].
    rewrite Hrespond. by eexists.
  - unfold bind, settle.
    destruct (getCurrentMemoryUsage page) as [response|e]; [|by eexists].
    rewrite Hrespond. by eexists.
  - unfold throw. by eexists.
Qed.

(** X21.  A request, that is a message of the module "witness-sdk" that is
    not a response and has an id, is answered when its answers can be
    posted, to the channel that it names or else to the source of the
    event, and [handleMessage] then returns: it posts the steps, which only
    [createClaim] has, and then one last message, the "...Done" of the
    request or an error; every message carries the id of the request, the
    module and the response flag.  When the window has nothing under the
    name of the channel, nothing is posted and [handleMessage] returns all
    the same.  When posting throws, because the event has no source or
    because what the window has under the name of the channel cannot post,
    [handleMessage] throws this TypeError, also from its [catch], and
    nothing has been posted. *)
Theorem handleMessage_answers_request (source : bool) (req : WindowRPCRequest) :
  isRequest req = true ->
  let h := mkHandling (default EmptyString (requestId req))
             (default EmptyString (requestChannel req)) in
  (posting source req <> Refused ->
   exists (steps : list CreateStep) (final : WindowRPCData),
     handleMessage source (MessageData req) handlingStart
     = (Returned tt,
        h match posting source req with
          | Delivered =>
              map (fun step => answerTo req (CreateClaimStep step)) steps
              ++ [answerTo req final]
          | _ => []
          end)
     /\ concludes (requestBody req) final
     /\ (steps <> [] -> exists request, requestBody req = CreateClaimRequest request))
  /\ (posting source req = Refused ->
      exists err,
        handleMessage source (MessageData req) handlingStart = (Thrown err, h [])
        /\ errClass err = TypeError).
Proof.
  intros Hreq h. pose proof Hreq as Hfields. unfold isRequest in Hfields.
  apply andb_true_iff in Hfields as [Hfields Hid].
  apply andb_true_iff in Hfields as [Hmodule Hresponse].
  apply negb_true_iff in Hresponse.
  assert (exists c id, requestId req = Some (String c id)) as (c & id & Hid').
  { destruct (requestId req) as [[|c id]|]; try done. eauto. }
  assert (handleMessage source (MessageData req) handlingStart
          = tryCatch (dispatch source req)
              (fun err => respond source (ErrorResponse (message err))) (h [])) as ->.
  { unfold handleMessage, tryCatch, handleRequest.
    rewrite Hmodule, Hresponse, Hid'. cbn [negb].
    unfold bind at 1, modify at 1, handlingStart. cbn [posted]. subst h.
    by rewrite Hid'. }
  assert (forall data ps,
            respond source data (h ps)
            = match posting source req with
              | Delivered => (Returned tt, h (ps ++ [answerTo req data]))
              | Dropped => (Returned tt, h ps)
              | Refused => (Thrown (refusal req), h ps)
              end) as Hrespond.
  { intros data ps. apply (respond_run source req data ps). }
  split.
  - intros Hposts. unfold tryCatch, dispatch.
    assert (forall final : WindowRPCData,
              (Returned tt,
               h match posting source req with
                 | Delivered => [] ++ [answerTo req final]
                 | _ => []
                 end)
              = respond source final (h [])) as Hlast.
    { intros final. rewrite Hrespond. by destruct (posting source req). }
    destruct (requestBody req) as [request|html xpath contentsOnly|json path| |] eqn:Hbody.
    + unfold bind at 1.
      pose proof (respond_steps source req (createClaim request).1 []) as Hsteps.
      cbv zeta in Hsteps. fold (h []) in Hsteps. rewrite Hsteps.
      assert (forall final : WindowRPCData,
                respond source final
                  (h match posting source req with
                     | Delivered => map (fun step => answerTo req (CreateClaimStep step))
                                      (createClaim request).1
                     | _ => []
                     end)
                = (Returned tt,
                   h match posting source req with
                     | Delivered =>
                         map (fun step => answerTo req (CreateClaimStep step))
                           (createClaim request).1 ++ [answerTo req final]
                     | _ => []
                     end)) as Hafter.
      { intros final. rewrite Hrespond. by destruct (posting source req). }
      assert (forall k : unit -> Eff Handling unit,
                match
                  match posting source req, (createClaim request).1 with
                  | Delivered, _ =>
                      (Returned tt,
                       h ([] ++ map (fun step => answerTo req (CreateClaimStep step))
                                  (createClaim request).1))
                  | Refused, _ :: _ => (Thrown (refusal req), h [])
                  | _, _ => (Returned tt, h [])
                  end
                with
                | (Returned a, s') => k a s'
                | (Thrown e, s') => (Thrown e, s')
                end
                = k tt (h match posting source req with
                          | Delivered => map (fun step => answerTo req (CreateClaimStep step))
                                           (createClaim request).1
                          | _ => []
                          end)) as Hgo.
      { intros k. destruct (posting source req); [done | done | done]. }
      rewrite Hgo. unfold bind, settle.
      destruct (createClaim request).2 as [response|e].
      * exists (createClaim request).1, (CreateClaimDone response).
        rewrite Hafter. split; [done|]. split; [done | eauto].
      * exists (createClaim request).1, (ErrorResponse (message e)).
        rewrite Hafter. split; [done|]. split; [done | eauto].
    + unfold bind at 1, settle.
      destruct (extractHTMLElement html xpath contentsOnly) as [response|e].
      * exists [], (ExtractHtmlElementDone response). rewrite Hlast.
        split; [by destruct (respond _ _ _) as [[[]|?] ?] eqn:Hr; rewrite Hrespond in Hr;
                   destruct (posting source req)|done].
      * exists [], (ErrorResponse (message e)). by rewrite Hlast.
    + unfold bind at 1, settle.
      destruct (extractJSONValueIndex json path) as [response|e].
      * exists [], (ExtractJSONValueIndexDone response). rewrite Hlast.
        split; [by destruct (respond _ _ _) as [[[]|?] ?] eqn:Hr; rewrite Hrespond in Hr;
                   destruct (posting source req)|done].
      * exists [], (ErrorResponse (message e)). by rewrite Hlast.
    + unfold bind at 1, settle.
      destruct (getCurrentMemoryUsage page) as [response|e].
      * exists [], (GetCurrentMemoryUsageDone response). rewrite Hlast.
        split; [by destruct (respond _ _ _) as [[[]|?] ?] eqn:Hr; rewrite Hrespond in Hr;
                   destruct (posting source req)|done].
      * exists [], (ErrorResponse (message e)). by rewrite Hlast.
    + unfold throw. eexists [], (ErrorResponse _). by rewrite Hlast.
  - intros Hrefused. exists (refusal req).
    split; [|by unfold refusal; destruct (requestChannel req) as [[|??]|]].
    destruct (dispatch_refused source req Hrefused) as [e Hthrown].
    cbv zeta in Hthrown. rewrite Hid' in Hthrown. cbn [default] in Hthrown.
    unfold tryCatch. subst h. rewrite Hid'. cbn [default]. rewrite Hthrown.
    pose proof (respond_run source req (ErrorResponse (message e)) []) as Hone.
    cbv zeta in Hone. rewrite Hid' in Hone. cbn [default] in Hone.
    by rewrite Hone, Hrefused.
Qed.

(** X22.  A message that is not a request, one of another module, a
    response, or one without an id, is ignored, as an object and as a text
    that parses to it, and so is an event without data: nothing is posted.
    A text that does not parse is not ignored: [handleMessage] answers it
    with an error that carries the message of the parser and the empty id,
    posted to the source of the event; when the event has no source, this
    [respond] in the [catch] throws and [handleMessage] throws its
    TypeError. *)
Theorem handleMessage_not_a_request (source : bool) (text : string) (e : JsError)
    (req : WindowRPCRequest) :
  (isRequest req = false ->
   handleMessage source (MessageData req) handlingStart = (Returned tt, handlingStart)
   /\ (parseJSON text = Returned (Some req) ->
       handleMessage source (TextData text) handlingStart = (Returned tt, handlingStart)))
  /\ handleMessage source NoData handlingStart = (Returned tt, handlingStart)
  /\ (text <> EmptyString -> parseJSON text = Thrown e ->
      (source = true ->
       handleMessage source (TextData text) handlingStart
       = (Returned tt,
          mkHandling EmptyString EmptyString
            [(ToSource, mkWindowResponse (ErrorResponse (message e)) EmptyString
                          "witness-sdk" true)]))
      /\ (source = false ->
          exists err,
            handleMessage source (TextData text) handlingStart = (Thrown err, handlingStart)
            /\ errClass err = TypeError)).
Proof.
  split; [|split].
  - intros Hreq.
    assert (handleRequest source req handlingStart = (Returned tt, handlingStart)) as Hignored.
    { unfold handleRequest, isRequest in *.
      destruct (bool_decide _); [|done]. destruct (requestIsResponse req); [done|].
      by destruct (requestId req) as [[|c id]|]. }
    split.
    + unfold handleMessage, tryCatch. by rewrite Hignored.
    + intros Hparse. unfold handleMessage, tryCatch.
      destruct text as [|c text]; [done|].
      unfold bind, settle. rewrite Hparse. by rewrite Hignored.
  - done.
  - intros Htext Hparse. unfold handleMessage, tryCatch.
    destruct text as [|c text]; [done|].
    unfold bind, settle. rewrite Hparse. unfold respond, handlingStart. cbn.
    split; intros ->; [done|]. by eexists.
Qed.

End WindowRpcFacts.

(** * The session of the example *)

(** Evaluates a closed equation. *)
Ltac computed := vm_compute; reflexivity.

(** The request after the handshake, in key-update mode: five records, of
    which the first and the last are marked Complete; the one in the middle
    holds the secret and is encrypted with keys of its own. *)
Lemma keyUpdate_write_keeps_slices_undisclosed_witness :
  let s := demoReady KeyUpdate None in
  let data := strToUint8Array scenarioRequest in
  let expected :=
    [mkShape APPLICATION_DATA (slice data 0 32) 0 (Some Complete);
     mkShape HANDSHAKE (keyUpdateMessage (Capabilities := lenientRelay)) 0 None;
     mkShape APPLICATION_DATA (slice data 32 41) 1 None;
     mkShape HANDSHAKE (keyUpdateMessage (Capabilities := lenientRelay)) 1 None;
     mkShape APPLICATION_DATA (slice data 41 45) 2 (Some Complete)] in
  defaultWriteRedactionMode s = KeyUpdate
  /\ disjointAscending [scenarioSecret]
  /\ exists recs,
       allPackets (write (H := lenientRelay) data [scenarioSecret] s).2 = allPackets s ++ recs
       /\ Forall2 (hasShape (H := lenientRelay) (Some TLS1_3)) expected recs.
Proof.
  intros s data expected.
  assert (disjointAscending [scenarioSecret]) as Hasc by (vm_compute; intuition discriminate).
  assert (defaultWriteRedactionMode s = KeyUpdate) as Hmode by computed.
  split; [exact Hmode|]. split; [exact Hasc|].
  destruct (keyUpdate_write_keeps_slices_undisclosed (H := lenientRelay)
              s data [scenarioSecret] Hmode Hasc)
    as ((recs & written & Hps & _ & Hret & Hshapes & _) & _).
  exists recs. split; [exact Hps|].
  assert ((write (H := lenientRelay) data [scenarioSecret] s).1 = Returned tt) as Hreturned
    by computed.
  assert (tlsVersion (tls s) = Some TLS1_3) as Hversion by computed.
  rewrite (Hret Hreturned), Hversion in Hshapes.
  match type of Hshapes with
  | Forall2 _ ?l _ => replace l with expected in Hshapes by computed
  end.
  exact Hshapes.
Defined.

(** A request of 16390 bytes whose last nine bytes are the secret: the
    16381 bytes before the secret are one disclosed span, and the engine
    needs two records for them.  The first of the two, with 16380 bytes of
    the span, has no decision; only the second one is marked Complete. *)
Lemma keyUpdate_write_splits_disclosed_span :
  let s := demoReady KeyUpdate None in
  let data := replicate (Z.to_nat 16381) "a"%byte ++ strToUint8Array "secret123" in
  let sections := [mkSlice 16381 16390] in
  let s' := (write (H := lenientRelay) data sections s).2 in
  defaultWriteRedactionMode s = KeyUpdate
  /\ disjointAscending sections
  /\ alternatingSpans (Z.of_nat (length data)) 0 sections
     = [mkSpan 0 16381 true; mkSpan 16381 16390 false]
  /\ (write (H := lenientRelay) data sections s).1 = Returned tt
  /\ map (fun r => (Z.of_nat (length (payload (Some TLS1_3) r)), reveal r))
       (List.filter carriesData (drop (length (allPackets s)) (allPackets s')))
     = [(16380, None); (1, Some Complete); (9, None)].
Proof.
  intros s data sections s'.
  split; [computed|]. split; [vm_compute; intuition discriminate|].
  split; [computed|]. split; computed.
Qed.

(** The same request in zk mode: one record, with the secret blanked. *)
Lemma zk_write_single_redacted_record_witness :
  let s := demoReady Zk None in
  let data := strToUint8Array scenarioRequest in
  defaultWriteRedactionMode s = Zk
  /\ exists r,
       allPackets (write (H := lenientRelay) data [scenarioSecret] s).2 = allPackets s ++ [r]
       /\ index r = 4
       /\ reveal r = Some (ZK (redactSlices (H := lenientRelay) data [scenarioSecret])).
Proof.
  intros s data.
  assert (defaultWriteRedactionMode s = Zk) as Hmode by computed.
  split; [exact Hmode|].
  destruct (zk_write_single_redacted_record (H := lenientRelay)
              s data [scenarioSecret] 4 Hmode) as (Hone & _).
  destruct Hone as (r & _ & Hps & _ & Hindex & _ & Hreveal & _);
    [computed | computed | computed | vm_compute; discriminate | apply Nat.leb_le; computed |].
  exists r. repeat split; assumption.
Defined.

(** In zk mode, after the handshake: [write] of the empty buffer appends
    no record, and the Finished of the client, record 3, which had no
    decision, is marked ZK over nothing; [write] of 16381 bytes appends two
    records, of which the first has no decision. *)
Lemma zk_write_not_one_record :
  let s := demoReady Zk None in
  let long := replicate (Z.to_nat 16381) "a"%byte in
  let written := drop (length (allPackets s))
                   (allPackets (write (H := lenientRelay) long [] s).2) in
  defaultWriteRedactionMode s = Zk
  /\ (write (H := lenientRelay) [] [] s).1 = Returned tt
  /\ length (allPackets (write (H := lenientRelay) [] [] s).2) = length (allPackets s)
  /\ reveal <$> allPackets s !! 3%nat = Some None
  /\ reveal <$> allPackets (write (H := lenientRelay) [] [] s).2 !! 3%nat = Some (Some (ZK []))
  /\ (write (H := lenientRelay) long [] s).1 = Returned tt
  /\ map (fun r => Z.of_nat (length (payload (Some TLS1_3) r))) written = [16380; 1]
  /\ map (fun r => match reveal r with
                   | Some (ZK view) => Some (Z.of_nat (length view))
                   | _ => None
                   end) written
     = [None; Some 16381].
Proof.
  intros s long written. repeat split; computed.
Qed.


(** [finish] after the session, with a response redaction that returns the
    first eight bytes: the encrypted handshake record of the server,
    record 2, is not application data and gets no decision; the first
    record of the response, record 9, is marked ZK; the second one,
    record 10, gets no decision. *)
Lemma finish_redacts_server_records_witness :
  let s0 := demoStart KeyUpdate (Some demoRedact) in
  let s := (session (H := lenientRelay) demoEvents s0).2 in
  let after := allPackets (finish (H := lenientRelay) s).2 in
  serverUndecided s0
  /\ noSession (sessionId s) = false
  /\ metadataAssigned s = true
  /\ responsePlaintext (metadata s) (allPackets s) = strToUint8Array "HTTP/1.1 200 OKtoken=abc"
  /\ reveal <$> after !! 2%nat = Some None
  /\ reveal <$> after !! 9%nat
     = Some (Some (ZK (strToUint8Array "******** 200 OK")))
  /\ reveal <$> after !! 10%nat = Some None.
Proof.
  intros s0 s after. subst after s.
  assert (serverUndecided s0) as Hs0 by (vm_compute; constructor).
  split; [exact Hs0|].
  set (s := (session (H := lenientRelay) demoEvents s0).2).
  assert (noSession (sessionId s) = false) as Hsid by computed.
  assert (metadataAssigned s = true) as Hassigned by computed.
  split; [exact Hsid|]. split; [exact Hassigned|]. split; [computed|].
  destruct (finish_redacts_server_records (H := lenientRelay) s0 demoEvents Hs0 Hsid Hassigned)
    as (_ & _ & _ & Hredact).
  fold s in Hredact.
  assert (redactResponse s = Some demoRedact) as Hfun by computed.
  specialize (Hredact demoRedact Hfun). cbv zeta in Hredact.
  split; [|split].
  - destruct (allPackets s !! 2%nat) as [p|] eqn:Hp; [|vm_compute in Hp; discriminate Hp].
    pose proof (take_drop_middle _ _ _ Hp) as Hsplit.
    assert (length (take 2 (allPackets s)) = 2%nat) as Hlen by computed.
    vm_compute in Hp. injection Hp as <-.
    rewrite <- Hlen.
    edestruct (Hredact _ _ _ (eq_sym Hsplit) eq_refl) as [_ ->].
    computed.
  - destruct (allPackets s !! 9%nat) as [p|] eqn:Hp; [|vm_compute in Hp; discriminate Hp].
    pose proof (take_drop_middle _ _ _ Hp) as Hsplit.
    assert (length (take 9 (allPackets s)) = 9%nat) as Hlen by computed.
    vm_compute in Hp. injection Hp as <-.
    rewrite <- Hlen.
    edestruct (Hredact _ _ _ (eq_sym Hsplit) eq_refl) as [_ ->].
    computed.
  - destruct (allPackets s !! 10%nat) as [p|] eqn:Hp; [|vm_compute in Hp; discriminate Hp].
    pose proof (take_drop_middle _ _ _ Hp) as Hsplit.
    assert (length (take 10 (allPackets s)) = 10%nat) as Hlen by computed.
    vm_compute in Hp. injection Hp as <-.
    rewrite <- Hlen.
    edestruct (Hredact _ _ _ (eq_sym Hsplit) eq_refl) as [_ ->].
    computed.
Defined.

(** The relay has closed the session while the request was written: the
    caller gets the error with which the stream ended.  Any other error of
    the write comes back at once. *)
Lemma write_error_waits_for_stream_end_witness :
  let writeError :=
    mkError (ClientError FAILED_PRECONDITION) "FAILED_PRECONDITION: session is closed" in
  let streamError := Error "tls session ended: connection reset" in
  generateProviderReceipt (demoProvider writeError streamError) []
  = (Thrown streamError, [StepWaitingForResponse; StepSendingRequestData; StepConnecting])
  /\ generateProviderReceipt (demoProvider (Error "socket hang up") streamError) []
     = (Thrown (Error "socket hang up"), [StepSendingRequestData; StepConnecting]).
Proof.
  intros writeError streamError. split.
  - rewrite (write_error_waits_for_stream_end (demoProvider writeError streamError)
               [] [StepConnecting] [StepSendingRequestData; StepConnecting] writeError);
      computed.
  - rewrite (write_error_waits_for_stream_end
               (demoProvider (Error "socket hang up") streamError)
               [] [StepConnecting] [StepSendingRequestData; StepConnecting]
               (Error "socket hang up"));
      computed.
Defined.

(** The stream fails with an alert: the TLS session is ended with this
    error and the error is thrown. *)
Lemma pull_loop_errors_witness :
  let s := demoReady KeyUpdate None in
  let failure := Error "received alert: bad record mac" in
  let stopped := listenToDataFromServer (H := lenientRelay) [] (StreamFailed failure)
                   (tlsStartHandshake (H := lenientRelay)) s in
  stopped.1 = Thrown failure /\ endCalls (tls stopped.2) = [Some failure].
Proof.
  intros s failure stopped.
  destruct (pull_loop_errors (H := lenientRelay) [] (StreamFailed failure)
              (tlsStartHandshake (H := lenientRelay)) s s failure)
    as (_ & _ & Hother); [computed|].
  destruct Hother as [Hthrown Hended]; [computed|].
  split; [exact Hthrown|]. subst stopped. rewrite Hended. computed.
Defined.

(** The caller has not aborted the pull and the stream fails with an error
    whose message happens to contain "aborted": the loop returns as after
    an abort, the error is lost, and the TLS session is ended without it. *)
Lemma pull_loop_swallows_stream_error :
  let s := demoReady KeyUpdate None in
  let stopped := listenToDataFromServer (H := lenientRelay) [] (StreamFailed demoStreamError)
                   (tlsStartHandshake (H := lenientRelay)) s in
  pullFromSessionAbort s = Some false
  /\ stopped.1 = Returned tt
  /\ stopped.1 <> Thrown demoStreamError
  /\ endCalls (tls stopped.2) = [None].
Proof.
  intros s stopped.
  assert (stopped.1 = Returned tt) as Hret by computed.
  split; [computed|]. split; [exact Hret|]. split; [|computed].
  rewrite Hret. discriminate.
Qed.

(** With a relay that acknowledges every cancelSession, [cancel] can be
    called twice. *)
Lemma cancel_again_witness :
  let s := demoReady KeyUpdate None in
  let s1 := (cancel (H := lenientRelay) s).2 in
  cancel (H := lenientRelay) s = (Returned tt, s1)
  /\ (cancel (H := lenientRelay) s1).1 = Returned tt
  /\ allPackets (cancel (H := lenientRelay) s1).2 = allPackets s1.
Proof.
  intros s s1.
  assert (cancel (H := lenientRelay) s = (Returned tt, s1)) as Hfirst by computed.
  split; [exact Hfirst|].
  destruct (cancel_again (H := lenientRelay) s s1 Hfirst) as (_ & Hsame & _ & Hanswer).
  split; [|exact Hsame]. rewrite Hanswer. computed.
Defined.

(** With a relay that forgets a cancelled session, the second [cancel]
    throws. *)
Lemma cancel_twice_throws :
  let s := demoReady KeyUpdate None in
  let s1 := (cancel (H := forgetfulRelay) s).2 in
  cancel (H := forgetfulRelay) s = (Returned tt, s1)
  /\ (cancel (H := forgetfulRelay) s1).1
     = Thrown (mkError (ClientError NOT_FOUND) "session not found").
Proof.
  split; computed.
Qed.

(** Right after [makeAPITLSClient] there is nothing to cancel or finish. *)
Lemma finish_cancel_need_session_witness :
  let s := makeAPITLSClient KeyUpdate None in
  noSession (sessionId s) = true
  /\ cancel (H := lenientRelay) s = (Thrown InvalidState, s)
  /\ finish (H := lenientRelay) s = (Thrown InvalidState, s).
Proof.
  intros s.
  assert (noSession (sessionId s) = true) as Hsid by computed.
  split; [exact Hsid|].
  destruct (finish_cancel_need_session (H := lenientRelay) s Hsid) as (Hcancel & Hfinish & _).
  split; assumption.
Defined.



(** The request written without any RedactedSlice: one record, marked
    Complete, and no key update. *)
Lemma keyUpdate_write_without_slices_witness :
  let s := demoReady KeyUpdate None in
  let data := strToUint8Array scenarioRequest in
  defaultWriteRedactionMode s = KeyUpdate
  /\ (write (H := lenientRelay) data [] s).1 = Returned tt
  /\ trafficKeyUpdates (tls (write (H := lenientRelay) data [] s).2) = 0%nat
  /\ exists r,
       allPackets (write (H := lenientRelay) data [] s).2 = allPackets s ++ [r]
       /\ index r = 4
       /\ reveal r = Some Complete.
Proof.
  intros s data.
  assert (defaultWriteRedactionMode s = KeyUpdate) as Hmode by computed.
  split; [exact Hmode|].
  destruct (keyUpdate_write_without_slices (H := lenientRelay) s data 4 Hmode)
    as (Hkeys & Hone & _).
  destruct Hone as (Hret & r & Hps & _ & Hindex & _ & Hreveal);
    [computed | computed | computed | vm_compute; discriminate | apply Nat.leb_le; computed |].
  split; [exact Hret|]. split; [rewrite Hkeys; computed|].
  exists r. repeat split; assumption.
Defined.

(** [write] of the empty buffer with no RedactedSlice: it returns, and no
    record has been appended. *)
Lemma keyUpdate_write_of_nothing :
  let s := demoReady KeyUpdate None in
  defaultWriteRedactionMode s = KeyUpdate
  /\ (write (H := lenientRelay) [] [] s).1 = Returned tt
  /\ allPackets (write (H := lenientRelay) [] [] s).2 = allPackets s
  /\ ~ exists r, allPackets (write (H := lenientRelay) [] [] s).2 = allPackets s ++ [r].
Proof.
  intros s.
  assert (allPackets (write (H := lenientRelay) [] [] s).2 = allPackets s) as Hsame by computed.
  split; [computed|]. split; [computed|]. split; [exact Hsame|].
  intros [r Hr]. rewrite Hsame in Hr.
  apply (f_equal length) in Hr. rewrite length_app in Hr. simpl in Hr. lia.
Qed.

(** ** More of the client, on the session of the example *)

(** A write on the closure as [makeAPITLSClient] returns it. *)
Lemma write_before_initialise_witness :
  let s := makeAPITLSClient Zk None in
  let data := strToUint8Array scenarioRequest in
  noSession (sessionId s) = true
  /\ handshakeDone (tls s) = false
  /\ (write (H := lenientRelay) data [scenarioSecret] s).1 = Thrown (Error "Handshake not done")
  /\ allPackets (write (H := lenientRelay) data [scenarioSecret] s).2 = [].
Proof.
  intros s data.
  assert (noSession (sessionId s) = true) as Hsid by computed.
  assert (handshakeDone (tls s) = false) as Hdone by computed.
  split; [exact Hsid|]. split; [exact Hdone|].
  destruct (write_before_initialise (H := lenientRelay) s data [scenarioSecret] Hsid Hdone)
    as (Hps & _ & Hres).
  split; [exact Hres | exact Hps].
Defined.

(** A client made for key updates, in a TLS1.2 session. *)
Lemma tls12_session_never_rotates_keys_witness :
  let s := demoTls12 in
  let events := [Wrote (strToUint8Array scenarioRequest) [scenarioSecret]] in
  let after := (session (H := lenientRelay) events (onHandshake s).2).2 in
  tlsVersion (tls s) = Some TLS1_2
  /\ defaultWriteRedactionMode s = KeyUpdate
  /\ defaultWriteRedactionMode after = Zk
  /\ trafficKeyUpdates (tls after) = 0%nat.
Proof.
  intros s events after.
  assert (tlsVersion (tls s) = Some TLS1_2) as Hversion by computed.
  split; [exact Hversion|]. split; [computed|].
  destruct (tls12_session_never_rotates_keys (H := lenientRelay) s events Hversion)
    as (_ & Hmode & Hrotations).
  split; [exact Hmode | exact Hrotations].
Defined.

(** The request of scenario B costs two rotations, one before and one
    after the record of the secret. *)
Lemma keyUpdate_write_rotates_twice_per_section_witness :
  let s := demoReady KeyUpdate None in
  let data := strToUint8Array scenarioRequest in
  relayAccepts (H := lenientRelay)
  /\ defaultWriteRedactionMode s = KeyUpdate
  /\ ready s
  /\ tlsVersion (tls s) = Some TLS1_3
  /\ disjointAscending [scenarioSecret]
  /\ trafficKeyUpdates (tls (write (H := lenientRelay) data [scenarioSecret] s).2) = 2%nat
  /\ exists recs,
       allPackets (write (H := lenientRelay) data [scenarioSecret] s).2 = allPackets s ++ recs
       /\ Forall2 (hasShape (H := lenientRelay) (Some TLS1_3))
            [mkShape APPLICATION_DATA (slice data 0 32) 0 (Some Complete);
             mkShape HANDSHAKE (keyUpdateMessage (Capabilities := lenientRelay)) 0 None;
             mkShape APPLICATION_DATA (slice data 32 41) 1 None;
             mkShape HANDSHAKE (keyUpdateMessage (Capabilities := lenientRelay)) 1 None;
             mkShape APPLICATION_DATA (slice data 41 45) 2 (Some Complete)]
            recs.
Proof.
  intros s data.
  assert (relayAccepts (H := lenientRelay)) as Haccepted by (intros n; by eexists).
  assert (defaultWriteRedactionMode s = KeyUpdate) as Hmode by computed.
  assert (ready s) as Hready by (split; computed).
  assert (tlsVersion (tls s) = Some TLS1_3) as Hversion by computed.
  assert (disjointAscending [scenarioSecret]) as Hasc by (vm_compute; intuition discriminate).
  split; [exact Haccepted|]. split; [exact Hmode|]. split; [exact Hready|].
  split; [exact Hversion|]. split; [exact Hasc|].
  destruct (keyUpdate_write_rotates_twice_per_section (H := lenientRelay)
              s data [scenarioSecret] Haccepted Hmode Hready Hversion Hasc)
    as (_ & Hrotations & (recs & Hps & Hshapes) & _).
  split; [rewrite Hrotations; computed|].
  exists recs. split; [exact Hps|].
  match type of Hshapes with
  | Forall2 _ ?l _ =>
      replace l with
        [mkShape APPLICATION_DATA (slice data 0 32) 0 (Some Complete);
         mkShape HANDSHAKE (keyUpdateMessage (Capabilities := lenientRelay)) 0 None;
         mkShape APPLICATION_DATA (slice data 32 41) 1 None;
         mkShape HANDSHAKE (keyUpdateMessage (Capabilities := lenientRelay)) 1 None;
         mkShape APPLICATION_DATA (slice data 41 45) 2 (Some Complete)]
        in Hshapes by computed
  end.
  exact Hshapes.
Defined.

(** The three data records of the request of scenario B make up the
    request. *)
Lemma keyUpdate_write_sends_buffer_once_witness :
  let s := demoReady KeyUpdate None in
  let data := strToUint8Array scenarioRequest in
  defaultWriteRedactionMode s = KeyUpdate
  /\ disjointAscending [scenarioSecret]
  /\ (write (H := lenientRelay) data [scenarioSecret] s).1 = Returned tt
  /\ exists recs,
       allPackets (write (H := lenientRelay) data [scenarioSecret] s).2 = allPackets s ++ recs
       /\ concat (map (payload (Some TLS1_3)) (List.filter carriesData recs)) = data.
Proof.
  intros s data.
  assert (defaultWriteRedactionMode s = KeyUpdate) as Hmode by computed.
  assert (disjointAscending [scenarioSecret]) as Hasc by (vm_compute; intuition discriminate).
  assert ((write (H := lenientRelay) data [scenarioSecret] s).1 = Returned tt) as Hret
    by computed.
  split; [exact Hmode|]. split; [exact Hasc|]. split; [exact Hret|].
  destruct (keyUpdate_write_sends_buffer_once (H := lenientRelay)
              s data [scenarioSecret] Hmode Hasc Hret) as (recs & Hps & Hwhole).
  exists recs. split; [exact Hps|].
  assert (tlsVersion (tls s) = Some TLS1_3) as Hversion by computed.
  rewrite Hversion in Hwhole. exact Hwhole.
Defined.

(** The session of the example, finished with a relay that rejects the
    proof. *)
Lemma finish_rejected_skips_teardown_witness :
  let s := demoDone KeyUpdate None in
  let e := mkError (ClientError INVALID_ARGUMENT) "proof rejected" in
  noSession (sessionId s) = false
  /\ metadataAssigned s = true
  /\ (finish (H := rejectingRelay) s).1 = Thrown e
  /\ endCalls (tls (finish (H := rejectingRelay) s).2) = []
  /\ pullFromSessionAbort (finish (H := rejectingRelay) s).2 = Some false.
Proof.
  intros s e.
  assert (noSession (sessionId s) = false) as Hsid by computed.
  assert (metadataAssigned s = true) as Hassigned by computed.
  split; [exact Hsid|]. split; [exact Hassigned|].
  destruct (finish_rejected_skips_teardown (H := rejectingRelay) s Hsid)
    as (_ & Hrejected & Hstops).
  destruct (Hrejected
              (List.filter (fun p => match reveal p with Some _ => true | None => false end)
                 (finishMarks (H := rejectingRelay) s))
              e Hassigned eq_refl eq_refl) as [Hthrown _].
  destruct (Hstops e Hthrown) as (Htls & Habort & _).
  split; [exact Hthrown|]. rewrite Htls, Habort. split; computed.
Defined.

(** The same session, finished with a relay that accepts it: the TLS
    session is ended by [finish] and, on the abort, by the pull loop. *)
Lemma finish_accepted_ends_session_witness :
  let s := demoDone KeyUpdate None in
  noSession (sessionId s) = false
  /\ metadataAssigned s = true
  /\ (finish (H := lenientRelay) s).1 = Returned 7%nat
  /\ endCalls (tls (finish (H := lenientRelay) s).2) = [None; None]
  /\ pullFromSessionAbort (finish (H := lenientRelay) s).2 = Some true.
Proof.
  intros s.
  assert (noSession (sessionId s) = false) as Hsid by computed.
  assert (metadataAssigned s = true) as Hassigned by computed.
  split; [exact Hsid|]. split; [exact Hassigned|].
  assert (length (List.filter (fun p => match reveal p with Some _ => true | None => false end)
                    (finishMarks (H := lenientRelay) s)) = 7%nat) as Hblocks by computed.
  destruct (finish_accepted_ends_session (H := lenientRelay) s
              (List.filter (fun p => match reveal p with Some _ => true | None => false end)
                 (finishMarks (H := lenientRelay) s))
              7%nat Hsid Hassigned eq_refl (f_equal inr Hblocks))
    as (Hret & _ & Hend & Habort & _).
  split; [exact Hret|]. rewrite Hend, Habort. split; computed.
Defined.

(** A relay that has closed the session answers the [cancel] of the
    example with an error: the pull loop, which was waiting for the stream,
    has then ended the TLS session, and [cancel] has not. *)
Lemma cancel_rejected_skips_teardown_witness :
  let relay := demoCapabilities (fun _ => Some (mkError (ClientError NOT_FOUND)
                                                  "session not found")) in
  let s := demoReady KeyUpdate None in
  let e := mkError (ClientError NOT_FOUND) "session not found" in
  noSession (sessionId s) = false
  /\ cancelReply (Capabilities := relay) (cancelCalls s) = Some e
  /\ (cancel (H := relay) s).1 = Thrown e
  /\ endCalls (tls (cancel (H := relay) s).2) = [None]
  /\ pullFromSessionAbort (cancel (H := relay) s).2 = Some true.
Proof.
  intros relay s e.
  assert (noSession (sessionId s) = false) as Hsid by computed.
  assert (cancelReply (Capabilities := relay) (cancelCalls s) = Some e) as Hreply
    by computed.
  split; [exact Hsid|]. split; [exact Hreply|].
  destruct (cancel_rejected_skips_teardown (H := relay) s e Hsid Hreply)
    as (Hthrown & Hend & _ & Habort & _).
  split; [exact Hthrown|]. rewrite Hend, Habort. split; computed.
Defined.

(** The session of the example, finished twice with the relay that
    rejects the proof. *)
Lemma finish_again_same_decisions_witness :
  let s := demoDone KeyUpdate (Some demoRedact) in
  noSession (sessionId s) = false
  /\ allPackets (finish (H := rejectingRelay) (finish (H := rejectingRelay) s).2).2
     = allPackets (finish (H := rejectingRelay) s).2.
Proof.
  intros s.
  assert (noSession (sessionId s) = false) as Hsid by computed.
  split; [exact Hsid|].
  exact (proj2 (finish_again_same_decisions (H := rejectingRelay) s Hsid)).
Defined.

(** ** The HTTP provider, on a body in two chunks *)

Lemma convertResponsePosToAbsolutePos_in_chunk_witness :
  let chunks := [mkSlice 10 14; mkSlice 20 30] in
  chunks <> []
  /\ safeChunks chunks
  /\ safeInteger 6
  /\ convertResponsePosToAbsolutePos 6 0 (Some chunks) = Returned 22
  /\ safeInteger 22
  /\ exists (k : nat) chunk,
       chunks !! k = Some chunk
       /\ fromIndex chunk <= 22 < toIndex chunk
       /\ 6 = chunkSizes (take k chunks) + (22 - fromIndex chunk).
Proof.
  intros chunks.
  assert (chunks <> []) as Hne by discriminate.
  assert (safeChunks chunks) as Hsafe.
  { split; [lia|]. split; [repeat constructor; simpl; unfold safeInteger; simpl; lia|].
    unfold safeInteger. simpl. lia. }
  assert (safeInteger 6) as Hpos by (unfold safeInteger; lia).
  assert (convertResponsePosToAbsolutePos 6 0 (Some chunks) = Returned 22) as Hr by computed.
  split; [exact Hne|]. split; [exact Hsafe|]. split; [exact Hpos|]. split; [exact Hr|].
  exact (convertResponsePosToAbsolutePos_in_chunk 6 0 22 chunks Hne Hsafe Hpos Hr).
Defined.

Lemma convertResponsePosToAbsolutePos_range_witness :
  let chunks := [mkSlice 10 14; mkSlice 20 30] in
  chunks <> []
  /\ safeChunks chunks
  /\ safeInteger 14
  /\ convertResponsePosToAbsolutePos 14 0 (Some chunks) = Thrown (Error "position out of range")
  /\ ~ (0 <= 14 < chunkSizes chunks).
Proof.
  intros chunks.
  assert (chunks <> []) as Hne by discriminate.
  assert (safeChunks chunks) as Hsafe.
  { split; [lia|]. split; [repeat constructor; simpl; unfold safeInteger; simpl; lia|].
    unfold safeInteger. simpl. lia. }
  assert (safeInteger 14) as Hpos by (unfold safeInteger; lia).
  split; [exact Hne|]. split; [exact Hsafe|]. split; [exact Hpos|].
  pose proof (convertResponsePosToAbsolutePos_range 14 0 chunks Hne Hsafe Hpos) as Hrange.
  assert (convertResponsePosToAbsolutePos 14 0 (Some chunks)
          = Thrown (Error "position out of range")) as Hthrown by computed.
  rewrite Hthrown in Hrange. split; [exact Hthrown | exact (proj2 Hrange)].
Defined.

Lemma convertResponsePosToAbsolutePos_monotone_witness :
  let chunks := [mkSlice 10 14; mkSlice 20 30] in
  disjointAscending chunks
  /\ safeChunks chunks
  /\ safeInteger 3 /\ safeInteger 4
  /\ convertResponsePosToAbsolutePos 3 0 (Some chunks) = Returned 13
  /\ convertResponsePosToAbsolutePos 4 0 (Some chunks) = Returned 20
  /\ 13 < 20.
Proof.
  intros chunks.
  assert (disjointAscending chunks) as Hasc by (vm_compute; intuition discriminate).
  assert (safeChunks chunks) as Hsafe.
  { split; [lia|]. split; [repeat constructor; simpl; unfold safeInteger; simpl; lia|].
    unfold safeInteger. simpl. lia. }
  assert (safeInteger 3) as Hpos1 by (unfold safeInteger; lia).
  assert (safeInteger 4) as Hpos2 by (unfold safeInteger; lia).
  assert (convertResponsePosToAbsolutePos 3 0 (Some chunks) = Returned 13) as H1 by computed.
  assert (convertResponsePosToAbsolutePos 4 0 (Some chunks) = Returned 20) as H2 by computed.
  split; [exact Hasc|]. split; [exact Hsafe|]. split; [exact Hpos1|]. split; [exact Hpos2|].
  split; [exact H1|]. split; [exact H2|].
  exact (convertResponsePosToAbsolutePos_monotone 3 4 0 13 20 (Some chunks)
           (conj Hasc Hsafe) Hpos1 Hpos2 ltac:(lia) H1 H2).
Defined.

(** Past the safe integers the sums are rounded as JavaScript rounds them:
    2^53 + 1 is not a double, the nearest one is 2^53.  So a position in a
    chunk that starts at 2^53 comes out one too low, a position can fall
    between two chunks, and two positions can end at the same place. *)
Lemma convertResponsePosToAbsolutePos_rounds :
  convertResponsePosToAbsolutePos 1 0 (Some [mkSlice (2 ^ 53) (2 ^ 53 + 2)])
  = Returned (2 ^ 53)
  /\ convertResponsePosToAbsolutePos (2 ^ 53) 0 (Some [mkSlice 0 (2 ^ 53 - 1); mkSlice 0 2])
     = Thrown (Error "position out of range")
  /\ convertResponsePosToAbsolutePos 0 (2 ^ 53) None = Returned (2 ^ 53)
  /\ convertResponsePosToAbsolutePos 1 (2 ^ 53) None = Returned (2 ^ 53).
Proof. repeat split; computed. Qed.

(** The second order in the text of the example: the range of "20". *)
Lemma extractJSONValueIndex_sound_witness :
  extractJSONValueIndex (H := demoLibraries) demoJson "$.user.orders[1]"
  = Returned (mkJSONIndex 22 24)
  /\ String.substring 22 2 demoJson = "20"%string
  /\ exists pointer properties rest,
       JSONPath (JSONLibraries := demoLibraries) "$.user.orders[1]" demoJson
       = Returned (Some pointer)
       /\ pointer <> EmptyString
       /\ parseScript (JSONLibraries := demoLibraries)
            (String.append "(" (String.append demoJson ")"))
          = Returned (mkProgram (ExpressionStatement (ObjectExpression properties) :: rest))
       /\ located pointer (ObjectExpression properties) EmptyString (mkJSONIndex 23 25).
Proof.
  assert (extractJSONValueIndex (H := demoLibraries) demoJson "$.user.orders[1]"
          = Returned (mkJSONIndex 22 24)) as Hfound by computed.
  split; [exact Hfound|]. split; [computed|].
  exact (extractJSONValueIndex_sound (H := demoLibraries) demoJson "$.user.orders[1]"
           (mkJSONIndex 22 24) Hfound).
Defined.

(** An object that has the key "a" twice, after a key "b": the range of
    the first "a". *)
Lemma traverse_first_property_witness :
  let pre := [Property (Some (2, 7)) (KeyLiteral "b") OtherExpression] in
  let post := [Property (Some (14, 19)) (KeyLiteral "a") OtherExpression] in
  (forall index, ~ located "/a" (ObjectExpression pre) EmptyString index)
  /\ propertyPath EmptyString (KeyLiteral "a") = "/a"%string
  /\ traverse (ObjectExpression (pre ++ Property (Some (8, 13)) (KeyLiteral "a") OtherExpression
                                    :: post)) EmptyString "/a"
     = Some (mkJSONIndex 8 13).
Proof.
  intros pre post.
  assert (forall index, ~ located "/a" (ObjectExpression pre) EmptyString index) as Hnone.
  { intros index Hlocated. apply traverse_complete in Hlocated.
    vm_compute in Hlocated. by destruct Hlocated. }
  split; [exact Hnone|]. split; [reflexivity|].
  exact (traverse_first_property EmptyString "/a" pre post (8, 13) (KeyLiteral "a")
           OtherExpression Hnone eq_refl).
Defined.

(** Two selections of version 1, with [useZK]. *)
Lemma normaliseParamsToV2_of_v1_witness :
  let params :=
    mkParams [mkSelection None (Some "$.user.name"%string) (Some "name=.*"%string);
              mkSelection None None (Some "id=[0-9]+"%string);
              mkSelection None None None]
      true None None tt in
  responseMatches params = None
  /\ responseMatches (normaliseParamsToV2 params)
     = Some [mkMatch MatchRegex (Some "name=.*"%string);
             mkMatch MatchRegex (Some "id=[0-9]+"%string)]
  /\ responseRedactions (normaliseParamsToV2 params)
     = Some [mkRedaction None (Some "$.user.name"%string) None;
             mkRedaction None None (Some "id=[0-9]+"%string)].
Proof.
  intros params.
  assert (responseMatches params = None) as Hv1 by reflexivity.
  split; [exact Hv1|].
  destruct (normaliseParamsToV2_of_v1 params Hv1) as (Hmatches & Hredactions & _).
  split; [exact Hmatches | exact Hredactions].
Defined.

(** ** The window RPC, on the page of the example *)

Lemma getCurrentMemoryUsage_rounds_witness :
  let env := mkMemoryEnv true (Some (Measured 7864320)) in
  crossOriginIsolated env = true
  /\ measureUserAgentSpecificMemory env = Some (Measured 7864320)
  /\ 0 <= 7864320 < 2 ^ 53
  /\ exists mb,
       getCurrentMemoryUsage env
       = Returned (mkMemoryUsage true (String.append (pretty mb) "mb"))
       /\ 0 <= mb
       /\ - 524288 <= 7864320 - 1048576 * mb < 524288.
Proof.
  intros env.
  assert (0 <= 7864320 < 2 ^ 53) as Hbytes by (vm_compute; split; [discriminate | reflexivity]).
  split; [reflexivity|]. split; [reflexivity|]. split; [exact Hbytes|].
  exact (getCurrentMemoryUsage_rounds env 7864320 eq_refl eq_refl Hbytes).
Defined.

(** A claim that is created: two steps and the result, to the source of
    the event. *)
Lemma handleMessage_answers_request_witness :
  isRequest demoRequest = true
  /\ posting (H0 := demoHost) true demoRequest = Delivered
  /\ exists (steps : list string) final,
       handleMessage (H0 := demoHost) (H1 := demoLibraries) true (MessageData demoRequest)
         handlingStart
       = (Returned tt,
          mkHandling "r1" EmptyString
            (map (fun step => answerTo demoRequest (CreateClaimStep step)) steps
             ++ [answerTo demoRequest final]))
       /\ concludes (requestBody demoRequest) final
       /\ (steps <> [] -> exists request, requestBody demoRequest = CreateClaimRequest request).
Proof.
  assert (isRequest demoRequest = true) as Hreq by computed.
  assert (posting (H0 := demoHost) true demoRequest = Delivered) as Hposting by computed.
  split; [exact Hreq|]. split; [exact Hposting|].
  destruct (handleMessage_answers_request (H0 := demoHost) (H1 := demoLibraries)
              true demoRequest Hreq) as [Hposts _].
  destruct Hposts as (steps & final & Hrun & Hrest); [by rewrite Hposting|].
  rewrite Hposting in Hrun. exists steps, final. split; [exact Hrun | exact Hrest].
Defined.
